(** * PengWM: the BSP tiling tree of [src/bsp.c]

    A shallow embedding of the binary-space-partitioning tree engine and
    proofs (or refutations) of the properties stated about it.

    The C code works on heap-allocated [BSPNode] structures linked by
    [first], [second] and [parent] pointers, and mutates them in place.
    The embedding keeps that shape: a heap is a finite map from addresses
    to node records, pointers are optional addresses ([None] is [NULL]),
    and every function of [bsp.c] is a computation in a state-and-fault
    monad over the heap.  [CGFloat] is a C [double]; it is modelled by the
    kernel's binary64 floats, so rectangle arithmetic is the machine's. *)

From Stdlib Require Import ZArith Floats String Ascii.
From stdpp Require Import gmap list.

Set Warnings "-clear-no-such-hyp".

Local Open Scope Z_scope.

(** ** Geometry (CoreGraphics value types used by [bsp.h]) *)

Record CGPoint := mkPoint { x : float; y : float }.
Record CGSize := mkSize { width : float; height : float }.
Record CGRect := mkRect { origin : CGPoint; size : CGSize }.

(** ** Nodes, pointers and the heap *)

Definition loc := positive.

(** A [BSPNode *]: [None] is the null pointer. *)
Definition ptr := option loc.

(** [struct BSPNode] of [bsp.h], field for field.  [window_id] is a C
    [int]; the code only stores and compares it, so it is a [Z] here. *)
Record BSPNode := mkNode {
  is_leaf : bool;
  window_id : Z;
  rect : CGRect;
  split_vertical : bool;
  first : ptr;
  second : ptr;
  parent : ptr
}.

Definition set_is_leaf (b : bool) (n : BSPNode) : BSPNode :=
  mkNode b (window_id n) (rect n) (split_vertical n) (first n) (second n) (parent n).
Definition set_window_id (w : Z) (n : BSPNode) : BSPNode :=
  mkNode (is_leaf n) w (rect n) (split_vertical n) (first n) (second n) (parent n).
Definition set_rect (r : CGRect) (n : BSPNode) : BSPNode :=
  mkNode (is_leaf n) (window_id n) r (split_vertical n) (first n) (second n) (parent n).
Definition set_split_vertical (b : bool) (n : BSPNode) : BSPNode :=
  mkNode (is_leaf n) (window_id n) (rect n) b (first n) (second n) (parent n).
Definition set_first (p : ptr) (n : BSPNode) : BSPNode :=
  mkNode (is_leaf n) (window_id n) (rect n) (split_vertical n) p (second n) (parent n).
Definition set_second (p : ptr) (n : BSPNode) : BSPNode :=
  mkNode (is_leaf n) (window_id n) (rect n) (split_vertical n) (first n) p (parent n).
Definition set_parent (p : ptr) (n : BSPNode) : BSPNode :=
  mkNode (is_leaf n) (window_id n) (rect n) (split_vertical n) (first n) (second n) p.

(** The all-zero node that [calloc] hands out. *)
Definition zero_rect : CGRect := mkRect (mkPoint 0 0) (mkSize 0 0).
Definition zero_node : BSPNode := mkNode false 0 zero_rect false None None None.

(** The machine state: the allocated nodes, and the outcomes of the
    allocations still to come ([false] is a failing [calloc]; once the
    list is used up every allocation succeeds). *)
Record state := mkState {
  mem : gmap loc BSPNode;
  oracle : list bool
}.

(** ** The state-and-fault monad

    [None] stands for undefined behaviour of the C program (a null or
    dangling dereference) and for a loop or recursion that ran out of
    fuel. *)

Definition M (A : Type) : Type := state -> option (A * state).

Definition ret {A} (a : A) : M A := fun s => Some (a, s).
Definition fault {A} : M A := fun _ => None.
Definition bind {A B} (m : M A) (k : A -> M B) : M B :=
  fun s => match m s with
           | Some (a, s') => k a s'
           | None => None
           end.

Declare Scope bsp_scope.
Delimit Scope bsp_scope with bsp.
Notation "'let*' x ':=' c 'in' k" := (bind c (fun x => k))
  (at level 10, x name, c at level 100, k at level 200) : bsp_scope.
Notation "c ;; k" := (bind c (fun _ => k))
  (at level 100, right associativity) : bsp_scope.
Local Open Scope bsp_scope.

(** [*p] as an rvalue. *)
Definition load (p : ptr) : M BSPNode :=
  fun s => match p with
           | Some a => match mem s !! a with
                       | Some n => Some (n, s)
                       | None => None
                       end
           | None => None
           end.

(** [p->field = v], as an update [f] of the node at [p]. *)
Definition modify (p : ptr) (f : BSPNode -> BSPNode) : M unit :=
  fun s => match p with
           | Some a => match mem s !! a with
                       | Some n => Some (tt, mkState (<[a := f n]> (mem s)) (oracle s))
                       | None => None
                       end
           | None => None
           end.

(** [calloc(1, sizeof(BSPNode))]. *)
Definition calloc : M ptr :=
  fun s => match oracle s with
           | false :: o => Some (None, mkState (mem s) o)
           | o => let a := fresh (dom (mem s)) in
                  Some (Some a, mkState (<[a := zero_node]> (mem s)) (tail o))
           end.

(** [free(p)]; [free(NULL)] does nothing, freeing an unallocated address
    is undefined. *)
Definition free (p : ptr) : M unit :=
  fun s => match p with
           | None => Some (tt, s)
           | Some a => match mem s !! a with
                       | Some _ => Some (tt, mkState (delete a (mem s)) (oracle s))
                       | None => None
                       end
           end.

(** The value the code stores in [window_id] for "no window". *)
Definition NO_WINDOW : Z := -1.

(** ** [bsp.c] *)

(** [bsp_create_root] (bsp.c:80). *)
Definition bsp_create_root (screen_rect : CGRect) : M ptr :=
  let* root := calloc in
  match root with
  | None => ret None
  | Some _ =>
      modify root (set_is_leaf true) ;;
      modify root (set_rect screen_rect) ;;
      modify root (set_window_id NO_WINDOW) ;;
      modify root (set_split_vertical false) ;;
      modify root (set_first None) ;;
      modify root (set_second None) ;;
      modify root (set_parent None) ;;
      ret root
  end.

(** The rectangle arithmetic of [bsp_split_leaf] (bsp.c:116-135): the
    orientation and the two halves [r1], [r2] of [r]. *)
Definition split_orientation (r : CGRect) : bool :=
  (height (size r) <? width (size r))%float.

Definition split_rects (r : CGRect) : CGRect * CGRect :=
  if split_orientation r then
    let w1 := (width (size r) / 2)%float in
    (mkRect (origin r) (mkSize w1 (height (size r))),
     mkRect (mkPoint (x (origin r) + w1)%float (y (origin r)))
            (mkSize (width (size r) / 2)%float (height (size r))))
  else
    let h1 := (height (size r) / 2)%float in
    (mkRect (origin r) (mkSize (width (size r)) h1),
     mkRect (mkPoint (x (origin r)) (y (origin r) + h1)%float)
            (mkSize (width (size r)) (height (size r) / 2)%float)).

(** [bsp_split_leaf] (bsp.c:105). *)
Definition bsp_split_leaf (leaf : ptr) (new_window_id : Z) : M unit :=
  match leaf with
  | None => ret tt
  | Some _ =>
      let* n := load leaf in
      if negb (is_leaf n) then ret tt
      else
        let sv := split_orientation (rect n) in
        modify leaf (set_is_leaf false) ;;
        modify leaf (set_split_vertical sv) ;;
        let '(r1, r2) := split_rects (rect n) in
        let* fst_child := calloc in
        match fst_child with
        | None => ret tt
        | Some _ =>
            modify fst_child (set_is_leaf true) ;;
            modify fst_child (set_rect r1) ;;
            let* l := load leaf in
            modify fst_child (set_window_id (window_id l)) ;;
            modify fst_child (set_parent leaf) ;;
            let* snd_child := calloc in
            match snd_child with
            | None => free fst_child ;; ret tt
            | Some _ =>
                modify snd_child (set_is_leaf true) ;;
                modify snd_child (set_rect r2) ;;
                modify snd_child (set_window_id new_window_id) ;;
                modify snd_child (set_parent leaf) ;;
                modify leaf (set_first fst_child) ;;
                modify leaf (set_second snd_child) ;;
                modify leaf (set_window_id NO_WINDOW)
            end
        end
  end.

(** [bsp_insert] (bsp.c:171). *)
Fixpoint bsp_insert (fuel : nat) (node : ptr) (window_id' : Z) : M unit :=
  match fuel with
  | O => fault
  | S fuel =>
      match node with
      | None => ret tt
      | Some _ =>
          let* n := load node in
          if is_leaf n then
            if window_id n =? NO_WINDOW
            then modify node (set_window_id window_id')
            else bsp_split_leaf node window_id'
          else bsp_insert fuel (first n) window_id'
      end
  end.

(** The body shared by the two branches of [bsp_collapse_empty_branches]
    (bsp.c:247-259 and bsp.c:262-274): [replacement] is the child whose
    contents move up into [node], [discarded] the child freed first. *)
Definition promote (node replacement discarded : ptr) : M unit :=
  let* r := load replacement in
  modify node (set_is_leaf (is_leaf r)) ;;
  modify node (set_window_id (window_id r)) ;;
  modify node (set_split_vertical (split_vertical r)) ;;
  free discarded ;;
  let* r := load replacement in
  modify node (set_first (first r)) ;;
  let* r := load replacement in
  modify node (set_second (second r)) ;;
  let* n := load node in
  match first n with Some _ => modify (first n) (set_parent node) | None => ret tt end ;;
  let* n := load node in
  match second n with Some _ => modify (second n) (set_parent node) | None => ret tt end ;;
  free replacement.

(** [bsp_collapse_empty_branches] (bsp.c:233). *)
Definition bsp_collapse_empty_branches (node : ptr) : M unit :=
  match node with
  | None => ret tt
  | Some _ =>
      let* n := load node in
      if is_leaf n then ret tt
      else
        let* c1 := load (first n) in
        let* c2 := load (second n) in
        let first_empty := is_leaf c1 && (window_id c1 =? NO_WINDOW) in
        let second_empty := is_leaf c2 && (window_id c2 =? NO_WINDOW) in
        if first_empty && negb second_empty then
          promote node (second n) (first n)
        else if second_empty && negb first_empty then
          promote node (first n) (second n)
        else ret tt
  end.

(** [bsp_remove_window] (bsp.c:203). *)
Fixpoint bsp_remove_window (fuel : nat) (node : ptr) (window_id' : Z) : M bool :=
  match fuel with
  | O => fault
  | S fuel =>
      match node with
      | None => ret false
      | Some _ =>
          let* n := load node in
          if is_leaf n then
            if window_id n =? window_id'
            then modify node (set_window_id NO_WINDOW) ;; ret true
            else ret false
          else
            let* in_first := bsp_remove_window fuel (first n) window_id' in
            let* in_either := (if in_first : bool then ret true
                               else let* n' := load node in
                                    bsp_remove_window fuel (second n') window_id') in
            if in_either : bool
            then bsp_collapse_empty_branches node ;; ret true
            else ret false
      end
  end.

(** [bsp_find_node_for_window] (bsp.c:286). *)
Fixpoint bsp_find_node_for_window (fuel : nat) (node : ptr) (window_id' : Z) : M ptr :=
  match fuel with
  | O => fault
  | S fuel =>
      match node with
      | None => ret None
      | Some _ =>
          let* n := load node in
          if is_leaf n then
            ret (if window_id n =? window_id' then node else None)
          else
            let* found := bsp_find_node_for_window fuel (first n) window_id' in
            match found with
            | Some _ => ret found
            | None => bsp_find_node_for_window fuel (second n) window_id'
            end
      end
  end.

(** [bsp_find_leftmost_leaf] (bsp.c:409) and [bsp_find_topmost_leaf]
    (bsp.c:431): [while (node && !node->is_leaf) node = node->first]. *)
Fixpoint bsp_find_leftmost_leaf (fuel : nat) (node : ptr) : M ptr :=
  match fuel with
  | O => fault
  | S fuel =>
      match node with
      | None => ret None
      | Some _ =>
          let* n := load node in
          if is_leaf n then ret node else bsp_find_leftmost_leaf fuel (first n)
      end
  end.

Definition bsp_find_topmost_leaf := bsp_find_leftmost_leaf.

(** [bsp_find_rightmost_leaf] (bsp.c:420) and [bsp_find_bottommost_leaf]
    (bsp.c:442): the same loop along [second]. *)
Fixpoint bsp_find_rightmost_leaf (fuel : nat) (node : ptr) : M ptr :=
  match fuel with
  | O => fault
  | S fuel =>
      match node with
      | None => ret None
      | Some _ =>
          let* n := load node in
          if is_leaf n then ret node else bsp_find_rightmost_leaf fuel (second n)
      end
  end.

Definition bsp_find_bottommost_leaf := bsp_find_rightmost_leaf.

(** Pointer comparison [p == q]. *)
Definition ptr_eqb (p q : ptr) : bool := bool_decide (p = q).

(** [bsp_find_left_neighbor] (bsp.c:337): the loop
    [while (current->parent)], started at [current = node]. *)
Fixpoint bsp_find_left_neighbor (fuel : nat) (current : ptr) : M ptr :=
  match fuel with
  | O => fault
  | S fuel =>
      let* c := load current in
      match parent c with
      | None => ret None
      | Some _ =>
          let* p := load (parent c) in
          if split_vertical p && ptr_eqb (second p) current
          then bsp_find_rightmost_leaf fuel (first p)
          else bsp_find_left_neighbor fuel (parent c)
      end
  end.

(** [bsp_find_right_neighbor] (bsp.c:355). *)
Fixpoint bsp_find_right_neighbor (fuel : nat) (current : ptr) : M ptr :=
  match fuel with
  | O => fault
  | S fuel =>
      let* c := load current in
      match parent c with
      | None => ret None
      | Some _ =>
          let* p := load (parent c) in
          if split_vertical p && ptr_eqb (first p) current
          then bsp_find_leftmost_leaf fuel (second p)
          else bsp_find_right_neighbor fuel (parent c)
      end
  end.

(** [bsp_find_up_neighbor] (bsp.c:373). *)
Fixpoint bsp_find_up_neighbor (fuel : nat) (current : ptr) : M ptr :=
  match fuel with
  | O => fault
  | S fuel =>
      let* c := load current in
      match parent c with
      | None => ret None
      | Some _ =>
          let* p := load (parent c) in
          if negb (split_vertical p) && ptr_eqb (second p) current
          then bsp_find_bottommost_leaf fuel (first p)
          else bsp_find_up_neighbor fuel (parent c)
      end
  end.

(** [bsp_find_down_neighbor] (bsp.c:391). *)
Fixpoint bsp_find_down_neighbor (fuel : nat) (current : ptr) : M ptr :=
  match fuel with
  | O => fault
  | S fuel =>
      let* c := load current in
      match parent c with
      | None => ret None
      | Some _ =>
          let* p := load (parent c) in
          if negb (split_vertical p) && ptr_eqb (first p) current
          then bsp_find_topmost_leaf fuel (second p)
          else bsp_find_down_neighbor fuel (parent c)
      end
  end.

(** [direction[0]] of a NUL-terminated C string: the terminator itself
    when the string is empty. *)
Definition first_char (direction : string) : ascii :=
  match direction with
  | EmptyString => zero
  | String c _ => c
  end.

(** [bsp_find_neighbor] (bsp.c:314); a [NULL] direction is [None]. *)
Definition bsp_find_neighbor (fuel : nat) (node : ptr) (direction : option string) : M ptr :=
  match node, direction with
  | Some _, Some d =>
      let c := first_char d in
      if Ascii.eqb c "l" then bsp_find_left_neighbor fuel node
      else if Ascii.eqb c "r" then bsp_find_right_neighbor fuel node
      else if Ascii.eqb c "u" then bsp_find_up_neighbor fuel node
      else if Ascii.eqb c "d" then bsp_find_down_neighbor fuel node
      else ret None
  | _, _ => ret None
  end.

(** ** Driving the tree

    A caller holds the root pointer and reaches any other node from it
    through [first] and [second] links; a [path] lists those links
    ([false] for [first], [true] for [second]). *)

Fixpoint node_at (node : ptr) (path : list bool) : M ptr :=
  match path with
  | [] => ret node
  | b :: path =>
      match node with
      | None => ret None
      | Some _ =>
          let* n := load node in
          node_at (if b : bool then second n else first n) path
      end
  end.

Inductive op :=
  | Insert (path : list bool) (w : Z)
  | Remove (path : list bool) (w : Z)
  | Split (path : list bool) (w : Z)
  | Collapse (path : list bool).

Definition run_op (fuel : nat) (root : ptr) (o : op) : M unit :=
  match o with
  | Insert path w => let* node := node_at root path in bsp_insert fuel node w
  | Remove path w => let* node := node_at root path in bsp_remove_window fuel node w ;; ret tt
  | Split path w => let* node := node_at root path in bsp_split_leaf node w
  | Collapse path => let* node := node_at root path in bsp_collapse_empty_branches node
  end.

Fixpoint run_ops (fuel : nat) (root : ptr) (ops : list op) : M unit :=
  match ops with
  | [] => ret tt
  | o :: ops => run_op fuel root o ;; run_ops fuel root ops
  end.

Definition empty_state (o : list bool) : state := mkState ∅ o.

(** Create a root for [screen_rect], then apply [ops] to it. *)
Definition session (fuel : nat) (screen_rect : CGRect) (ops : list op) : M ptr :=
  let* root := bsp_create_root screen_rect in
  run_ops fuel root ops ;;
  ret root.


(** * Reasoning about the primitives *)

Lemma bind_load {A} (a : loc) (n : BSPNode) (k : BSPNode -> M A) (s : state) :
  mem s !! a = Some n -> bind (load (Some a)) k s = k n s.
Proof. intros H. unfold bind, load. by rewrite H. Qed.

Lemma bind_modify {A} (a : loc) (n : BSPNode) f (k : unit -> M A) (s : state) :
  mem s !! a = Some n ->
  bind (modify (Some a) f) k s = k tt (mkState (<[a := f n]> (mem s)) (oracle s)).
Proof. intros H. unfold bind, modify. by rewrite H. Qed.

Lemma bind_free {A} (a : loc) (n : BSPNode) (k : unit -> M A) (s : state) :
  mem s !! a = Some n ->
  bind (free (Some a)) k s = k tt (mkState (delete a (mem s)) (oracle s)).
Proof. intros H. unfold bind, free. by rewrite H. Qed.

Lemma bind_ret {A B} (a : A) (k : A -> M B) (s : state) : bind (ret a) k s = k a s.
Proof. reflexivity. Qed.

(** The next [k] allocations succeed. *)
Definition allocs_succeed (k : nat) (o : list bool) : Prop :=
  Forall (fun b => b = true) (take k o).

Lemma bind_calloc {A} (k : ptr -> M A) (s : state) :
  allocs_succeed 1 (oracle s) ->
  bind calloc k s =
  k (Some (fresh (dom (mem s))))
    (mkState (<[fresh (dom (mem s)) := zero_node]> (mem s)) (tail (oracle s))).
Proof.
  unfold allocs_succeed, bind, calloc. destruct (oracle s) as [|[] o]; simpl; try done.
  intros H. by inversion H.
Qed.

Lemma bind_calloc_fail {A} (k : ptr -> M A) (s : state) o :
  oracle s = false :: o -> bind calloc k s = k None (mkState (mem s) o).
Proof. intros H. unfold bind, calloc. by rewrite H. Qed.

Lemma fresh_lookup (h : gmap loc BSPNode) : h !! fresh (dom h) = None.
Proof. apply not_elem_of_dom, is_fresh. Qed.

(** Symbolic execution of one primitive at the head of a computation. *)
Ltac lookup_now :=
  cbn [mem oracle];
  repeat first
    [ rewrite lookup_insert_eq
    | rewrite lookup_insert_ne by congruence
    | rewrite lookup_delete_ne by congruence ];
  first [ eassumption | reflexivity ].

Ltac step :=
  first
    [ rewrite bind_ret
    | erewrite bind_load by lookup_now
    | erewrite bind_modify by lookup_now
    | erewrite bind_free by lookup_now ];
  cbn [mem oracle is_leaf window_id rect split_vertical first second parent
       set_is_leaf set_window_id set_rect set_split_vertical set_first set_second
       set_parent negb].

Lemma allocs_succeed_S k b o :
  allocs_succeed (S k) (b :: o) <-> b = true /\ allocs_succeed k o.
Proof.
  unfold allocs_succeed. simpl. split.
  - intros H. by inversion H.
  - intros [-> H]. by constructor.
Qed.

Lemma allocs_succeed_nil k : allocs_succeed k [].
Proof. unfold allocs_succeed. destruct k; constructor. Qed.

Lemma allocs_succeed_tail k o : allocs_succeed (S k) o -> allocs_succeed k (tail o).
Proof.
  destruct o as [|b o]; [intros _; apply allocs_succeed_nil|].
  rewrite allocs_succeed_S. tauto.
Qed.

Lemma allocs_succeed_le k k' o : (k' <= k)%nat -> allocs_succeed k o -> allocs_succeed k' o.
Proof.
  unfold allocs_succeed. intros Hle H.
  replace k' with (k' `min` k)%nat by lia. rewrite <- take_take.
  by apply Forall_take.
Qed.

(** What a successful [bsp_split_leaf] leaves in the heap. *)
Definition split_parent (n : BSPNode) (f1 f2 : loc) : BSPNode :=
  mkNode false NO_WINDOW (rect n) (split_orientation (rect n))
         (Some f1) (Some f2) (parent n).
Definition split_first (a : loc) (n : BSPNode) : BSPNode :=
  mkNode true (window_id n) (fst (split_rects (rect n))) false None None (Some a).
Definition split_second (a : loc) (n : BSPNode) (w : Z) : BSPNode :=
  mkNode true w (snd (split_rects (rect n))) false None None (Some a).

Lemma drop_tail_2 {A} (o : list A) : tail (tail o) = drop 2 o.
Proof. by destruct o as [|? [|? ?]]. Qed.

Lemma done_eq {A} (a : A) (h h' : gmap loc BSPNode) (o o' : list bool) :
  h = h' -> o = o' -> Some (a, mkState h o) = Some (a, mkState h' o').
Proof. by intros -> ->. Qed.

Ltac heap_eq :=
  apply map_eq; intros ?i;
  repeat first [ rewrite lookup_insert | rewrite lookup_delete ];
  repeat case_decide; subst; cbn; try congruence; try done.

Ltac fresh_is f :=
  match goal with
  | |- context [fresh (dom ?h)] =>
      replace (dom h) with (dom f)
        by (cbn [mem]; rewrite ?dom_insert_L; set_solver)
  end.

Lemma bsp_split_leaf_ok (s : state) (a : loc) (n : BSPNode) (w : Z) :
  mem s !! a = Some n -> is_leaf n = true -> allocs_succeed 2 (oracle s) ->
  exists f1 f2,
    (f1 ∉ dom (mem s)) ∧ (f2 ∉ dom (mem s)) ∧ f1 <> f2 ∧
    bsp_split_leaf (Some a) w s =
    Some (tt, mkState (<[a := split_parent n f1 f2]>
                        (<[f2 := split_second a n w]>
                          (<[f1 := split_first a n]> (mem s))))
                      (drop 2 (oracle s))).
Proof.
  intros Ha Hleaf Ho.
  set (f1 := fresh (dom (mem s))).
  set (h1 := <[f1 := split_first a n]> (mem s)).
  set (f2 := fresh (dom h1)).
  assert (Hf1 : mem s !! f1 = None) by apply fresh_lookup.
  assert (Hf2 : h1 !! f2 = None) by apply fresh_lookup.
  assert (Hne1 : f1 <> a) by (intros ->; congruence).
  assert (Hne12 : f1 <> f2).
  { intros E. rewrite <- E in Hf2. unfold h1 in Hf2. by rewrite lookup_insert_eq in Hf2. }
  assert (Hf2' : mem s !! f2 = None).
  { unfold h1 in Hf2. by rewrite lookup_insert_ne in Hf2. }
  assert (Hne2 : f2 <> a) by (intros ->; congruence).
  assert (Hin : a ∈ dom (mem s)) by (apply elem_of_dom; eauto).
  exists f1, f2. repeat split; [by apply not_elem_of_dom..|done|].
  unfold bsp_split_leaf. step. rewrite Hleaf. cbn [negb].
  do 2 step. destruct (split_rects (rect n)) as [r1 r2] eqn:Hr.
  rewrite bind_calloc by (eapply allocs_succeed_le; [|exact Ho]; lia).
  fresh_is (mem s). fold f1. cbn [mem oracle].
  do 5 step.
  rewrite bind_calloc by (by apply allocs_succeed_tail).
  fresh_is h1. fold f2. cbn [mem oracle].
  do 6 step. unfold modify. cbn [mem oracle]. rewrite lookup_insert_eq.
  unfold split_parent, split_second, split_first, h1. rewrite Hr. cbn [fst snd].
  apply done_eq; [heap_eq | apply drop_tail_2].
Qed.

(** * The tree a heap holds

    A [tree] records, for every node reachable from a root, its address and
    its data fields; the pointer fields are implied by the shape.  [repr h
    par t] says that heap [h] holds [t] with the root's [parent] field
    equal to [par]: every node is allocated, every [first], [second] and
    [parent] pointer is the one the shape dictates, and leaves have null
    children (as every leaf made by [bsp_create_root] and [bsp_split_leaf]
    has). *)

Inductive tree :=
  | Leaf (a : loc) (w : Z) (r : CGRect) (sv : bool)
  | Node (a : loc) (w : Z) (r : CGRect) (sv : bool) (t1 t2 : tree).

Definition root_addr (t : tree) : loc :=
  match t with Leaf a _ _ _ | Node a _ _ _ _ _ => a end.

Definition root_rect (t : tree) : CGRect :=
  match t with Leaf _ _ r _ | Node _ _ r _ _ _ => r end.

Fixpoint addrs (t : tree) : list loc :=
  match t with
  | Leaf a _ _ _ => [a]
  | Node a _ _ _ t1 t2 => a :: addrs t1 ++ addrs t2
  end.

Fixpoint depth (t : tree) : nat :=
  match t with
  | Leaf _ _ _ _ => 0
  | Node _ _ _ _ t1 t2 => S (depth t1 `max` depth t2)
  end.

(** The node record stored at the root of [t]. *)
Definition cell (par : ptr) (t : tree) : BSPNode :=
  match t with
  | Leaf _ w r sv => mkNode true w r sv None None par
  | Node _ w r sv t1 t2 =>
      mkNode false w r sv (Some (root_addr t1)) (Some (root_addr t2)) par
  end.

Fixpoint repr (h : gmap loc BSPNode) (par : ptr) (t : tree) : Prop :=
  h !! root_addr t = Some (cell par t) ∧
  match t with
  | Leaf _ _ _ _ => True
  | Node a _ _ _ t1 t2 => repr h (Some a) t1 ∧ repr h (Some a) t2
  end.

(** A well-formed tree: represented in the heap, no node shared. *)
Definition wf (h : gmap loc BSPNode) (par : ptr) (t : tree) : Prop :=
  repr h par t ∧ NoDup (addrs t).

(** The window identifiers stored in the leaves, in traversal order
    (first child before second), empty leaves included. *)
Fixpoint leaf_ids (t : tree) : list Z :=
  match t with
  | Leaf _ w _ _ => [w]
  | Node _ _ _ _ t1 t2 => leaf_ids t1 ++ leaf_ids t2
  end.

(** The windows a tree holds: the identifiers of its occupied leaves. *)
Definition windows (t : tree) : list Z :=
  filter (fun w => w <> NO_WINDOW) (leaf_ids t).

Lemma repr_root h par t : repr h par t -> h !! root_addr t = Some (cell par t).
Proof. destruct t; simpl; tauto. Qed.

Lemma root_in_addrs t : root_addr t ∈ addrs t.
Proof. destruct t; simpl; set_solver. Qed.

Lemma repr_frame h h' par t :
  (forall b, b ∈ addrs t -> h' !! b = h !! b) -> repr h par t -> repr h' par t.
Proof.
  revert par. induction t as [a w r sv|a w r sv t1 IH1 t2 IH2]; intros par Hag; simpl.
  - intros [H _]. split; [|done]. rewrite Hag; [done|set_solver].
  - intros (H & H1 & H2). split; [rewrite Hag; [done|set_solver]|].
    split; [apply IH1|apply IH2]; try done; intros b Hb; apply Hag; simpl; set_solver.
Qed.

Lemma repr_allocated h par t b : repr h par t -> b ∈ addrs t -> is_Some (h !! b).
Proof.
  revert par. induction t as [a w r sv|a w r sv t1 IH1 t2 IH2]; intros par; simpl.
  - intros [H _] Hb. apply list_elem_of_singleton in Hb as ->. eauto.
  - intros (H & H1 & H2) Hb. apply elem_of_cons in Hb as [->|Hb]; [eauto|].
    apply elem_of_app in Hb as [Hb|Hb]; eauto.
Qed.

(** Changing only the root's [parent] field re-parents the tree. *)
Lemma repr_reparent h par par' t :
  repr h par t -> NoDup (addrs t) ->
  repr (<[root_addr t := cell par' t]> h) par' t.
Proof.
  intros H Hnd. destruct t as [a w r sv|a w r sv t1 t2]; simpl in *.
  - split; [apply lookup_insert_eq|done].
  - destruct H as (H & H1 & H2). apply NoDup_cons in Hnd as [Hna Hnd].
    split; [apply lookup_insert_eq|].
    split; (eapply repr_frame; [|eassumption]);
      intros b Hb; apply lookup_insert_ne; set_solver.
Qed.

(** How an operation on the subtree [t] may change the heap: [t'] sits
    at the same address, nodes outside the old and new subtree keep their
    contents, nodes dropped from the subtree were freed, and nodes added
    to it were not allocated before. *)
Definition transforms (h h' : gmap loc BSPNode) (t t' : tree) : Prop :=
  root_addr t' = root_addr t ∧
  (forall b, b ∉ addrs t -> b ∉ addrs t' -> h' !! b = h !! b) ∧
  (forall b, b ∈ addrs t -> b ∉ addrs t' -> h' !! b = None) ∧
  (forall b, b ∈ addrs t' -> b ∉ addrs t -> h !! b = None).

Lemma transforms_refl h t : transforms h h t t.
Proof. repeat split; intros; done. Qed.


(** Every allocation still to come succeeds. *)
Definition never_fails (o : list bool) : Prop := Forall (fun b => b = true) o.

Lemma never_fails_allocs k o : never_fails o -> allocs_succeed k o.
Proof. apply Forall_take. Qed.

Lemma never_fails_drop k o : never_fails o -> never_fails (drop k o).
Proof. apply Forall_drop. Qed.

(** What an operation on a well-formed subtree establishes. *)
Definition op_ok (s s' : state) (par : ptr) (t t' : tree) : Prop :=
  wf (mem s') par t' ∧ transforms (mem s) (mem s') t t'.

(** ** The operations, on trees *)

Definition split_node (f1 f2 : loc) (w' : Z) (a : loc) (w : Z) (r : CGRect) : tree :=
  Node a NO_WINDOW r (split_orientation r)
       (Leaf f1 w (fst (split_rects r)) false)
       (Leaf f2 w' (snd (split_rects r)) false).

Definition splitT (f1 f2 : loc) (w' : Z) (t : tree) : tree :=
  match t with
  | Leaf a w r _ => split_node f1 f2 w' a w r
  | Node _ _ _ _ _ _ => t
  end.

Fixpoint insertT (f1 f2 : loc) (w' : Z) (t : tree) : tree :=
  match t with
  | Leaf a w r sv =>
      if w =? NO_WINDOW then Leaf a w' r sv else split_node f1 f2 w' a w r
  | Node a w r sv t1 t2 => Node a w r sv (insertT f1 f2 w' t1) t2
  end.

Definition empty_leaf (t : tree) : bool :=
  match t with
  | Leaf _ w _ _ => w =? NO_WINDOW
  | Node _ _ _ _ _ _ => false
  end.

(** The node at [a] with rectangle [r] takes over the contents of [u]. *)
Definition graft (a : loc) (r : CGRect) (u : tree) : tree :=
  match u with
  | Leaf _ w _ sv => Leaf a w r sv
  | Node _ w _ sv u1 u2 => Node a w r sv u1 u2
  end.

Definition collapseT (t : tree) : tree :=
  match t with
  | Leaf _ _ _ _ => t
  | Node a _ r _ t1 t2 =>
      if empty_leaf t1 && negb (empty_leaf t2) then graft a r t2
      else if empty_leaf t2 && negb (empty_leaf t1) then graft a r t1
      else t
  end.

Arguments collapseT : simpl never.

Fixpoint removeT (w' : Z) (t : tree) : bool * tree :=
  match t with
  | Leaf a w r sv => if w =? w' then (true, Leaf a NO_WINDOW r sv) else (false, t)
  | Node a w r sv t1 t2 =>
      let '(b1, t1') := removeT w' t1 in
      if b1 then (true, collapseT (Node a w r sv t1' t2))
      else
        let '(b2, t2') := removeT w' t2 in
        if b2 then (true, collapseT (Node a w r sv t1 t2'))
        else (false, t)
  end.

(** ** The heap operations implement the tree operations *)

Lemma fresh_pair (h : gmap loc BSPNode) :
  exists f1 f2 : loc, (f1 ∉ dom h) ∧ (f2 ∉ dom h) ∧ f1 <> f2.
Proof.
  exists (fresh (dom h)), (fresh ({[fresh (dom h)]} ∪ dom h)).
  pose proof (is_fresh (dom h)).
  pose proof (is_fresh ({[fresh (dom h)]} ∪ dom h)). set_solver.
Qed.

Lemma bsp_split_leaf_tree (s : state) (par : ptr) (t : tree) (w : Z) :
  wf (mem s) par t -> never_fails (oracle s) ->
  exists f1 f2 s',
    bsp_split_leaf (Some (root_addr t)) w s = Some (tt, s') ∧
    (f1 ∉ dom (mem s)) ∧ (f2 ∉ dom (mem s)) ∧ f1 <> f2 ∧
    op_ok s s' par t (splitT f1 f2 w t) ∧ never_fails (oracle s').
Proof.
  intros [Hr Hnd] Ho. destruct t as [a v r sv|a v r sv t1 t2].
  - destruct Hr as [Ha _]. simpl in Ha.
    destruct (bsp_split_leaf_ok s a _ w Ha eq_refl (never_fails_allocs 2 _ Ho))
      as (f1 & f2 & Hf1 & Hf2 & Hne & Hrun).
    assert (f1 <> a ∧ f2 <> a) as [Hne1 Hne2].
    { split; intros ->; [apply Hf1|apply Hf2]; apply elem_of_dom; eauto. }
    eexists f1, f2, _. split; [exact Hrun|]. repeat split; try done; cbn [mem oracle].
    + apply lookup_insert_eq.
    + simpl. by rewrite lookup_insert_ne, lookup_insert_ne, lookup_insert_eq by congruence.
    + simpl. by rewrite lookup_insert_ne, lookup_insert_eq by congruence.
    + simpl. repeat constructor; set_solver.
    + intros b Hb Hb'. simpl in Hb'.
      rewrite !lookup_insert_ne; [done|set_solver..].
    + simpl. set_solver.
    + simpl. intros b Hb Hb'. apply not_elem_of_dom. set_solver.
    + by apply never_fails_drop.
  - destruct (fresh_pair (mem s)) as (f1 & f2 & Hf1 & Hf2 & Hne).
    exists f1, f2, s. destruct Hr as (Ha & H1 & H2). simpl in Ha.
    split. { unfold bsp_split_leaf. simpl. by step. }
    repeat split; done.
Qed.

Lemma insertT_root f1 f2 w t : root_addr (insertT f1 f2 w t) = root_addr t.
Proof. destruct t; simpl; [case_match|]; done. Qed.



(** Rebuilding a node around a changed child. *)
Lemma not_new h h' t t' par u b :
  transforms h h' t t' -> repr h par u -> b ∈ addrs u -> b ∉ addrs t -> b ∉ addrs t'.
Proof.
  intros (_ & _ & _ & Hnew) Hu Hb Hnt Hb'.
  destruct (repr_allocated _ _ _ _ Hu Hb) as [n Hn]. rewrite Hnew in Hn; done.
Qed.

Lemma rebuild_first h h' par a v r sv t1 t2 t1' :
  wf h par (Node a v r sv t1 t2) -> wf h' (Some a) t1' -> transforms h h' t1 t1' ->
  wf h' par (Node a v r sv t1' t2) ∧
  transforms h h' (Node a v r sv t1 t2) (Node a v r sv t1' t2).
Proof.
  intros [Hr Hnd] [Hr1' Hnd1'] Htr. pose proof Hr as (Ha & Hr1 & Hr2).
  simpl in Ha, Hnd. apply NoDup_cons in Hnd as [Hna Hnd].
  apply NoDup_app in Hnd as (Hnd1 & Hdisj & Hnd2).
  assert (Ha1 : a ∉ addrs t1) by set_solver.
  assert (Ha1' : a ∉ addrs t1').
  { eapply (not_new _ _ _ _ _ (Node a v r sv t1 t2)); [done..| |done]. simpl. set_solver. }
  assert (H2' : forall b, b ∈ addrs t2 -> b ∉ addrs t1').
  { intros b Hb. eapply (not_new _ _ _ _ _ t2); [done..|]. intros ?. by eapply Hdisj. }
  pose proof Htr as (Hroot & Hout & Hfreed & Hnew).
  split; [split|].
  - simpl. rewrite Hroot. split; [by rewrite Hout|]. split; [done|].
    eapply repr_frame; [|exact Hr2]. intros b Hb. apply Hout; [|by apply H2'].
    intros ?. by eapply Hdisj.
  - simpl. apply NoDup_cons. split; [set_solver|]. apply NoDup_app. set_solver.
  - repeat split; simpl.
    + intros b Hb Hb'. apply Hout; set_solver.
    + intros b Hb Hb'. apply Hfreed; set_solver.
    + intros b Hb Hb'. apply Hnew; set_solver.
Qed.

Lemma rebuild_second h h' par a v r sv t1 t2 t2' :
  wf h par (Node a v r sv t1 t2) -> wf h' (Some a) t2' -> transforms h h' t2 t2' ->
  wf h' par (Node a v r sv t1 t2') ∧
  transforms h h' (Node a v r sv t1 t2) (Node a v r sv t1 t2').
Proof.
  intros [Hr Hnd] [Hr2' Hnd2'] Htr. pose proof Hr as (Ha & Hr1 & Hr2).
  simpl in Ha, Hnd. apply NoDup_cons in Hnd as [Hna Hnd].
  apply NoDup_app in Hnd as (Hnd1 & Hdisj & Hnd2).
  assert (Ha2 : a ∉ addrs t2) by set_solver.
  assert (Ha2' : a ∉ addrs t2').
  { eapply (not_new _ _ _ _ _ (Node a v r sv t1 t2)); [done..| |done]. simpl. set_solver. }
  assert (H1' : forall b, b ∈ addrs t1 -> b ∉ addrs t2').
  { intros b Hb. eapply (not_new _ _ _ _ _ t1); [done..|]. by apply Hdisj. }
  pose proof Htr as (Hroot & Hout & Hfreed & Hnew).
  split; [split|].
  - simpl. rewrite Hroot. split; [by rewrite Hout|]. split; [|done].
    eapply repr_frame; [|exact Hr1]. intros b Hb. apply Hout; [|by apply H1'].
    by apply Hdisj.
  - simpl. apply NoDup_cons. split; [set_solver|]. apply NoDup_app. set_solver.
  - repeat split; simpl.
    + intros b Hb Hb'. apply Hout; set_solver.
    + intros b Hb Hb'. apply Hfreed; set_solver.
    + intros b Hb Hb'. apply Hnew; set_solver.
Qed.

Lemma bsp_insert_tree (t : tree) :
  forall (s : state) (par : ptr) (fuel : nat) (w : Z),
    wf (mem s) par t -> never_fails (oracle s) -> (depth t < fuel)%nat ->
    exists f1 f2 s',
      bsp_insert fuel (Some (root_addr t)) w s = Some (tt, s') ∧
      (f1 ∉ dom (mem s)) ∧ (f2 ∉ dom (mem s)) ∧ f1 <> f2 ∧
      op_ok s s' par t (insertT f1 f2 w t) ∧ never_fails (oracle s').
Proof.
  induction t as [a v r sv|a v r sv t1 IH1 t2 _]; intros s par fuel w Hwf Ho Hfuel;
    (destruct fuel as [|fuel]; [lia|]); pose proof Hwf as [Hr Hnd].
  - destruct Hr as [Ha _]. simpl in Ha. cbn [bsp_insert root_addr insertT]. step.
    destruct (v =? NO_WINDOW) eqn:Hv.
    + destruct (fresh_pair (mem s)) as (f1 & f2 & Hf1 & Hf2 & Hne).
      eexists f1, f2, _. split; [unfold modify; cbn [mem]; by rewrite Ha|].
      repeat split; try done; cbn [mem oracle set_window_id is_leaf window_id rect
        split_vertical first second parent].
      * apply lookup_insert_eq.
      * intros b Hb _. apply lookup_insert_ne. simpl in Hb. set_solver.
    + destruct (bsp_split_leaf_tree s par (Leaf a v r sv) w Hwf Ho)
        as (f1 & f2 & s' & Hrun & Hrest).
      exists f1, f2, s'. split; [exact Hrun|exact Hrest].
  - destruct Hr as (Ha & Hr1 & Hr2). simpl in Ha, Hnd, Hfuel.
    pose proof Hnd as Hnd'. apply NoDup_cons in Hnd' as [_ Hnd'].
    apply NoDup_app in Hnd' as (Hnd1 & _ & _).
    destruct (IH1 s (Some a) fuel w (conj Hr1 Hnd1) Ho ltac:(lia))
      as (f1 & f2 & s' & Hrun & Hf1 & Hf2 & Hne & [Hwf1 Htr] & Ho').
    exists f1, f2, s'. cbn [bsp_insert root_addr insertT]. step.
    split; [exact Hrun|].
    destruct (rebuild_first (mem s) (mem s') par a v r sv t1 t2 _ Hwf Hwf1 Htr).
    split_and!; [done..|by split|done].
Qed.

Lemma free_Some (a : loc) (n : BSPNode) (s : state) :
  mem s !! a = Some n ->
  free (Some a) s = Some (tt, mkState (delete a (mem s)) (oracle s)).
Proof. intros H. unfold free. by rewrite H. Qed.

Ltac lookups tac :=
  repeat first
    [ rewrite lookup_insert_eq
    | rewrite lookup_delete_eq
    | rewrite lookup_insert_ne by tac
    | rewrite lookup_delete_ne by tac ].

Lemma cell_reparent par par' t : set_parent par' (cell par t) = cell par' t.
Proof. by destruct t. Qed.

Lemma graft_root a r u : root_addr (graft a r u) = a.
Proof. by destruct u. Qed.

(** [promote] on a node [a] whose children are the tree [u] and the leaf
    at [b]: afterwards [a] holds [u]'s contents under its own rectangle, and
    [b] and the old root of [u] are gone. *)
Lemma promote_ok (s : state) (par : ptr) (a b : loc) (n : BSPNode) (u : tree)
    (wb : Z) (rb : CGRect) (svb : bool) :
  mem s !! a = Some n -> parent n = par ->
  repr (mem s) (Some a) u -> repr (mem s) (Some a) (Leaf b wb rb svb) ->
  NoDup (a :: b :: addrs u) ->
  exists s',
    promote (Some a) (Some (root_addr u)) (Some b) s = Some (tt, s') ∧
    oracle s' = oracle s ∧
    wf (mem s') par (graft a (rect n) u) ∧
    mem s' !! b = None ∧ mem s' !! root_addr u = None ∧
    (forall c, c <> a -> c <> b -> c ∉ addrs u -> mem s' !! c = mem s !! c).
Proof.
  intros Ha Hpar Hu [Hb _] Hnd. simpl in Hb.
  apply NoDup_cons in Hnd as [Hab Hnd]. apply NoDup_cons in Hnd as [Hbu Hndu].
  assert (Hne : a <> b) by set_solver.
  destruct u as [c w r sv|c w r sv u1 u2].
  - destruct Hu as [Hc _]. simpl in Hc.
    assert (a <> c ∧ b <> c) as [Hac Hbc] by set_solver.
    eexists. unfold promote. cbn [root_addr]. repeat step.
    split; [erewrite free_Some by lookup_now; reflexivity|].
    cbn [mem oracle graft]. split; [done|]. split; [split|].
    + simpl. split; [|done]. lookups congruence. by rewrite <- Hpar.
    + simpl. repeat constructor. set_solver.
    + split_and!.
      * by lookups congruence.
      * apply lookup_delete_eq.
      * intros c' ? ? ?. assert (c' <> c) by set_solver. by lookups congruence.
  - destruct Hu as (Hc & Hu1 & Hu2). simpl in Hc, Hndu, Hab, Hbu.
    apply NoDup_cons in Hndu as [Hcu Hndu].
    apply NoDup_app in Hndu as (Hnd1 & Hdisj & Hnd2).
    pose proof (root_in_addrs u1) as Hr1. pose proof (root_in_addrs u2) as Hr2.
    pose proof (repr_root _ _ _ Hu1) as Hc1. pose proof (repr_root _ _ _ Hu2) as Hc2.
    assert (a <> c ∧ b <> c) as [Hac Hbc] by set_solver.
    assert (root_addr u1 <> a ∧ root_addr u1 <> b ∧ root_addr u1 <> c)
      as (H1a & H1b & H1c) by set_solver.
    assert (root_addr u2 <> a ∧ root_addr u2 <> b ∧ root_addr u2 <> c)
      as (H2a & H2b & H2c) by set_solver.
    assert (H12 : root_addr u1 <> root_addr u2)
      by (intros E; eapply Hdisj; [exact Hr1|]; by rewrite E).
    eexists. unfold promote. cbn [root_addr]. repeat step.
    split; [erewrite free_Some by lookup_now; reflexivity|].
    cbn [mem oracle graft]. split; [done|].
    set (h' := delete c _).
    assert (Hother : forall c', c' <> a -> c' <> b -> c' <> c ->
                                c' <> root_addr u1 -> c' <> root_addr u2 ->
                                h' !! c' = mem s !! c').
    { intros c' ? ? ? ? ?. unfold h'. by lookups congruence. }
    assert (Hsub : forall u0, repr (mem s) (Some c) u0 -> NoDup (addrs u0) ->
                     h' !! root_addr u0 = Some (cell (Some a) u0) ->
                     (forall c', c' ∈ addrs u0 -> c' <> a ∧ c' <> b ∧ c' <> c) ->
                     (forall c', c' ∈ addrs u0 -> c' <> root_addr u0 ->
                                 c' <> root_addr u1 ∧ c' <> root_addr u2) ->
                     repr h' (Some a) u0).
    { intros u0 Hu0 Hnd0 Hroot Hfar Hinner.
      eapply repr_frame; [|apply (repr_reparent _ _ (Some a) _ Hu0 Hnd0)].
      intros c' Hc'. destruct (decide (c' = root_addr u0)) as [->|Hne'].
      - by rewrite lookup_insert_eq.
      - rewrite lookup_insert_ne by done. destruct (Hfar c' Hc') as (? & ? & ?).
        destruct (Hinner c' Hc' Hne'). by apply Hother. }
    split; [split|].
    + simpl. split_and!.
      * unfold h'. lookups congruence. by rewrite <- Hpar.
      * apply Hsub; try done.
        -- unfold h'. lookups congruence. by rewrite cell_reparent.
        -- intros c' Hc'. set_solver.
        -- intros c' Hc' Hne'. split; [done|]. intros ->. by eapply Hdisj.
      * apply Hsub; try done.
        -- unfold h'. lookups congruence. by rewrite cell_reparent.
        -- intros c' Hc'. set_solver.
        -- intros c' Hc' Hne'. split; [|done]. intros ->. by eapply Hdisj.
    + simpl. apply NoDup_cons. split; [set_solver|]. by apply NoDup_app.
    + split_and!.
      * unfold h'. by lookups congruence.
      * apply lookup_delete_eq.
      * intros c' ? ? Hc'. simpl in Hc'. apply Hother; set_solver.
Qed.

Lemma cell_empty par t :
  is_leaf (cell par t) && (window_id (cell par t) =? NO_WINDOW) = empty_leaf t.
Proof. by destruct t. Qed.

Lemma empty_leaf_inv t :
  empty_leaf t = true -> exists a r sv, t = Leaf a NO_WINDOW r sv.
Proof.
  destruct t as [a w r sv|]; [|done]. simpl. intros ->%Z.eqb_eq. eauto.
Qed.

Lemma graft_addrs_in a r u c : c ∈ addrs (graft a r u) -> c = a ∨ c ∈ addrs u.
Proof. destruct u; simpl; set_solver. Qed.

Lemma graft_addrs_out a r u c :
  c ∈ addrs u -> c ∉ addrs (graft a r u) -> c = root_addr u.
Proof. destruct u; simpl; set_solver. Qed.

Lemma bsp_collapse_tree (s : state) (par : ptr) (t : tree) :
  wf (mem s) par t ->
  exists s',
    bsp_collapse_empty_branches (Some (root_addr t)) s = Some (tt, s') ∧
    oracle s' = oracle s ∧ op_ok s s' par t (collapseT t).
Proof.
  intros Hwf. pose proof Hwf as [Hr Hnd].
  destruct t as [a v r sv|a v r sv t1 t2].
  - destruct Hr as [Ha _]. simpl in Ha. exists s.
    unfold bsp_collapse_empty_branches. cbn [root_addr]. step.
    split; [done|]. split; [done|]. split; [done|apply transforms_refl].
  - pose proof Hr as (Ha & Hr1 & Hr2). simpl in Ha.
    pose proof (repr_root _ _ _ Hr1) as Hc1. pose proof (repr_root _ _ _ Hr2) as Hc2.
    unfold bsp_collapse_empty_branches. cbn [root_addr]. do 3 step.
    rewrite !cell_empty. unfold collapseT.
    destruct (empty_leaf t1 && negb (empty_leaf t2)) eqn:E1;
      [|destruct (empty_leaf t2 && negb (empty_leaf t1)) eqn:E2].
    + apply andb_prop in E1 as [E1 _].
      apply empty_leaf_inv in E1 as (b & rb & svb & ->).
      destruct (promote_ok s par a b _ t2 _ _ _ Ha eq_refl Hr2 Hr1)
        as (s' & Hrun & Ho & Hwf' & Hb & Hroot & Hother).
      { simpl in Hnd. done. }
      exists s'. split; [exact Hrun|]. split; [done|]. split; [done|].
      split_and!.
      * apply graft_root.
      * intros c Hc Hc'. simpl in Hc. apply Hother; set_solver.
      * intros c Hc Hc'. simpl in Hc.
        assert (c <> a) by (intros ->; apply Hc'; destruct t2; simpl; set_solver).
        assert (c = b ∨ c ∈ addrs t2) as [->|Hin] by set_solver; [done|].
        by rewrite (graft_addrs_out _ _ _ _ Hin Hc').
      * intros c Hc Hc'. apply graft_addrs_in in Hc. simpl in Hc'. set_solver.
    + apply andb_prop in E2 as [E2 _].
      apply empty_leaf_inv in E2 as (b & rb & svb & ->).
      destruct (promote_ok s par a b _ t1 _ _ _ Ha eq_refl Hr1 Hr2)
        as (s' & Hrun & Ho & Hwf' & Hb & Hroot & Hother).
      { simpl in Hnd. apply NoDup_cons in Hnd as [Hna Hnd].
        apply NoDup_app in Hnd as (Hnd1 & Hdisj & _).
        apply NoDup_cons. split; [set_solver|]. apply NoDup_cons. split; [|done].
        intros Hb. by eapply Hdisj; [exact Hb|set_solver]. }
      exists s'. split; [exact Hrun|]. split; [done|]. split; [done|].
      split_and!.
      * apply graft_root.
      * intros c Hc Hc'. simpl in Hc. apply Hother; set_solver.
      * intros c Hc Hc'. simpl in Hc.
        assert (c <> a) by (intros ->; apply Hc'; destruct t1; simpl; set_solver).
        assert (c = b ∨ c ∈ addrs t1) as [->|Hin] by set_solver; [done|].
        by rewrite (graft_addrs_out _ _ _ _ Hin Hc').
      * intros c Hc Hc'. apply graft_addrs_in in Hc. simpl in Hc'. set_solver.
    + exists s. split; [done|]. split; [done|]. split; [done|apply transforms_refl].
Qed.

Lemma transforms_trans h1 h2 h3 t1 t2 t3 par :
  repr h1 par t1 ->
  transforms h1 h2 t1 t2 -> transforms h2 h3 t2 t3 ->
  (forall b, b ∈ addrs t3 -> b ∈ addrs t2) ->
  (forall b, b ∈ addrs t2 -> b ∈ addrs t1) ->
  transforms h1 h3 t1 t3.
Proof.
  intros Hr (R12 & O12 & F12 & N12) (R23 & O23 & F23 & N23) H32 H21.
  split_and!.
  - congruence.
  - intros b Hb Hb'. rewrite O23, O12; try done; set_solver.
  - intros b Hb Hb'. destruct (decide (b ∈ addrs t2)).
    + by apply F23.
    + rewrite O23 by set_solver. by apply F12.
  - intros b Hb Hb'. set_solver.
Qed.

Lemma collapseT_addrs t b : b ∈ addrs (collapseT t) -> b ∈ addrs t.
Proof.
  destruct t as [|a v r sv t1 t2]; [done|]. unfold collapseT. simpl.
  repeat case_match; try done; intros [->|Hin]%graft_addrs_in; set_solver.
Qed.

Lemma removeT_addrs w t b : b ∈ addrs (snd (removeT w t)) -> b ∈ addrs t.
Proof.
  revert b. induction t as [a v r sv|a v r sv t1 IH1 t2 IH2]; intros b; simpl.
  - by case_match.
  - destruct (removeT w t1) as [[] t1'], (removeT w t2) as [[] t2']; simpl in *;
      try done; intros Hin%collapseT_addrs; simpl in Hin; set_solver.
Qed.

Lemma removeT_false w t : fst (removeT w t) = false -> snd (removeT w t) = t.
Proof.
  destruct t as [a v r sv|a v r sv t1 t2]; simpl.
  - by case_match.
  - destruct (removeT w t1) as [[] t1'], (removeT w t2) as [[] t2']; simpl; done.
Qed.

Lemma bind_run {A B} (m : M A) (k : A -> M B) (s s' : state) (a : A) :
  m s = Some (a, s') -> bind m k s = k a s'.
Proof. intros H. unfold bind. by rewrite H. Qed.

Lemma bind_assoc {A B C} (m : M A) (f : A -> M B) (k : B -> M C) (s : state) :
  bind (bind m f) k s = bind m (fun a => bind (f a) k) s.
Proof. unfold bind. by destruct (m s) as [[a s']|]. Qed.

Lemma bsp_remove_window_tree (t : tree) :
  forall (s : state) (par : ptr) (fuel : nat) (w : Z),
    wf (mem s) par t -> (depth t < fuel)%nat ->
    exists s',
      bsp_remove_window fuel (Some (root_addr t)) w s = Some (fst (removeT w t), s') ∧
      oracle s' = oracle s ∧
      op_ok s s' par t (snd (removeT w t)) ∧
      (fst (removeT w t) = false -> s' = s).
Proof.
  induction t as [a v r sv|a v r sv t1 IH1 t2 IH2]; intros s par fuel w Hwf Hfuel;
    (destruct fuel as [|fuel]; [simpl in Hfuel; lia|]); pose proof Hwf as [Hr Hnd].
  - destruct Hr as [Ha _]. simpl in Ha. cbn [bsp_remove_window root_addr removeT]. step.
    destruct (v =? w) eqn:Hv; cbn [fst snd].
    + step. eexists. split; [reflexivity|]. split; [done|]. split; [|intros [=]].
      split; [split|]; cbn [mem].
      * simpl. split; [apply lookup_insert_eq|done].
      * done.
      * split_and!; simpl; try done.
        intros b Hb _. apply lookup_insert_ne. set_solver.
    + exists s. split; [done|]. split; [done|]. split; [|done].
      split; [done|apply transforms_refl].
  - pose proof Hr as (Ha & Hr1 & Hr2). simpl in Ha, Hfuel.
    pose proof Hnd as Hnd'. simpl in Hnd'. apply NoDup_cons in Hnd' as [_ Hnd'].
    apply NoDup_app in Hnd' as (Hnd1 & _ & Hnd2).
    cbn [bsp_remove_window root_addr removeT]. step.
    destruct (IH1 s (Some a) fuel w (conj Hr1 Hnd1) ltac:(lia))
      as (s1 & Hrun1 & Ho1 & [Hwf1 Htr1] & Hsame1).
    rewrite (bind_run _ _ _ _ _ Hrun1).
    destruct (removeT w t1) as [b1 t1'] eqn:E1. cbn [fst snd] in *.
    destruct b1.
    + rewrite bind_ret.
      destruct (rebuild_first _ _ par a v r sv t1 t2 t1' Hwf Hwf1 Htr1) as [Hwf' Htr'].
      destruct (bsp_collapse_tree s1 par _ Hwf') as (s2 & Hrun2 & Ho2 & [Hwf2 Htr2]).
      cbn [root_addr] in Hrun2. rewrite (bind_run _ _ _ _ _ Hrun2). cbn [fst snd].
      exists s2. split; [done|]. split; [congruence|]. split; [|intros [=]].
      split; [done|]. eapply transforms_trans; [exact Hr|exact Htr'|exact Htr2| |].
      * apply collapseT_addrs.
      * intros b Hb. simpl in *. pose proof (removeT_addrs w t1 b) as Hsub.
        rewrite E1 in Hsub. set_solver.
    + specialize (Hsame1 eq_refl). subst s1. cbn iota. rewrite bind_assoc. step.
      destruct (IH2 s (Some a) fuel w (conj Hr2 Hnd2) ltac:(lia))
        as (s2 & Hrun2 & Ho2 & [Hwf2 Htr2] & Hsame2).
      rewrite (bind_run _ _ _ _ _ Hrun2).
      destruct (removeT w t2) as [b2 t2'] eqn:E2. cbn [fst snd] in *.
      destruct b2.
      * destruct (rebuild_second _ _ par a v r sv t1 t2 t2' Hwf Hwf2 Htr2) as [Hwf' Htr'].
        destruct (bsp_collapse_tree s2 par _ Hwf') as (s3 & Hrun3 & Ho3 & [Hwf3 Htr3]).
        cbn [root_addr] in Hrun3. rewrite (bind_run _ _ _ _ _ Hrun3). cbn [fst snd].
        exists s3. split; [done|]. split; [congruence|]. split; [|intros [=]].
        split; [done|]. eapply transforms_trans; [exact Hr|exact Htr'|exact Htr3| |].
        -- apply collapseT_addrs.
        -- intros b Hb. simpl in *. pose proof (removeT_addrs w t2 b) as Hsub.
           rewrite E2 in Hsub. set_solver.
      * specialize (Hsame2 eq_refl). subst s2. cbn [fst snd]. exists s.
        split; [done|]. split; [done|]. split; [|done].
        split; [done|apply transforms_refl].
Qed.

(** ** Nodes reached by a path *)

Fixpoint subtree (t : tree) (path : list bool) {struct path} : option tree :=
  match path with
  | [] => Some t
  | b :: path =>
      match t with
      | Leaf _ _ _ _ => None
      | Node _ _ _ _ t1 t2 => subtree (if b : bool then t2 else t1) path
      end
  end.

(** The [parent] field of the node a path leads to. *)
Fixpoint parent_at (par : ptr) (t : tree) (path : list bool) {struct path} : ptr :=
  match path, t with
  | b :: path, Node a _ _ _ t1 t2 => parent_at (Some a) (if b : bool then t2 else t1) path
  | _, _ => par
  end.

Fixpoint replace_at (t : tree) (path : list bool) (u : tree) {struct path} : tree :=
  match path, t with
  | [], _ => u
  | b :: path, Node a w r sv t1 t2 =>
      if b : bool then Node a w r sv t1 (replace_at t2 path u)
      else Node a w r sv (replace_at t1 path u) t2
  | _ :: _, Leaf _ _ _ _ => t
  end.

Lemma wf_children h par a w r sv t1 t2 :
  wf h par (Node a w r sv t1 t2) -> wf h (Some a) t1 ∧ wf h (Some a) t2.
Proof.
  intros [(_ & H1 & H2) Hnd]. simpl in Hnd. apply NoDup_cons in Hnd as [_ Hnd].
  apply NoDup_app in Hnd as (Hnd1 & _ & Hnd2).
  exact (conj (conj H1 Hnd1) (conj H2 Hnd2)).
Qed.

Lemma node_at_tree (path : list bool) :
  forall (t : tree) (s : state) (par : ptr),
    repr (mem s) par t ->
    node_at (Some (root_addr t)) path s = Some (root_addr <$> subtree t path, s).
Proof.
  induction path as [|b path IH]; intros t s par Hr; [reflexivity|].
  cbn [node_at subtree]. destruct t as [a w r sv|a w r sv t1 t2].
  - destruct Hr as [Ha _]. simpl in Ha. cbn [root_addr]. step.
    by destruct b, path.
  - destruct Hr as (Ha & H1 & H2). simpl in Ha. cbn [root_addr]. step.
    destruct b; eapply IH; eassumption.
Qed.

Lemma subtree_wf (path : list bool) :
  forall (t u : tree) (h : gmap loc BSPNode) (par : ptr),
    wf h par t -> subtree t path = Some u -> wf h (parent_at par t path) u.
Proof.
  induction path as [|b path IH]; intros t u h par Hwf Hsub; simpl in Hsub.
  - by simplify_eq.
  - destruct t as [|a w r sv t1 t2]; [done|].
    apply wf_children in Hwf as [H1 H2]. simpl.
    destruct b; eapply IH; eassumption.
Qed.

Lemma subtree_depth (path : list bool) :
  forall (t u : tree), subtree t path = Some u -> (depth u <= depth t)%nat.
Proof.
  induction path as [|b path IH]; intros t u Hsub; simpl in Hsub.
  - by simplify_eq.
  - destruct t as [|a w r sv t1 t2]; [done|]. apply IH in Hsub. simpl.
    destruct b; lia.
Qed.

Lemma replace_at_ok (path : list bool) :
  forall (t u u' : tree) (h h' : gmap loc BSPNode) (par : ptr),
    wf h par t -> subtree t path = Some u ->
    wf h' (parent_at par t path) u' -> transforms h h' u u' ->
    wf h' par (replace_at t path u') ∧ transforms h h' t (replace_at t path u').
Proof.
  induction path as [|b path IH]; intros t u u' h h' par Hwf Hsub Hwf' Htr;
    simpl in Hsub.
  - by simplify_eq.
  - destruct t as [|a w r sv t1 t2]; [done|].
    pose proof (wf_children _ _ _ _ _ _ _ _ Hwf) as [H1 H2]. simpl in Hwf'.
    destruct b; simpl.
    + destruct (IH _ _ _ _ _ _ H2 Hsub Hwf' Htr) as [Hwf2 Htr2].
      by apply rebuild_second.
    + destruct (IH _ _ _ _ _ _ H1 Hsub Hwf' Htr) as [Hwf1 Htr1].
      by apply rebuild_first.
Qed.

(** ** Operations applied through a path *)

Definition apply_op (f1 f2 : loc) (o : op) (t : tree) : tree :=
  match o with
  | Insert path w =>
      match subtree t path with
      | Some u => replace_at t path (insertT f1 f2 w u)
      | None => t
      end
  | Remove path w =>
      match subtree t path with
      | Some u => replace_at t path (snd (removeT w u))
      | None => t
      end
  | Split path w =>
      match subtree t path with
      | Some u => replace_at t path (splitT f1 f2 w u)
      | None => t
      end
  | Collapse path =>
      match subtree t path with
      | Some u => replace_at t path (collapseT u)
      | None => t
      end
  end.

Lemma bsp_insert_null fuel w s : (0 < fuel)%nat -> bsp_insert fuel None w s = Some (tt, s).
Proof. destruct fuel; [lia|done]. Qed.

Lemma bsp_remove_window_null fuel w s :
  (0 < fuel)%nat -> bsp_remove_window fuel None w s = Some (false, s).
Proof. destruct fuel; [lia|done]. Qed.

Lemma run_op_tree (o : op) (s : state) (t : tree) (fuel : nat) :
  wf (mem s) None t -> never_fails (oracle s) -> (depth t < fuel)%nat ->
  exists f1 f2 s',
    run_op fuel (Some (root_addr t)) o s = Some (tt, s') ∧
    (f1 ∉ dom (mem s)) ∧ (f2 ∉ dom (mem s)) ∧ f1 <> f2 ∧
    op_ok s s' None t (apply_op f1 f2 o t) ∧ never_fails (oracle s').
Proof.
  intros Hwf Ho Hfuel. pose proof Hwf as [Hr _].
  destruct (fresh_pair (mem s)) as (g1 & g2 & Hg1 & Hg2 & Hg).
  assert (Hnone : exists f1 f2 s',
    Some (tt, s) = Some (tt, s') ∧
    (f1 ∉ dom (mem s)) ∧ (f2 ∉ dom (mem s)) ∧ f1 <> f2 ∧
    op_ok s s' None t t ∧ never_fails (oracle s')).
  { exists g1, g2, s. split_and!; [done..|split; [done|apply transforms_refl]|done]. }
  destruct o as [path w|path w|path w|path]; cbn [run_op apply_op];
    rewrite (bind_run _ _ _ _ _ (node_at_tree path t s None Hr));
    destruct (subtree t path) as [u|] eqn:Hsub; cbn [fmap option_fmap option_map].
  - pose proof (subtree_wf _ _ _ _ _ Hwf Hsub) as Hwfu.
    pose proof (subtree_depth _ _ _ Hsub).
    destruct (bsp_insert_tree u s _ fuel w Hwfu Ho ltac:(lia))
      as (f1 & f2 & s' & Hrun & Hf1 & Hf2 & Hne & [Hwf' Htr] & Ho').
    exists f1, f2, s'. split_and!; try done.
    by apply (replace_at_ok path t u).
  - rewrite bsp_insert_null by lia. exact Hnone.
  - pose proof (subtree_wf _ _ _ _ _ Hwf Hsub) as Hwfu.
    pose proof (subtree_depth _ _ _ Hsub).
    destruct (bsp_remove_window_tree u s _ fuel w Hwfu ltac:(lia))
      as (s' & Hrun & Ho' & [Hwf' Htr] & _).
    exists g1, g2, s'. rewrite (bind_run _ _ _ _ _ Hrun). split_and!; try done.
    + by apply (replace_at_ok path t u).
    + by rewrite Ho'.
  - rewrite (bind_run _ _ _ _ _ (bsp_remove_window_null fuel w s ltac:(lia))).
    exact Hnone.
  - pose proof (subtree_wf _ _ _ _ _ Hwf Hsub) as Hwfu.
    destruct (bsp_split_leaf_tree s _ u w Hwfu Ho)
      as (f1 & f2 & s' & Hrun & Hf1 & Hf2 & Hne & [Hwf' Htr] & Ho').
    exists f1, f2, s'. split_and!; try done.
    by apply (replace_at_ok path t u).
  - exact Hnone.
  - pose proof (subtree_wf _ _ _ _ _ Hwf Hsub) as Hwfu.
    destruct (bsp_collapse_tree s _ u Hwfu) as (s' & Hrun & Ho' & [Hwf' Htr]).
    exists g1, g2, s'. split_and!; try done.
    + by apply (replace_at_ok path t u).
    + by rewrite Ho'.
  - exact Hnone.
Qed.

(** ** Sequences of operations *)

(** [steps t ops t']: applying [ops] in order turns [t] into [t'], the
    nodes created on the way getting addresses not in use. *)
Inductive steps : tree -> list op -> tree -> Prop :=
  | steps_nil t : steps t [] t
  | steps_cons t o ops f1 f2 t' :
      f1 ∉ addrs t -> f2 ∉ addrs t -> f1 <> f2 ->
      steps (apply_op f1 f2 o t) ops t' ->
      steps t (o :: ops) t'.

(** The heap holds the tree and nothing else. *)
Definition tight (h : gmap loc BSPNode) (t : tree) : Prop :=
  forall b, b ∉ addrs t -> h !! b = None.

Lemma tight_transforms h h' t t' :
  tight h t -> transforms h h' t t' -> tight h' t'.
Proof.
  intros Ht (_ & Hout & Hfreed & _) b Hb.
  destruct (decide (b ∈ addrs t)); [by apply Hfreed|].
  rewrite Hout by done. by apply Ht.
Qed.

Lemma depth_replace_at (path : list bool) :
  forall (t u u' : tree) (k : nat),
    subtree t path = Some u -> (depth u' <= depth u + k)%nat ->
    (depth (replace_at t path u') <= depth t + k)%nat.
Proof.
  induction path as [|b path IH]; intros t u u' k Hsub Hd; simpl in Hsub.
  - by simplify_eq.
  - destruct t as [|a w r sv t1 t2]; [done|].
    specialize (IH _ _ _ _ Hsub Hd). destruct b; simpl; lia.
Qed.

Lemma depth_insertT f1 f2 w t : (depth (insertT f1 f2 w t) <= depth t + 1)%nat.
Proof.
  induction t as [a v r sv|a v r sv t1 IH1 t2 _]; simpl.
  - case_match; simpl; lia.
  - lia.
Qed.

Lemma depth_splitT f1 f2 w t : (depth (splitT f1 f2 w t) <= depth t + 1)%nat.
Proof. destruct t; simpl; lia. Qed.

Lemma depth_graft a r u : depth (graft a r u) = depth u.
Proof. by destruct u. Qed.

Lemma depth_collapseT t : (depth (collapseT t) <= depth t + 0)%nat.
Proof.
  destruct t as [|a v r sv t1 t2]; unfold collapseT; simpl; [lia|].
  repeat case_match; rewrite ?depth_graft; simpl; lia.
Qed.

Lemma depth_removeT w t : (depth (snd (removeT w t)) <= depth t + 0)%nat.
Proof.
  induction t as [a v r sv|a v r sv t1 IH1 t2 IH2]; simpl.
  - case_match; simpl; lia.
  - destruct (removeT w t1) as [[] t1'], (removeT w t2) as [[] t2']; simpl in *;
      try lia.
    + pose proof (depth_collapseT (Node a v r sv t1' t2)). simpl in *. lia.
    + pose proof (depth_collapseT (Node a v r sv t1' t2)). simpl in *. lia.
    + pose proof (depth_collapseT (Node a v r sv t1 t2')). simpl in *. lia.
Qed.

Lemma depth_apply_op f1 f2 o t : (depth (apply_op f1 f2 o t) <= depth t + 1)%nat.
Proof.
  destruct o as [path w|path w|path w|path]; simpl;
    destruct (subtree t path) as [u|] eqn:Hsub; try lia.
  - eapply depth_replace_at; [done|apply depth_insertT].
  - pose proof (depth_replace_at _ _ _ _ 0 Hsub (depth_removeT w u)). lia.
  - eapply depth_replace_at; [done|apply depth_splitT].
  - pose proof (depth_replace_at _ _ _ _ 0 Hsub (depth_collapseT u)). lia.
Qed.

Lemma run_ops_tree (ops : list op) :
  forall (s : state) (t : tree) (fuel : nat),
    wf (mem s) None t -> tight (mem s) t -> never_fails (oracle s) ->
    (depth t + length ops < fuel)%nat ->
    exists s' t',
      run_ops fuel (Some (root_addr t)) ops s = Some (tt, s') ∧
      wf (mem s') None t' ∧ tight (mem s') t' ∧ never_fails (oracle s') ∧
      root_addr t' = root_addr t ∧ steps t ops t'.
Proof.
  induction ops as [|o ops IH]; intros s t fuel Hwf Htight Ho Hfuel.
  - exists s, t. split_and!; try done. constructor.
  - simpl in Hfuel.
    destruct (run_op_tree o s t fuel Hwf Ho ltac:(lia))
      as (f1 & f2 & s1 & Hrun & Hf1 & Hf2 & Hne & [Hwf1 Htr] & Ho1).
    pose proof (depth_apply_op f1 f2 o t).
    pose proof Htr as (Hroot & _).
    destruct (IH s1 _ fuel Hwf1 (tight_transforms _ _ _ _ Htight Htr) Ho1 ltac:(lia))
      as (s' & t' & Hrun' & Hwf' & Htight' & Ho' & Hroot' & Hsteps).
    exists s', t'. cbn [run_ops]. rewrite (bind_run _ _ _ _ _ Hrun).
    rewrite Hroot in Hrun'. split_and!; try done; [congruence|].
    destruct Hwf as [Hr _].
    econstructor; [| |exact Hne|exact Hsteps]; intros Hin;
      destruct (repr_allocated _ _ _ _ Hr Hin) as [n Hn];
      [apply Hf1|apply Hf2]; apply elem_of_dom; eauto.
Qed.

Lemma bsp_create_root_ok (screen_rect : CGRect) (s : state) :
  allocs_succeed 1 (oracle s) ->
  bsp_create_root screen_rect s =
  Some (Some (fresh (dom (mem s))),
        mkState (<[fresh (dom (mem s)) :=
                     mkNode true NO_WINDOW screen_rect false None None None]> (mem s))
                (tail (oracle s))).
Proof.
  intros Ho. unfold bsp_create_root. rewrite bind_calloc by done.
  repeat step. unfold ret. apply done_eq; [|done]. heap_eq.
Qed.

(** The root [bsp_create_root] makes in an empty heap, and its tree. *)
Definition root0 : loc := fresh (dom (∅ : gmap loc BSPNode)).
Definition tree0 (screen_rect : CGRect) : tree := Leaf root0 NO_WINDOW screen_rect false.

Lemma session_tree (fuel : nat) (screen_rect : CGRect) (ops : list op) (o : list bool) :
  never_fails o -> (length ops < fuel)%nat ->
  exists s' t',
    session fuel screen_rect ops (empty_state o) = Some (Some root0, s') ∧
    wf (mem s') None t' ∧ tight (mem s') t' ∧ never_fails (oracle s') ∧
    root_addr t' = root0 ∧ steps (tree0 screen_rect) ops t'.
Proof.
  intros Ho Hfuel. unfold session.
  rewrite (bind_run _ _ _ _ _ (bsp_create_root_ok screen_rect (empty_state o)
                                 (never_fails_allocs 1 _ Ho))).
  cbn [mem oracle empty_state]. fold root0.
  set (s0 := mkState _ _).
  destruct (run_ops_tree ops s0 (tree0 screen_rect) fuel) as (s' & t' & Hrun & Hrest).
  - split; [|repeat constructor; set_solver]. simpl. split; [|done].
    apply lookup_insert_eq.
  - intros b Hb. simpl in *. rewrite lookup_insert_ne by set_solver. done.
  - simpl. by apply (never_fails_drop 1).
  - simpl. lia.
  - exists s', t'. cbn [root_addr tree0] in Hrun.
    rewrite (bind_run _ _ _ _ _ Hrun). done.
Qed.

(** * Properties of the specification *)

(** ** C5: split orientation *)

(** A heap holding one leaf at address 1, with window 7 and rectangle
    [r]; every allocation succeeds. *)
Definition one_leaf (r : CGRect) : state :=
  mkState {[ 1%positive := mkNode true 7 r false None None None ]} [].

Definition rect_of (x0 y0 w h : float) : CGRect := mkRect (mkPoint x0 y0) (mkSize w h).

(** C5. For every occupied leaf [n] at [a], when the two allocations
    succeed [bsp_split_leaf] turns [a] into an internal node with two new
    leaf children [f1] and [f2]; the split is vertical exactly when the
    leaf's width is strictly greater than its height (so equal sides give a
    horizontal split); a vertical split halves the width and puts the
    second child [width / 2] to the right of the first, a horizontal split
    halves the height and puts the second child [height / 2] below. *)
Theorem split_orientation_rule (s : state) (a : loc) (n : BSPNode) (w : Z) :
  mem s !! a = Some n -> is_leaf n = true -> window_id n <> NO_WINDOW ->
  allocs_succeed 2 (oracle s) ->
  exists (f1 f2 : loc) (s' : state) (np n1 n2 : BSPNode),
    bsp_split_leaf (Some a) w s = Some (tt, s') ∧
    mem s' !! a = Some np ∧ mem s' !! f1 = Some n1 ∧ mem s' !! f2 = Some n2 ∧
    is_leaf np = false ∧ first np = Some f1 ∧ second np = Some f2 ∧
    is_leaf n1 = true ∧ is_leaf n2 = true ∧
    let r := rect n in
    let wd := width (size r) in
    let ht := height (size r) in
    split_vertical np = (ht <? wd)%float ∧
    ((ht <? wd)%float = true ->
       rect n1 = mkRect (origin r) (mkSize (wd / 2)%float ht) ∧
       rect n2 = mkRect (mkPoint (x (origin r) + wd / 2)%float (y (origin r)))
                        (mkSize (wd / 2)%float ht)) ∧
    ((ht <? wd)%float = false ->
       rect n1 = mkRect (origin r) (mkSize wd (ht / 2)%float) ∧
       rect n2 = mkRect (mkPoint (x (origin r)) (y (origin r) + ht / 2)%float)
                        (mkSize wd (ht / 2)%float)).
Proof.
  intros Ha Hleaf _ Ho.
  destruct (bsp_split_leaf_ok s a n w Ha Hleaf Ho) as (f1 & f2 & Hf1 & Hf2 & Hne & Hrun).
  assert (f1 <> a ∧ f2 <> a) as [Hne1 Hne2].
  { split; intros ->; [apply Hf1|apply Hf2]; apply elem_of_dom; eauto. }
  exists f1, f2. eexists. exists (split_parent n f1 f2), (split_first a n), (split_second a n w).
  split; [exact Hrun|]. cbn [mem].
  split; [by lookups congruence|]. split; [by lookups congruence|].
  split; [by lookups congruence|]. split_and!; try reflexivity.
  - intros Hv. unfold split_first, split_second, split_rects, split_orientation.
    cbn [rect]. by rewrite Hv.
  - intros Hv. unfold split_first, split_second, split_rects, split_orientation.
    cbn [rect]. by rewrite Hv.
Qed.

(** The three sizes the specification names: 200x100 splits vertically
    into two 100x100 halves side by side, 100x200 horizontally into two
    100x100 halves stacked, and the square 100x100 horizontally. *)
Lemma split_orientation_examples :
  (exists f1 f2 s' np n1 n2,
     bsp_split_leaf (Some 1%positive) 8 (one_leaf (rect_of 0 0 200 100)) = Some (tt, s') ∧
     mem s' !! 1%positive = Some np ∧ mem s' !! f1 = Some n1 ∧ mem s' !! f2 = Some n2 ∧
     split_vertical np = true ∧
     rect n1 = rect_of 0 0 100 100 ∧ rect n2 = rect_of 100 0 100 100) ∧
  (exists f1 f2 s' np n1 n2,
     bsp_split_leaf (Some 1%positive) 8 (one_leaf (rect_of 0 0 100 200)) = Some (tt, s') ∧
     mem s' !! 1%positive = Some np ∧ mem s' !! f1 = Some n1 ∧ mem s' !! f2 = Some n2 ∧
     split_vertical np = false ∧
     rect n1 = rect_of 0 0 100 100 ∧ rect n2 = rect_of 0 100 100 100) ∧
  (exists f1 f2 s' np n1 n2,
     bsp_split_leaf (Some 1%positive) 8 (one_leaf (rect_of 0 0 100 100)) = Some (tt, s') ∧
     mem s' !! 1%positive = Some np ∧ mem s' !! f1 = Some n1 ∧ mem s' !! f2 = Some n2 ∧
     split_vertical np = false ∧
     rect n1 = rect_of 0 0 100 50 ∧ rect n2 = rect_of 0 50 100 50).
Proof.
  split_and!.
  - destruct (split_orientation_rule (one_leaf (rect_of 0 0 200 100)) 1%positive _ 8
                eq_refl eq_refl ltac:(discriminate) (allocs_succeed_nil 2))
      as (f1 & f2 & s' & np & n1 & n2 & Hrun & Hp & H1 & H2 & _ & _ & _ & _ & _ & Hsv & Hv & _).
    exists f1, f2, s', np, n1, n2. destruct (Hv eq_refl) as [E1 E2].
    split_and!; [exact Hrun|exact Hp|exact H1|exact H2|exact Hsv|exact E1|exact E2].
  - destruct (split_orientation_rule (one_leaf (rect_of 0 0 100 200)) 1%positive _ 8
                eq_refl eq_refl ltac:(discriminate) (allocs_succeed_nil 2))
      as (f1 & f2 & s' & np & n1 & n2 & Hrun & Hp & H1 & H2 & _ & _ & _ & _ & _ & Hsv & _ & Hh).
    exists f1, f2, s', np, n1, n2. destruct (Hh eq_refl) as [E1 E2].
    split_and!; [exact Hrun|exact Hp|exact H1|exact H2|exact Hsv|exact E1|exact E2].
  - destruct (split_orientation_rule (one_leaf (rect_of 0 0 100 100)) 1%positive _ 8
                eq_refl eq_refl ltac:(discriminate) (allocs_succeed_nil 2))
      as (f1 & f2 & s' & np & n1 & n2 & Hrun & Hp & H1 & H2 & _ & _ & _ & _ & _ & Hsv & _ & Hh).
    exists f1, f2, s', np, n1, n2. destruct (Hh eq_refl) as [E1 E2].
    split_and!; [exact Hrun|exact Hp|exact H1|exact H2|exact Hsv|exact E1|exact E2].
Defined.

(** ** C4: allocation failure during a split *)

(** The node [bsp_split_leaf] leaves behind when an allocation fails: the
    leaf flag is cleared and the orientation is set (bsp.c:118-119 run
    before the first [calloc]); nothing else of the leaf changes. *)
Definition half_split (n : BSPNode) : BSPNode :=
  set_split_vertical (split_orientation (rect n)) (set_is_leaf false n).

(** C4 (refuted). When the first or the second allocation of
    [bsp_split_leaf] fails, the call returns with the heap holding exactly
    the nodes it held before (a first child that was allocated is freed),
    but the leaf it was called on is no longer a leaf: its [is_leaf] flag
    is false and its [split_vertical] field is overwritten, so the heap
    differs from the one before the call. *)
Theorem split_alloc_failure (s : state) (a : loc) (n : BSPNode) (w : Z) (o : list bool) :
  mem s !! a = Some n -> is_leaf n = true ->
  oracle s = false :: o ∨ oracle s = true :: false :: o ->
  exists s',
    bsp_split_leaf (Some a) w s = Some (tt, s') ∧
    mem s' = <[a := half_split n]> (mem s) ∧ oracle s' = o ∧
    is_leaf (half_split n) = false ∧ mem s' <> mem s.
Proof.
  intros Ha Hleaf Ho.
  assert (Hdiff : <[a := half_split n]> (mem s) <> mem s).
  { intros E. assert (Some (half_split n) = Some n) as [= E'].
    { by rewrite <- Ha, <- E, lookup_insert_eq. }
    apply (f_equal is_leaf) in E'. simpl in E'. congruence. }
  unfold bsp_split_leaf. step. rewrite Hleaf. cbn [negb]. do 2 step.
  destruct (split_rects (rect n)) as [r1 r2].
  destruct Ho as [Ho|Ho].
  - erewrite bind_calloc_fail by exact Ho. eexists. split; [reflexivity|].
    cbn [mem oracle]. split_and!; try done.
    + unfold half_split. by rewrite insert_insert_eq.
    + unfold half_split in Hdiff. by rewrite insert_insert_eq.
  - rewrite bind_calloc
      by (cbn [oracle]; rewrite Ho; apply allocs_succeed_S; split;
          [done|apply Forall_nil; done]).
    cbn [mem oracle]. rewrite Ho. cbn [tail].
    set (f1 := fresh _).
    assert (Hf1 : mem s !! f1 = None).
    { unfold f1. rewrite insert_insert_eq.
      replace (dom (<[a:=set_split_vertical (split_orientation (rect n)) (set_is_leaf false n)]> (mem s)))
        with (dom (mem s)); [apply fresh_lookup|].
      rewrite dom_insert_L. assert (a ∈ dom (mem s)) by (apply elem_of_dom; eauto).
      set_solver. }
    clearbody f1. assert (Hne : f1 <> a) by congruence.
    do 5 step. erewrite bind_calloc_fail by reflexivity. step.
    eexists. split; [reflexivity|]. cbn [mem oracle].
    assert (Heq : delete f1
      (<[f1:=set_parent (Some a)
               (set_window_id (window_id n) (set_rect r1 (set_is_leaf true zero_node)))]>
         (<[f1:=set_window_id (window_id n) (set_rect r1 (set_is_leaf true zero_node))]>
            (<[f1:=set_rect r1 (set_is_leaf true zero_node)]>
               (<[f1:=set_is_leaf true zero_node]>
                  (<[f1:=zero_node]>
                     (<[a:=set_split_vertical (split_orientation (rect n)) (set_is_leaf false n)]>
                        (<[a:=set_is_leaf false n]> (mem s)))))))) =
      <[a := half_split n]> (mem s)).
    { apply map_eq. intros i. unfold half_split.
      destruct (decide (i = f1)) as [->|Hi].
      - rewrite lookup_delete_eq, lookup_insert_ne by done. by rewrite Hf1.
      - rewrite lookup_delete_ne, !(lookup_insert_ne _ f1) by done.
        by rewrite insert_insert_eq. }
    rewrite Heq. done.
Qed.

Definition occupied_root : gmap loc BSPNode :=
  {[ 1%positive := mkNode true 7 (rect_of 0 0 800 600) false None None None ]}.

(** Both failure points on the 800x600 leaf holding window 7. *)
Lemma split_alloc_failure_example :
  (exists s', bsp_split_leaf (Some 1%positive) 8 (mkState occupied_root [false]) = Some (tt, s') ∧
     mem s' = {[ 1%positive := mkNode false 7 (rect_of 0 0 800 600) true None None None ]}) ∧
  (exists s', bsp_split_leaf (Some 1%positive) 8 (mkState occupied_root [true; false]) = Some (tt, s') ∧
     mem s' = {[ 1%positive := mkNode false 7 (rect_of 0 0 800 600) true None None None ]}).
Proof.
  split.
  - destruct (split_alloc_failure (mkState occupied_root [false]) 1%positive _ 8 []
                eq_refl eq_refl (or_introl eq_refl)) as (s' & Hrun & Hmem & _).
    exists s'. split; [exact Hrun|]. rewrite Hmem. apply map_eq. intros i.
    destruct (decide (i = 1%positive)) as [->|Hi]; [done|].
    cbn [mem]. rewrite lookup_insert_ne by done. unfold occupied_root.
    by rewrite !lookup_singleton_ne.
  - destruct (split_alloc_failure (mkState occupied_root [true; false]) 1%positive _ 8 []
                eq_refl eq_refl (or_intror eq_refl)) as (s' & Hrun & Hmem & _).
    exists s'. split; [exact Hrun|]. rewrite Hmem. apply map_eq. intros i.
    destruct (decide (i = 1%positive)) as [->|Hi]; [done|].
    cbn [mem]. rewrite lookup_insert_ne by done. unfold occupied_root.
    by rewrite !lookup_singleton_ne.
Defined.

(** ** Searches do not write *)

Lemma bind_load_inv {A} (p : ptr) (k : BSPNode -> M A) (s : state) (r : A * state) :
  bind (load p) k s = Some r ->
  exists a n, p = Some a ∧ mem s !! a = Some n ∧ k n s = Some r.
Proof.
  unfold bind, load. destruct p as [a|]; [|done].
  destruct (mem s !! a) as [n|] eqn:E; [|done]. eauto.
Qed.

Lemma bsp_find_leftmost_leaf_pure fuel : forall node s r s',
  bsp_find_leftmost_leaf fuel node s = Some (r, s') -> s' = s.
Proof.
  induction fuel as [|fuel IH]; intros node s r s'; [done|]. simpl.
  destruct node as [a|]; [|by intros [= _ <-]].
  intros (a' & n & _ & _ & H)%bind_load_inv.
  destruct (is_leaf n); [by injection H as _ <-|by eapply IH].
Qed.

Lemma bsp_find_rightmost_leaf_pure fuel : forall node s r s',
  bsp_find_rightmost_leaf fuel node s = Some (r, s') -> s' = s.
Proof.
  induction fuel as [|fuel IH]; intros node s r s'; [done|]. simpl.
  destruct node as [a|]; [|by intros [= _ <-]].
  intros (a' & n & _ & _ & H)%bind_load_inv.
  destruct (is_leaf n); [by injection H as _ <-|by eapply IH].
Qed.

Ltac walk_pure IH leaf_pure :=
  let H := fresh "H" in
  intros (? & ? & _ & _ & H)%bind_load_inv;
  match type of H with
  | context [parent ?c] => destruct (parent c); [|by injection H as _ <-]
  end;
  apply bind_load_inv in H as (? & ? & _ & _ & H);
  match type of H with
  | (if ?b then _ else _) _ = _ => destruct b; [by eapply leaf_pure|by eapply IH]
  end.

Lemma bsp_find_left_neighbor_pure fuel : forall node s r s',
  bsp_find_left_neighbor fuel node s = Some (r, s') -> s' = s.
Proof.
  induction fuel as [|fuel IH]; intros node s r s'; [done|]. simpl.
  walk_pure IH bsp_find_rightmost_leaf_pure.
Qed.

Lemma bsp_find_right_neighbor_pure fuel : forall node s r s',
  bsp_find_right_neighbor fuel node s = Some (r, s') -> s' = s.
Proof.
  induction fuel as [|fuel IH]; intros node s r s'; [done|]. simpl.
  walk_pure IH bsp_find_leftmost_leaf_pure.
Qed.

Lemma bsp_find_up_neighbor_pure fuel : forall node s r s',
  bsp_find_up_neighbor fuel node s = Some (r, s') -> s' = s.
Proof.
  induction fuel as [|fuel IH]; intros node s r s'; [done|]. simpl.
  walk_pure IH bsp_find_rightmost_leaf_pure.
Qed.

Lemma bsp_find_down_neighbor_pure fuel : forall node s r s',
  bsp_find_down_neighbor fuel node s = Some (r, s') -> s' = s.
Proof.
  induction fuel as [|fuel IH]; intros node s r s'; [done|]. simpl.
  walk_pure IH bsp_find_leftmost_leaf_pure.
Qed.

Lemma bsp_find_neighbor_pure fuel node direction s r s' :
  bsp_find_neighbor fuel node direction s = Some (r, s') -> s' = s.
Proof.
  unfold bsp_find_neighbor. destruct node as [a|], direction as [d|];
    try by intros [= _ <-].
  repeat case_match; try by intros [= _ <-].
  - apply bsp_find_left_neighbor_pure.
  - apply bsp_find_right_neighbor_pure.
  - apply bsp_find_up_neighbor_pure.
  - apply bsp_find_down_neighbor_pure.
Qed.

(** ** C8: direction tokens *)

Local Open Scope string_scope.

(** The four direction tokens of the command line ([validate_direction],
    cli.c:82). *)
Definition valid_direction (d : string) : Prop :=
  d = "left" ∨ d = "right" ∨ d = "up" ∨ d = "down".

(** The display used in the examples, and the state a session on it ends
    in (every allocation succeeding). *)
Definition screen : CGRect := rect_of 0 0 800 600.

Definition state_after (ops : list op) : state :=
  match session 16 screen ops (empty_state []) with
  | Some (_, s) => s
  | None => empty_state []
  end.

(** [bsp_find_neighbor] looks at the first character only: whatever the
    rest of the string, it searches in the direction that letter names. *)
Lemma find_neighbor_dispatch (fuel : nat) (a : loc) (rest : string) (s : state) :
  bsp_find_neighbor fuel (Some a) (Some (String "l" rest)) s =
    bsp_find_left_neighbor fuel (Some a) s ∧
  bsp_find_neighbor fuel (Some a) (Some (String "r" rest)) s =
    bsp_find_right_neighbor fuel (Some a) s ∧
  bsp_find_neighbor fuel (Some a) (Some (String "u" rest)) s =
    bsp_find_up_neighbor fuel (Some a) s ∧
  bsp_find_neighbor fuel (Some a) (Some (String "d" rest)) s =
    bsp_find_down_neighbor fuel (Some a) s.
Proof. done. Qed.

(** C8 as stated fails: "lower" is none of the four tokens, yet from the
    second of two tiled windows (the leaf at address 3) the search returns
    the first window's leaf (address 2), exactly as "left" does. *)
Lemma find_neighbor_accepts_other_strings :
  ~ valid_direction "lower" ∧
  bsp_find_neighbor 16 (Some 3%positive) (Some "lower")
                    (state_after [Insert [] 1001; Insert [] 1002]) =
  Some (Some 2%positive, state_after [Insert [] 1001; Insert [] 1002]).
Proof.
  split; [by intros [H|[H|[H|H]]]|]. vm_compute. reflexivity.
Qed.

(** C8 (amended). For every node and every direction string whose first
    character is none of [l], [r], [u], [d] (the empty string included),
    [bsp_find_neighbor] returns no neighbour and leaves the state as it
    was. *)
Theorem find_neighbor_invalid_direction (fuel : nat) (node : ptr) (d : string) (s : state) :
  first_char d <> "l"%char -> first_char d <> "r"%char ->
  first_char d <> "u"%char -> first_char d <> "d"%char ->
  bsp_find_neighbor fuel node (Some d) s = Some (None, s).
Proof.
  intros Hl Hr Hu Hd. unfold bsp_find_neighbor. destruct node as [a|]; [|done].
  apply Ascii.eqb_neq in Hl, Hr, Hu, Hd. by rewrite Hl, Hr, Hu, Hd.
Qed.

Lemma find_neighbor_invalid_direction_example :
  bsp_find_neighbor 16 (Some 3%positive) (Some "north")
                    (state_after [Insert [] 1001; Insert [] 1002]) =
    Some (None, state_after [Insert [] 1001; Insert [] 1002]) ∧
  bsp_find_neighbor 16 (Some 3%positive) (Some "")
                    (state_after [Insert [] 1001; Insert [] 1002]) =
    Some (None, state_after [Insert [] 1001; Insert [] 1002]).
Proof.
  split; apply find_neighbor_invalid_direction; discriminate.
Defined.

Local Close Scope string_scope.

(** The scenario of the specification: on the 800x600 screen, W1 = 1001
    goes into the root; W2 = 1002 splits it vertically into (0,0,400,600)
    and (400,0,400,600); closing W1 makes the root a leaf again, holding W2
    over the whole screen. *)
Example specification_scenario :
  mem (state_after [Insert [] 1001]) =
    {[ 1%positive := mkNode true 1001 screen false None None None ]} ∧
  mem (state_after [Insert [] 1001; Insert [] 1002]) =
    {[ 1%positive := mkNode false NO_WINDOW screen true (Some 2%positive) (Some 3%positive) None;
       2%positive := mkNode true 1001 (rect_of 0 0 400 600) false None None (Some 1%positive);
       3%positive := mkNode true 1002 (rect_of 400 0 400 600) false None None (Some 1%positive) ]} ∧
  mem (state_after [Insert [] 1001; Insert [] 1002; Remove [] 1001]) =
    {[ 1%positive := mkNode true 1002 screen false None None None ]}.
Proof. split_and!; by vm_compute. Qed.

(** ** C9: removing a window that is not there *)

Lemma removeT_absent w t : w ∉ leaf_ids t -> removeT w t = (false, t).
Proof.
  induction t as [a v r sv|a v r sv t1 IH1 t2 IH2]; simpl; intros Hw.
  - destruct (v =? w) eqn:E; [|done]. apply Z.eqb_eq in E. set_solver.
  - rewrite IH1, IH2 by set_solver. done.
Qed.

(** A split whose first leaf is empty: what removing 1001 at the first
    child of the root leaves of two tiled windows. *)
Definition empty_beside_1002 : tree :=
  Node 1%positive NO_WINDOW screen true
       (Leaf 2%positive NO_WINDOW (rect_of 0 0 400 600) false)
       (Leaf 3%positive 1002 (rect_of 400 0 400 600) false).

(** C9 as stated fails for the identifier -1, which no leaf holds as a
    window but which every empty leaf stores as its marker (bsp.c:210
    compares the field, whatever the value).  On a fresh root the call
    returns true; on the split with an empty first leaf it returns true
    and goes on to collapse the root, freeing both children. *)
Lemma remove_empty_marker_returns_true :
  (wf (mem (state_after [])) None (tree0 screen) ∧
   (NO_WINDOW ∉ windows (tree0 screen)) ∧
   bsp_remove_window 16 (Some 1%positive) NO_WINDOW (state_after []) =
     Some (true, state_after [])) ∧
  (wf (mem (state_after [Insert [] 1001; Insert [] 1002; Remove [false] 1001]))
      None empty_beside_1002 ∧
   (NO_WINDOW ∉ windows empty_beside_1002) ∧
   exists s',
     bsp_remove_window 16 (Some 1%positive) NO_WINDOW
       (state_after [Insert [] 1001; Insert [] 1002; Remove [false] 1001]) =
       Some (true, s') ∧
     mem s' = {[ 1%positive := mkNode true 1002 screen false None None None ]} ∧
     mem s' <> mem (state_after [Insert [] 1001; Insert [] 1002; Remove [false] 1001])).
Proof.
  split; split_and!.
  - split; [by vm_compute|]. apply (bool_decide_unpack _). by vm_compute.
  - apply (bool_decide_unpack _). by vm_compute.
  - by vm_compute.
  - split; [by vm_compute|]. apply (bool_decide_unpack _). by vm_compute.
  - apply (bool_decide_unpack _). by vm_compute.
  - eexists. split_and!; [by vm_compute|by vm_compute|].
    intros E. apply (f_equal (fun h => h !! 2%positive)) in E. by vm_compute in E.
Qed.

(** C9 (amended). For every tree held by the heap (rooted anywhere:
    [par] is the root's parent pointer) and every identifier that no leaf
    of the tree stores in its [window_id] field, that is, every identifier
    other than -1 that no leaf holds, and -1 itself only when the tree has
    no empty leaf, [bsp_remove_window] returns false and the whole state,
    hence every slot, rectangle and pointer, is the one from before the
    call. *)
Theorem remove_absent_window (s : state) (par : ptr) (t : tree) (fuel : nat) (w : Z) :
  wf (mem s) par t -> w ∉ leaf_ids t -> (depth t < fuel)%nat ->
  bsp_remove_window fuel (Some (root_addr t)) w s = Some (false, s).
Proof.
  intros Hwf Hw Hfuel.
  destruct (bsp_remove_window_tree t s par fuel w Hwf Hfuel) as (s' & Hrun & _ & _ & Hsame).
  rewrite (removeT_absent _ _ Hw) in Hrun, Hsame. simpl in Hrun, Hsame.
  by rewrite (Hsame eq_refl) in Hrun.
Qed.

(** Two tiled windows: the tree that inserting 1001 and 1002 builds on
    the 800x600 screen. *)
Definition two_windows : tree :=
  Node 1%positive NO_WINDOW screen true
       (Leaf 2%positive 1001 (rect_of 0 0 400 600) false)
       (Leaf 3%positive 1002 (rect_of 400 0 400 600) false).

Lemma two_windows_wf :
  wf (mem (state_after [Insert [] 1001; Insert [] 1002])) None two_windows.
Proof.
  split; [by vm_compute|]. apply (bool_decide_unpack _). by vm_compute.
Defined.

Lemma remove_absent_window_example :
  bsp_remove_window 16 (Some 1%positive) 1003
                    (state_after [Insert [] 1001; Insert [] 1002]) =
  Some (false, state_after [Insert [] 1001; Insert [] 1002]).
Proof.
  apply (remove_absent_window _ None two_windows).
  - exact two_windows_wf.
  - apply (bool_decide_unpack _). by vm_compute.
  - simpl. lia.
Defined.

(** ** C7: what an insertion changes *)

(** The shape of a tree: which nodes exist and how they are linked. *)
Inductive skeleton :=
  | SLeaf (a : loc)
  | SNode (a : loc) (l r : skeleton).

Fixpoint shape (t : tree) : skeleton :=
  match t with
  | Leaf a _ _ _ => SLeaf a
  | Node a _ _ _ t1 t2 => SNode a (shape t1) (shape t2)
  end.

(** The window field of the leaf [bsp_insert] reaches: the one found by
    following [first] links from the root. *)
Fixpoint reached_id (t : tree) : Z :=
  match t with
  | Leaf _ w _ _ => w
  | Node _ _ _ _ t1 _ => reached_id t1
  end.

Lemma windows_app t1 t2 a w r sv :
  windows (Node a w r sv t1 t2) = windows t1 ++ windows t2.
Proof. unfold windows. simpl. apply filter_app. Qed.

Lemma windows_leaf a w r sv :
  windows (Leaf a w r sv) = if decide (w = NO_WINDOW) then [] else [w].
Proof. unfold windows. simpl. rewrite filter_cons. by destruct (decide (w <> NO_WINDOW)); case_decide. Qed.

Lemma insertT_windows f1 f2 w t :
  w <> NO_WINDOW -> windows (insertT f1 f2 w t) ≡ₚ w :: windows t.
Proof.
  intros Hw. induction t as [a v r sv|a v r sv t1 IH1 t2 _].
  - simpl. destruct (v =? NO_WINDOW) eqn:E.
    + apply Z.eqb_eq in E as ->. rewrite !windows_leaf.
      by rewrite decide_False, decide_True.
    + apply Z.eqb_neq in E. unfold split_node. rewrite windows_app, !windows_leaf.
      rewrite !decide_False by done. simpl. apply Permutation_swap.
  - simpl. rewrite !windows_app, IH1. done.
Qed.

Lemma insertT_shape f1 f2 w t :
  shape (insertT f1 f2 w t) = shape t <-> reached_id t = NO_WINDOW.
Proof.
  induction t as [a v r sv|a v r sv t1 IH1 t2 _]; simpl.
  - destruct (v =? NO_WINDOW) eqn:E.
    + apply Z.eqb_eq in E. done.
    + apply Z.eqb_neq in E. done.
  - rewrite <- IH1. split; [by intros [= ->]|by intros ->].
Qed.

(** C7 as stated fails for the identifier -1, the value that marks a leaf
    as empty: inserting it into the fresh root changes nothing at all, so
    no leaf gains it. *)
Lemma insert_empty_marker_gains_nothing :
  bsp_insert 16 (Some 1%positive) (-1) (state_after []) = Some (tt, state_after []).
Proof. vm_compute. reflexivity. Qed.

(** C7 (amended). For every tree held by the heap and every identifier
    other than -1, when allocation succeeds [bsp_insert] yields the tree
    [insertT f1 f2 w t]: its windows are those of before plus one
    occurrence of [w], and its shape is the old one exactly when the leaf
    reached through [first] links was empty. *)
Theorem insert_gains_one_window (s : state) (par : ptr) (t : tree) (fuel : nat) (w : Z) :
  wf (mem s) par t -> never_fails (oracle s) -> (depth t < fuel)%nat ->
  w <> NO_WINDOW ->
  exists (f1 f2 : loc) (s' : state),
    bsp_insert fuel (Some (root_addr t)) w s = Some (tt, s') ∧
    wf (mem s') par (insertT f1 f2 w t) ∧
    windows (insertT f1 f2 w t) ≡ₚ w :: windows t ∧
    (shape (insertT f1 f2 w t) = shape t <-> reached_id t = NO_WINDOW).
Proof.
  intros Hwf Ho Hfuel Hw.
  destruct (bsp_insert_tree t s par fuel w Hwf Ho Hfuel)
    as (f1 & f2 & s' & Hrun & _ & _ & _ & [Hwf' _] & _).
  exists f1, f2, s'. split_and!; [done..| |].
  - by apply insertT_windows.
  - apply insertT_shape.
Qed.

Lemma insert_gains_one_window_example :
  exists (f1 f2 : loc) (s' : state),
    bsp_insert 16 (Some 1%positive) 1003
               (state_after [Insert [] 1001; Insert [] 1002]) = Some (tt, s') ∧
    wf (mem s') None (insertT f1 f2 1003 two_windows) ∧
    windows (insertT f1 f2 1003 two_windows) ≡ₚ [1003; 1001; 1002] ∧
    (shape (insertT f1 f2 1003 two_windows) = shape two_windows <->
     reached_id two_windows = NO_WINDOW).
Proof.
  apply (insert_gains_one_window _ None two_windows 16 1003).
  - exact two_windows_wf.
  - constructor.
  - simpl. lia.
  - discriminate.
Defined.

(** ** C2: inserting and then removing everything *)

(** A tree in which every leaf is occupied (and has the [split_vertical]
    field [calloc] gave it). *)
Fixpoint packed (t : tree) : Prop :=
  match t with
  | Leaf _ w _ sv => w <> NO_WINDOW ∧ sv = false
  | Node _ _ _ _ t1 t2 => packed t1 ∧ packed t2
  end.

Lemma packed_not_empty t : packed t -> empty_leaf t = false.
Proof. destruct t; simpl; [|done]. intros [H _]. by apply Z.eqb_neq. Qed.

Lemma packed_windows t : packed t -> windows t = leaf_ids t.
Proof.
  induction t as [a v r sv|a v r sv t1 IH1 t2 IH2]; simpl.
  - intros [H _]. rewrite windows_leaf. by rewrite decide_False.
  - intros [H1 H2]. by rewrite windows_app, IH1, IH2.
Qed.

Lemma packed_has_window t : packed t -> windows t <> [].
Proof.
  intros H. rewrite packed_windows by done. clear H.
  induction t as [|a v r sv t1 IH1 t2 _]; simpl; [done|].
  by destruct (leaf_ids t1).
Qed.

Lemma packed_graft a r u : packed u -> packed (graft a r u).
Proof. by destruct u. Qed.

Lemma windows_graft a r u : windows (graft a r u) = windows u.
Proof. by destruct u. Qed.

Lemma insertT_packed f1 f2 w t :
  w <> NO_WINDOW -> packed t -> packed (insertT f1 f2 w t).
Proof.
  intros Hw. induction t as [a v r sv|a v r sv t1 IH1 t2 _]; simpl.
  - intros [Hv ->]. pose proof Hv as E. apply Z.eqb_neq in E as ->. simpl. done.
  - intros [H1 H2]. auto.
Qed.

Lemma insertT_rect f1 f2 w t : root_rect (insertT f1 f2 w t) = root_rect t.
Proof. destruct t; simpl; [case_match|]; done. Qed.

(** An empty leaf, or a tree without empty leaves: the trees that
    insertions and removals at the root produce. *)
Definition settled (t : tree) : Prop :=
  (exists a r, t = Leaf a NO_WINDOW r false) ∨ packed t.

Lemma collapseT_root t : root_addr (collapseT t) = root_addr t.
Proof.
  destruct t as [|a v r sv t1 t2]; [done|]. unfold collapseT.
  repeat case_match; try done; apply graft_root.
Qed.

Lemma graft_rect a r u : root_rect (graft a r u) = r.
Proof. by destruct u. Qed.

Lemma collapseT_rect t : root_rect (collapseT t) = root_rect t.
Proof.
  destruct t as [|a v r sv t1 t2]; [done|]. unfold collapseT.
  repeat case_match; try done; apply graft_rect.
Qed.

Lemma removeT_root w t : root_addr (snd (removeT w t)) = root_addr t.
Proof.
  destruct t as [a v r sv|a v r sv t1 t2]; simpl.
  - by case_match.
  - destruct (removeT w t1) as [[] t1'], (removeT w t2) as [[] t2']; simpl;
      try done; apply collapseT_root.
Qed.

Lemma removeT_rect w t : root_rect (snd (removeT w t)) = root_rect t.
Proof.
  destruct t as [a v r sv|a v r sv t1 t2]; simpl.
  - by case_match.
  - destruct (removeT w t1) as [[] t1'], (removeT w t2) as [[] t2']; simpl;
      try done; apply collapseT_rect.
Qed.

Lemma removeT_present w t :
  packed t -> w ∈ leaf_ids t ->
  fst (removeT w t) = true ∧
  windows t ≡ₚ w :: windows (snd (removeT w t)) ∧
  match t with
  | Leaf a _ r _ => snd (removeT w t) = Leaf a NO_WINDOW r false
  | Node _ _ _ _ _ _ => packed (snd (removeT w t))
  end.
Proof.
  induction t as [a v r sv|a v r sv t1 IH1 t2 IH2]; simpl.
  - intros [Hv ->] Hw. apply list_elem_of_singleton in Hw as ->.
    rewrite Z.eqb_refl. simpl. rewrite !windows_leaf.
    by rewrite decide_False, decide_True.
  - intros [Hp1 Hp2] Hw. destruct (decide (w ∈ leaf_ids t1)) as [Hin|Hnin].
    + destruct (IH1 Hp1 Hin) as (Hb & Hperm & Hshape).
      destruct (removeT w t1) as [b1 t1']. simpl in Hb, Hperm, Hshape. subst b1.
      simpl. rewrite windows_app, Hperm. unfold collapseT.
      destruct t1 as [a1 v1 r1 sv1|]; subst.
      * simpl. rewrite (packed_not_empty _ Hp2). simpl.
        rewrite windows_graft. split_and!; [done|done|by apply packed_graft].
      * rewrite (packed_not_empty _ Hshape), (packed_not_empty _ Hp2). simpl.
        by rewrite windows_app.
    + rewrite (removeT_absent _ _ Hnin).
      assert (Hin : w ∈ leaf_ids t2) by set_solver.
      destruct (IH2 Hp2 Hin) as (Hb & Hperm & Hshape).
      destruct (removeT w t2) as [b2 t2']. simpl in Hb, Hperm, Hshape. subst b2.
      simpl. rewrite windows_app, Hperm. unfold collapseT.
      destruct t2 as [a2 v2 r2 sv2|]; subst.
      * simpl. rewrite (packed_not_empty _ Hp1). simpl.
        rewrite windows_graft. split_and!; [done| |by apply packed_graft].
        rewrite windows_leaf, decide_True by done.
        by rewrite <- Permutation_middle, app_nil_r.
      * rewrite (packed_not_empty _ Hshape), (packed_not_empty _ Hp1). simpl.
        rewrite windows_app.
        split_and!; [done| |done..]. by rewrite Permutation_middle.
Qed.

Lemma steps_cons_inv t o ops t' :
  steps t (o :: ops) t' -> exists f1 f2, steps (apply_op f1 f2 o t) ops t'.
Proof. inversion 1; eauto. Qed.

Lemma settled_insertT f1 f2 w t :
  w <> NO_WINDOW -> settled t -> settled (insertT f1 f2 w t).
Proof.
  intros Hw [(a & r & ->)|Hp]; right.
  - simpl. done.
  - by apply insertT_packed.
Qed.

Lemma steps_inserts (ws : list Z) :
  forall (t t' : tree) (ops : list op),
    steps t (map (Insert []) ws ++ ops) t' -> NO_WINDOW ∉ ws -> settled t ->
    exists t1,
      steps t1 ops t' ∧ settled t1 ∧ windows t1 ≡ₚ ws ++ windows t ∧
      root_addr t1 = root_addr t ∧ root_rect t1 = root_rect t.
Proof.
  induction ws as [|w ws IH]; intros t t' ops Hsteps Hws Hset; simpl in Hsteps.
  - exists t. by split_and!.
  - apply steps_cons_inv in Hsteps as (f1 & f2 & Hsteps). simpl in Hsteps.
    assert (w <> NO_WINDOW ∧ NO_WINDOW ∉ ws) as [Hw Hws'] by set_solver.
    destruct (IH _ _ _ Hsteps Hws' (settled_insertT f1 f2 w t Hw Hset))
      as (t1 & Hsteps1 & Hset1 & Hperm & Hroot & Hrect).
    exists t1. split_and!; try done.
    + rewrite Hperm, (insertT_windows _ _ _ _ Hw). simpl.
      by rewrite Permutation_middle.
    + by rewrite Hroot, insertT_root.
    + by rewrite Hrect, insertT_rect.
Qed.

Lemma steps_removes (rs : list Z) :
  forall (t t' : tree),
    steps t (map (Remove []) rs) t' -> settled t -> windows t ≡ₚ rs ->
    t' = Leaf (root_addr t) NO_WINDOW (root_rect t) false.
Proof.
  induction rs as [|w rs IH]; intros t t' Hsteps Hset Hperm; simpl in Hsteps.
  - inversion Hsteps; subst. apply Permutation_nil_r in Hperm.
    destruct Hset as [(a & r & ->)|Hp]; [done|]. by apply packed_has_window in Hp.
  - apply steps_cons_inv in Hsteps as (f1 & f2 & Hsteps). simpl in Hsteps.
    assert (Hw : w ∈ windows t) by (rewrite Hperm; set_solver).
    destruct Hset as [(a & r & ->)|Hp].
    { rewrite windows_leaf, decide_True in Hw by done. set_solver. }
    rewrite packed_windows in Hw by done.
    destruct (removeT_present w t Hp Hw) as (_ & Hperm' & Hshape).
    rewrite Hperm in Hperm'. apply Permutation_cons_inv in Hperm'.
    rewrite (IH _ _ Hsteps); [by rewrite removeT_root, removeT_rect| |done].
    destruct t; [left; eauto|by right].
Qed.

(** C2. Create a root for any rectangle, insert the identifiers [ws]
    (none of them -1; they need not even be distinct), then remove them in
    any order [rs]: with every allocation succeeding the session ends with
    the heap holding the root alone, an empty leaf with the rectangle it
    was created with. *)
Theorem insert_all_remove_all (screen_rect : CGRect) (ws rs : list Z)
    (o : list bool) (fuel : nat) :
  NO_WINDOW ∉ ws -> rs ≡ₚ ws -> never_fails o ->
  (length ws + length rs < fuel)%nat ->
  exists s',
    session fuel screen_rect (map (Insert []) ws ++ map (Remove []) rs) (empty_state o) =
      Some (Some root0, s') ∧
    mem s' = {[ root0 := mkNode true NO_WINDOW screen_rect false None None None ]}.
Proof.
  intros Hws Hperm Ho Hfuel.
  destruct (session_tree fuel screen_rect (map (Insert []) ws ++ map (Remove []) rs) o Ho)
    as (s' & t' & Hrun & [Hr _] & Htight & _ & _ & Hsteps).
  { rewrite length_app, !length_map. lia. }
  exists s'. split; [done|].
  destruct (steps_inserts ws _ _ _ Hsteps Hws) as (t1 & Hsteps1 & Hset1 & Hp1 & Hroot & Hrect).
  { left. unfold tree0. eauto. }
  apply steps_removes in Hsteps1; [|done|].
  - subst t'. rewrite Hroot, Hrect in *. simpl in *.
    apply map_eq. intros b. destruct (decide (b = root0)) as [->|Hb].
    + rewrite lookup_singleton_eq. by destruct Hr.
    + rewrite lookup_singleton_ne by done. apply Htight. set_solver.
  - rewrite Hp1. unfold tree0. rewrite windows_leaf, decide_True, app_nil_r by done.
    by symmetry.
Qed.

Lemma insert_all_remove_all_example :
  exists s',
    session 16 screen
      (map (Insert []) [1001; 1002; 1003] ++ map (Remove []) [1002; 1003; 1001])
      (empty_state []) = Some (Some root0, s') ∧
    mem s' = {[ root0 := mkNode true NO_WINDOW screen false None None None ]}.
Proof.
  apply (insert_all_remove_all screen [1001; 1002; 1003] [1002; 1003; 1001] [] 16).
  - apply (bool_decide_unpack _). by vm_compute.
  - apply (bool_decide_unpack _). by vm_compute.
  - constructor.
  - simpl. lia.
Defined.

(** ** C6: a window sits in at most one leaf *)

(** The first leaf, in traversal order, that stores [w]. *)
Fixpoint findT (w : Z) (t : tree) : ptr :=
  match t with
  | Leaf a v _ _ => if v =? w then Some a else None
  | Node _ _ _ _ t1 t2 =>
      match findT w t1 with
      | Some a => Some a
      | None => findT w t2
      end
  end.

Lemma bsp_find_node_for_window_tree (t : tree) :
  forall (s : state) (par : ptr) (fuel : nat) (w : Z),
    repr (mem s) par t -> (depth t < fuel)%nat ->
    bsp_find_node_for_window fuel (Some (root_addr t)) w s = Some (findT w t, s).
Proof.
  induction t as [a v r sv|a v r sv t1 IH1 t2 IH2]; intros s par fuel w Hr Hfuel;
    (destruct fuel as [|fuel]; [simpl in Hfuel; lia|]).
  - destruct Hr as [Ha _]. simpl in Ha. cbn [bsp_find_node_for_window root_addr findT].
    step. by destruct (v =? w).
  - destruct Hr as (Ha & H1 & H2). simpl in Ha, Hfuel.
    cbn [bsp_find_node_for_window root_addr findT]. step.
    rewrite (bind_run _ _ _ _ _ (IH1 s _ fuel w H1 ltac:(lia))).
    destruct (findT w t1); [done|]. apply (IH2 s _ fuel w H2). lia.
Qed.

Lemma findT_None w t : findT w t = None <-> w ∉ leaf_ids t.
Proof.
  induction t as [a v r sv|a v r sv t1 IH1 t2 IH2]; simpl.
  - destruct (v =? w) eqn:E; [apply Z.eqb_eq in E|apply Z.eqb_neq in E]; set_solver.
  - destruct (findT w t1) eqn:E1.
    + split; [done|]. intros H. assert (w ∉ leaf_ids t1) as H1%IH1 by set_solver. done.
    + rewrite IH2. destruct IH1 as [IH1 _]. specialize (IH1 eq_refl). set_solver.
Qed.

Lemma in_windows w t : w ∈ windows t <-> w <> NO_WINDOW ∧ w ∈ leaf_ids t.
Proof. unfold windows. rewrite list_elem_of_filter. done. Qed.

Lemma collapseT_windows t : windows (collapseT t) = windows t.
Proof.
  destruct t as [|a v r sv t1 t2]; [done|]. unfold collapseT.
  destruct (empty_leaf t1 && negb (empty_leaf t2)) eqn:E1;
    [|destruct (empty_leaf t2 && negb (empty_leaf t1)) eqn:E2]; [| |done].
  - apply andb_prop in E1 as [(b & rb & svb & ->)%empty_leaf_inv _].
    rewrite windows_graft, windows_app, windows_leaf. by rewrite decide_True.
  - apply andb_prop in E2 as [(b & rb & svb & ->)%empty_leaf_inv _].
    rewrite windows_graft, windows_app, windows_leaf.
    by rewrite decide_True, app_nil_r.
Qed.

(** Removing [w] takes one occurrence of [w] out of the windows, if
    there is one, and changes nothing else. *)
Lemma removeT_windows w t :
  windows t ≡ₚ (if decide (w ∈ windows t) then [w] else []) ++ windows (snd (removeT w t)).
Proof.
  induction t as [a v r sv|a v r sv t1 IH1 t2 IH2].
  - simpl. destruct (v =? w) eqn:E; [apply Z.eqb_eq in E as ->|apply Z.eqb_neq in E]; simpl.
    + rewrite !windows_leaf. destruct (decide (w = NO_WINDOW)) as [->|Hw].
      * rewrite decide_False by set_solver. done.
      * rewrite decide_True, decide_True by set_solver. done.
    + rewrite decide_False; [done|]. rewrite in_windows. simpl. set_solver.
  - simpl. destruct (removeT w t1) as [b1 t1'] eqn:E1. simpl in IH1.
    destruct b1; simpl.
    + rewrite collapseT_windows, !windows_app.
      destruct (decide (w ∈ windows t1)) as [Hin|Hnin].
      * rewrite decide_True by set_solver. rewrite IH1 at 1. done.
      * assert (Hw : w = NO_WINDOW).
        { destruct (decide (w ∈ leaf_ids t1)) as [Hl|Hl].
          - rewrite in_windows in Hnin. destruct (decide (w = NO_WINDOW)); [done|tauto].
          - by rewrite (removeT_absent _ _ Hl) in E1. }
        rewrite decide_False; [by rewrite IH1 at 1|].
        rewrite elem_of_app, !in_windows. tauto.
    + pose proof (removeT_false w t1) as Hsame. rewrite E1 in Hsame.
      specialize (Hsame eq_refl). simpl in Hsame. subst t1'.
      assert (Hnin : w ∉ windows t1).
      { intros Hin. rewrite decide_True in IH1 by done.
        apply Permutation_length in IH1. simpl in IH1. lia. }
      destruct (removeT w t2) as [b2 t2'] eqn:E2. simpl in IH2.
      destruct b2; simpl.
      * rewrite collapseT_windows, !windows_app.
        destruct (decide (w ∈ windows t2)) as [Hin|Hnin2].
        -- rewrite decide_True by set_solver. rewrite IH2 at 1. simpl.
           by rewrite Permutation_middle.
        -- rewrite decide_False by set_solver. simpl in IH2. by rewrite IH2 at 1.
      * pose proof (removeT_false w t2) as Hsame. rewrite E2 in Hsame.
        specialize (Hsame eq_refl). simpl in Hsame. subst t2'.
        assert (Hnin2 : w ∉ windows t2).
        { intros Hin. rewrite decide_True in IH2 by done.
          apply Permutation_length in IH2. simpl in IH2. lia. }
        rewrite windows_app, decide_False by set_solver. done.
Qed.

(** A heap holds at most one tree at a given root. *)
Lemma repr_unique h (t : tree) :
  forall par t', repr h par t -> repr h par t' -> root_addr t = root_addr t' -> t = t'.
Proof.
  induction t as [a v r sv|a v r sv t1 IH1 t2 IH2]; intros par t' Hr Hr' Hroot;
    pose proof (repr_root _ _ _ Hr) as Hc; pose proof (repr_root _ _ _ Hr') as Hc';
    rewrite <- Hroot, Hc in Hc'; destruct t' as [a' v' r' sv'|a' v' r' sv' t1' t2'];
    simpl in *; simplify_eq; [done|].
  destruct Hr as (_ & Hr1 & Hr2), Hr' as (_ & Hr1' & Hr2').
  f_equal; [eapply IH1|eapply IH2]; eauto.
Qed.

Lemma windows_replace_at (path : list bool) :
  forall (t u u' : tree),
    subtree t path = Some u ->
    exists pre post,
      windows t = pre ++ windows u ++ post ∧
      windows (replace_at t path u') = pre ++ windows u' ++ post.
Proof.
  induction path as [|b path IH]; intros t u u' Hsub; simpl in Hsub.
  - simplify_eq. exists [], []. by rewrite !app_nil_r.
  - destruct t as [|a w r sv t1 t2]; [done|].
    destruct (IH _ _ u' Hsub) as (pre & post & H1 & H2). destruct b; simpl.
    + exists (windows t1 ++ pre), post. rewrite !windows_app, H1, H2.
      by rewrite <- !app_assoc.
    + exists pre, (post ++ windows t2). rewrite !windows_app, H1, H2.
      by rewrite <- !app_assoc.
Qed.

Lemma splitT_windows f1 f2 w t :
  w <> NO_WINDOW ->
  windows (splitT f1 f2 w t) ≡ₚ w :: windows t ∨ windows (splitT f1 f2 w t) = windows t.
Proof.
  intros Hw. destruct t as [a v r sv|]; [left|by right]. simpl. unfold split_node.
  rewrite windows_app, !windows_leaf. rewrite (decide_False (P := w = NO_WINDOW)) by done.
  by rewrite <- Permutation_cons_append.
Qed.

(** The identifier an operation brings in must be a real one and new. *)
Definition brings_new_id (o : op) (t : tree) : Prop :=
  match o with
  | Insert _ w | Split _ w => w <> NO_WINDOW ∧ w ∉ windows t
  | Remove _ _ | Collapse _ => True
  end.

Lemma apply_op_unique f1 f2 o t :
  NoDup (windows t) -> brings_new_id o t -> NoDup (windows (apply_op f1 f2 o t)).
Proof.
  intros Hnd Hnew.
  destruct o as [path w|path w|path w|path]; simpl in *;
    destruct (subtree t path) as [u|] eqn:Hsub; try done.
  - destruct Hnew as [Hw Hnin].
    destruct (windows_replace_at path t u (insertT f1 f2 w u) Hsub) as (pre & post & H1 & H2).
    rewrite H2, (insertT_windows _ _ _ _ Hw).
    rewrite <- app_comm_cons, <- Permutation_middle. apply NoDup_cons. by rewrite <- H1.
  - destruct (windows_replace_at path t u (snd (removeT w u)) Hsub) as (pre & post & H1 & H2).
    rewrite H2. rewrite H1, (removeT_windows w u) in Hnd.
    destruct (decide (w ∈ windows u)); [|done].
    simpl in Hnd. rewrite <- Permutation_middle in Hnd. by apply NoDup_cons in Hnd as [_ ?].
  - destruct Hnew as [Hw Hnin].
    destruct (windows_replace_at path t u (splitT f1 f2 w u) Hsub) as (pre & post & H1 & H2).
    rewrite H2. destruct (splitT_windows f1 f2 w u Hw) as [Hp| ->]; [|by rewrite <- H1].
    rewrite Hp, <- app_comm_cons, <- Permutation_middle. apply NoDup_cons. by rewrite <- H1.
  - destruct (windows_replace_at path t u (collapseT u) Hsub) as (pre & post & H1 & H2).
    by rewrite H2, collapseT_windows, <- H1.
Qed.

Lemma removeT_gone w t : NoDup (windows t) -> w ∉ windows (snd (removeT w t)).
Proof.
  intros Hnd. pose proof (removeT_windows w t) as Hp. rewrite Hp in Hnd.
  destruct (decide (w ∈ windows t)) as [Hin|Hnin].
  - simpl in Hnd. by apply NoDup_cons in Hnd as [? _].
  - simpl in Hp. by rewrite <- Hp.
Qed.

(** The caller's discipline, in the code's own terms: an identifier is
    handed to [bsp_insert] or [bsp_split_leaf] only if it is not -1 and
    [bsp_find_node_for_window] finds no leaf with it (the window manager's
    identifiers come from a counter, window_control.c:358). *)
Definition new_ids_only (fuel : nat) (root : ptr) (o : op) (s : state) : Prop :=
  match o with
  | Insert _ w | Split _ w =>
      w <> NO_WINDOW ∧ bsp_find_node_for_window fuel root w s = Some (None, s)
  | Remove _ _ | Collapse _ => True
  end.

(** A run of operations that obeys the discipline. *)
Inductive trace (fuel : nat) (root : ptr) : state -> list op -> state -> Prop :=
  | trace_nil s : trace fuel root s [] s
  | trace_cons s o s1 ops s' :
      new_ids_only fuel root o s ->
      run_op fuel root o s = Some (tt, s1) ->
      trace fuel root s1 ops s' ->
      trace fuel root s (o :: ops) s'.

Lemma trace_unique (fuel : nat) (root : ptr) (s : state) (ops : list op) (s' : state) :
  trace fuel root s ops s' ->
  forall t, wf (mem s) None t -> root = Some (root_addr t) ->
            never_fails (oracle s) -> (depth t + length ops < fuel)%nat ->
            NoDup (windows t) ->
  exists t', wf (mem s') None t' ∧ root_addr t' = root_addr t ∧ NoDup (windows t') ∧
             (forall ops0 w, ops = ops0 ++ [Remove [] w] -> w ∉ windows t').
Proof.
  induction 1 as [s|s o s1 ops s' Hnew Hrun Htrace IH]; intros t Hwf -> Ho Hfuel Hnd.
  - exists t. split_and!; try done. intros [|? ?] w; done.
  - simpl in Hfuel.
    destruct (run_op_tree o s t fuel Hwf Ho ltac:(lia))
      as (f1 & f2 & s1' & Hrun' & _ & _ & _ & [Hwf1 (Hroot1 & _)] & Ho1).
    rewrite Hrun in Hrun'. injection Hrun' as <-.
    assert (Hnew' : brings_new_id o t).
    { destruct o as [path w|path w|path w|path]; simpl in *; try done;
        destruct Hnew as [Hw Hfind]; (split; [done|]);
        rewrite (bsp_find_node_for_window_tree t s None fuel w) in Hfind
          by (try apply Hwf; lia);
        injection Hfind as Hfind; apply findT_None in Hfind;
        rewrite in_windows; tauto. }
    pose proof (apply_op_unique f1 f2 o t Hnd Hnew') as Hnd1.
    pose proof (depth_apply_op f1 f2 o t).
    destruct (IH _ Hwf1 ltac:(by rewrite Hroot1) Ho1 ltac:(lia) Hnd1)
      as (t' & Hwf' & Hroot' & Hnd' & Hlast).
    exists t'. split_and!; [done|congruence|done|].
    intros ops0 w Heq. destruct ops0 as [|o0 ops0]; simpl in Heq.
    + injection Heq as -> ->. inversion Htrace; subst.
      assert (t' = apply_op f1 f2 (Remove [] w) t) as ->.
      { symmetry. eapply repr_unique; [apply Hwf1|apply Hwf'|congruence]. }
      simpl. by apply removeT_gone.
    + injection Heq as -> ->. by eapply Hlast.
Qed.

(** Inserting 7 twice on the 800x600 screen. *)
Definition seven_twice : tree :=
  Node 1%positive NO_WINDOW screen true
       (Leaf 2%positive 7 (rect_of 0 0 400 600) false)
       (Leaf 3%positive 7 (rect_of 400 0 400 600) false).

(** C6 as stated fails: nothing stops an identifier from being inserted
    twice.  After [bsp_insert(root, 7)] twice two leaves hold 7, and after
    one [bsp_remove_window(root, 7)] the root leaf still holds it. *)
Lemma insert_twice_duplicates :
  wf (mem (state_after [Insert [] 7; Insert [] 7])) None seven_twice ∧
  ~ NoDup (windows seven_twice) ∧
  wf (mem (state_after [Insert [] 7; Insert [] 7; Remove [] 7])) None
     (Leaf 1%positive 7 screen false) ∧
  7 ∈ windows (Leaf 1%positive 7 screen false).
Proof.
  split_and!.
  - split; [by vm_compute|]. apply (bool_decide_unpack _). by vm_compute.
  - apply (bool_decide_unpack _). by vm_compute.
  - split; [by vm_compute|]. apply (bool_decide_unpack _). by vm_compute.
  - apply (bool_decide_unpack _). by vm_compute.
Qed.

(** C6 (amended). Take a root made by [bsp_create_root] and any run of
    [bsp_insert], [bsp_remove_window], [bsp_split_leaf] and
    [bsp_collapse_empty_branches] calls on nodes reached from it, with every
    allocation succeeding, in which each identifier given to [bsp_insert] or
    [bsp_split_leaf] is not -1 and, at that moment, is not found by
    [bsp_find_node_for_window].  Then the heap holds a tree in which no
    identifier sits in two leaves; and if the last call was
    [bsp_remove_window] on the root, its identifier is in no leaf. *)
Theorem windows_stay_unique (fuel : nat) (screen_rect : CGRect) (o : list bool)
    (ops : list op) (root : ptr) (s0 s' : state) :
  never_fails o -> (length ops < fuel)%nat ->
  bsp_create_root screen_rect (empty_state o) = Some (root, s0) ->
  trace fuel root s0 ops s' ->
  exists t, wf (mem s') None t ∧ root = Some (root_addr t) ∧ NoDup (windows t) ∧
            (forall ops0 w, ops = ops0 ++ [Remove [] w] -> w ∉ windows t).
Proof.
  intros Ho Hfuel Hroot Htrace.
  rewrite (bsp_create_root_ok screen_rect (empty_state o) (never_fails_allocs 1 _ Ho)) in Hroot.
  injection Hroot as <- <-. cbn [mem oracle empty_state] in *. fold root0 in Htrace |- *.
  destruct (trace_unique _ _ _ _ _ Htrace (tree0 screen_rect)) as (t' & Hwf & Hr & Hnd & Hlast).
  - split; [|repeat constructor; set_solver]. simpl. split; [|done]. apply lookup_insert_eq.
  - done.
  - simpl. by apply (never_fails_drop 1).
  - simpl. lia.
  - unfold tree0. rewrite windows_leaf, decide_True by done. constructor.
  - exists t'. split_and!; try done. by rewrite Hr.
Qed.

Lemma windows_stay_unique_example :
  exists t,
    wf (mem (state_after [Insert [] 1001; Insert [] 1002; Remove [] 1001])) None t ∧
    Some 1%positive = Some (root_addr t) ∧ NoDup (windows t) ∧
    (forall ops0 w, [Insert [] 1001; Insert [] 1002; Remove [] 1001] = ops0 ++ [Remove [] w] ->
                    w ∉ windows t).
Proof.
  apply (windows_stay_unique 16 screen [] [Insert [] 1001; Insert [] 1002; Remove [] 1001]
           (Some 1%positive) (state_after [])).
  - constructor.
  - simpl. lia.
  - by vm_compute.
  - eapply trace_cons; [split; [discriminate|by vm_compute]|by vm_compute|].
    eapply trace_cons; [split; [discriminate|by vm_compute]|by vm_compute|].
    eapply trace_cons; [exact I|by vm_compute|].
    replace (state_after [Insert [] 1001; Insert [] 1002; Remove [] 1001])
      with (mkState {[ 1%positive := mkNode true 1002 screen false None None None ]} [])
      by (by vm_compute).
    apply trace_nil.
Defined.

(** ** C10: the root's rectangle *)

(** Partial-correctness triples for the state-and-fault monad. *)
Definition hoare {A} (P : state -> Prop) (m : M A) (Q : A -> state -> Prop) : Prop :=
  forall s a s', P s -> m s = Some (a, s') -> Q a s'.

Lemma hoare_ret {A} (P : state -> Prop) (a : A) (Q : A -> state -> Prop) :
  (forall s, P s -> Q a s) -> hoare P (ret a) Q.
Proof. intros H s a' s' HP [= <- <-]. auto. Qed.

Lemma hoare_bind {A B} (P : state -> Prop) (m : M A) (Q : A -> state -> Prop)
    (k : A -> M B) (R : B -> state -> Prop) :
  hoare P m Q -> (forall a, hoare (Q a) (k a) R) -> hoare P (bind m k) R.
Proof.
  intros Hm Hk s b s' HP Hrun. unfold bind in Hrun.
  destruct (m s) as [[a s1]|] eqn:E; [|done]. eapply Hk; [|exact Hrun]. eapply Hm; eauto.
Qed.

Lemma hoare_pure {A} (phi : Prop) (P : state -> Prop) (m : M A) (Q : A -> state -> Prop) :
  (phi -> hoare P m Q) -> hoare (fun s => P s ∧ phi) m Q.
Proof. intros H s a s' [HP Hphi]. by apply H. Qed.

Lemma hoare_fault {A} (P : state -> Prop) (Q : A -> state -> Prop) : hoare P fault Q.
Proof. by intros s a s' _. Qed.

Section RootRect.
Variable root : loc.
Variable r0 : CGRect.

(** No link of the node leads to the root. *)
Definition links_ok (n : BSPNode) : Prop :=
  first n <> Some root ∧ second n <> Some root.

(** The root is allocated with rectangle [r0], and no node has it as a
    child. *)
Definition root_kept (s : state) : Prop :=
  (exists n, mem s !! root = Some n ∧ rect n = r0) ∧
  (forall a m, mem s !! a = Some m -> links_ok m).

(** A field update that keeps the links off the root, and one that
    keeps the rectangle. *)
Definition keeps_links (f : BSPNode -> BSPNode) : Prop :=
  forall n, links_ok n -> links_ok (f n).
Definition keeps_rect (f : BSPNode -> BSPNode) : Prop :=
  forall n, rect (f n) = rect n.

Lemma hoare_load (p : ptr) :
  hoare root_kept (load p) (fun n s => root_kept s ∧ links_ok n).
Proof.
  intros s n s' HP Hrun. unfold load in Hrun. destruct p as [a|]; [|done].
  destruct (mem s !! a) as [m|] eqn:E; [|done]. injection Hrun as <- <-.
  split; [done|]. by eapply HP.
Qed.

Lemma hoare_modify (p : ptr) (f : BSPNode -> BSPNode) :
  keeps_links f -> p <> Some root ∨ keeps_rect f ->
  hoare root_kept (modify p f) (fun _ => root_kept).
Proof.
  intros Hf Hrect s [] s' [(n & Hn & Hr) Hlinks] Hrun. unfold modify in Hrun.
  destruct p as [a|]; [|done]. destruct (mem s !! a) as [m|] eqn:E; [|done].
  injection Hrun as <-. unfold root_kept. cbn [mem]. split.
  - destruct (decide (a = root)) as [->|Hne].
    + exists (f m). rewrite lookup_insert_eq. split; [done|].
      destruct Hrect as [Hp|Hk]; [done|]. rewrite Hk. congruence.
    + exists n. by rewrite lookup_insert_ne.
  - intros b m' Hb. destruct (decide (a = b)) as [->|Hne].
    + rewrite lookup_insert_eq in Hb. injection Hb as <-. apply Hf. by eapply Hlinks.
    + rewrite lookup_insert_ne in Hb by done. by eapply Hlinks.
Qed.

Lemma hoare_free (p : ptr) :
  p <> Some root -> hoare root_kept (free p) (fun _ => root_kept).
Proof.
  intros Hp s [] s' HP Hrun. unfold free in Hrun.
  destruct p as [a|]; [|by injection Hrun as <-].
  destruct HP as [(n & Hn & Hr) Hlinks].
  destruct (mem s !! a) as [m|] eqn:E; [|done]. injection Hrun as <-.
  unfold root_kept. cbn [mem]. split.
  - exists n. rewrite lookup_delete_ne by congruence. done.
  - intros b m' Hb. apply lookup_delete_Some in Hb as [_ Hb]. by eapply Hlinks.
Qed.

Lemma hoare_calloc :
  hoare root_kept calloc (fun p s => root_kept s ∧ p <> Some root).
Proof.
  intros s p s' [(n & Hn & Hr) Hlinks] Hrun. unfold calloc in Hrun.
  assert (Hfresh : fresh (dom (mem s)) <> root).
  { intros E. pose proof (fresh_lookup (mem s)) as Hf. rewrite E in Hf. congruence. }
  assert (Hok : root_kept (mkState (<[fresh (dom (mem s)) := zero_node]> (mem s))
                                   (tail (oracle s)))).
  { split; cbn [mem].
    - exists n. by rewrite lookup_insert_ne.
    - intros b m' Hb. destruct (decide (fresh (dom (mem s)) = b)) as [<-|Hne].
      + rewrite lookup_insert_eq in Hb. injection Hb as <-. done.
      + rewrite lookup_insert_ne in Hb by done. by eapply Hlinks. }
  destruct (oracle s) as [|[] o]; simplify_eq; cbn [tail] in *;
    try (split; [exact Hok|congruence]).
  split; [|done]. split; [by exists n|done].
Qed.

Ltac harmless_now :=
  first
    [ by (intros ?n; unfold links_ok in *; cbn; tauto)
    | by (right; intros ?n)
    | by left ].

Ltac hoare_step :=
  first
    [ eapply hoare_bind; [apply hoare_modify; harmless_now|intros []; cbv beta]
    | eapply hoare_bind;
      [apply hoare_load
      |let n := fresh "n" in
       intros n; cbv beta; apply (hoare_pure (links_ok n) root_kept); intros ?Hlinks] ].

Lemma bsp_split_leaf_keeps_root (leaf : ptr) (w : Z) :
  hoare root_kept (bsp_split_leaf leaf w) (fun _ => root_kept).
Proof.
  unfold bsp_split_leaf. destruct leaf as [a|]; [|by apply hoare_ret].
  hoare_step. destruct (is_leaf n); [|by apply hoare_ret]. cbn [negb].
  do 2 hoare_step. destruct (split_rects (rect n)) as [r1 r2].
  eapply hoare_bind; [apply hoare_calloc|]. intros f1. cbv beta.
  apply (hoare_pure (f1 <> Some root) root_kept). intros Hf1.
  destruct f1 as [f1|]; [|by apply hoare_ret].
  do 5 hoare_step.
  eapply hoare_bind; [apply hoare_calloc|]. intros f2. cbv beta.
  apply (hoare_pure (f2 <> Some root) root_kept). intros Hf2.
  destruct f2 as [f2|].
  - do 4 hoare_step.
    eapply hoare_bind; [apply hoare_modify; harmless_now|intros []; cbv beta].
    eapply hoare_bind; [apply hoare_modify; harmless_now|intros []; cbv beta].
    apply hoare_modify; harmless_now.
  - eapply hoare_bind; [by apply hoare_free|intros []; cbv beta]. by apply hoare_ret.
Qed.

Lemma promote_keeps_root (node replacement discarded : ptr) :
  replacement <> Some root -> discarded <> Some root ->
  hoare root_kept (promote node replacement discarded) (fun _ => root_kept).
Proof.
  intros Hrep Hdis. unfold promote. do 4 hoare_step.
  eapply hoare_bind; [by apply hoare_free|intros []; cbv beta].
  do 5 hoare_step.
  eapply hoare_bind.
  { destruct (first n2); [apply hoare_modify; harmless_now|by apply hoare_ret]. }
  intros []; cbv beta. hoare_step.
  eapply hoare_bind.
  { destruct (second n3); [apply hoare_modify; harmless_now|by apply hoare_ret]. }
  intros []; cbv beta. by apply hoare_free.
Qed.

Lemma bsp_collapse_keeps_root (node : ptr) :
  hoare root_kept (bsp_collapse_empty_branches node) (fun _ => root_kept).
Proof.
  unfold bsp_collapse_empty_branches. destruct node as [a|]; [|by apply hoare_ret].
  hoare_step. destruct (is_leaf n); [by apply hoare_ret|].
  do 2 hoare_step. destruct Hlinks as [Hf Hs].
  repeat case_match; try by apply hoare_ret.
  - by apply promote_keeps_root.
  - by apply promote_keeps_root.
Qed.

Lemma bsp_insert_keeps_root (fuel : nat) :
  forall (node : ptr) (w : Z),
    hoare root_kept (bsp_insert fuel node w) (fun _ => root_kept).
Proof.
  induction fuel as [|fuel IH]; intros node w; [apply hoare_fault|]. simpl.
  destruct node as [a|]; [|by apply hoare_ret].
  hoare_step. destruct (is_leaf n); [|apply IH].
  destruct (window_id n =? NO_WINDOW).
  - apply hoare_modify; harmless_now.
  - apply bsp_split_leaf_keeps_root.
Qed.

Lemma bsp_remove_keeps_root (fuel : nat) :
  forall (node : ptr) (w : Z),
    hoare root_kept (bsp_remove_window fuel node w) (fun _ => root_kept).
Proof.
  induction fuel as [|fuel IH]; intros node w; [apply hoare_fault|]. simpl.
  destruct node as [a|]; [|by apply hoare_ret].
  hoare_step. destruct (is_leaf n).
  - destruct (window_id n =? w); [|by apply hoare_ret].
    hoare_step. by apply hoare_ret.
  - eapply hoare_bind; [apply IH|]. intros in_first. cbv beta.
    eapply (hoare_bind _ _ (fun _ => root_kept)).
    { destruct in_first; [by apply hoare_ret|]. hoare_step. apply IH. }
    intros in_either. destruct in_either; [|by apply hoare_ret].
    eapply hoare_bind; [apply bsp_collapse_keeps_root|]. intros []. by apply hoare_ret.
Qed.

Lemma node_at_keeps_root (path : list bool) :
  forall node : ptr, hoare root_kept (node_at node path) (fun _ => root_kept).
Proof.
  induction path as [|b path IH]; intros node; simpl; [by apply hoare_ret|].
  destruct node as [a|]; [|by apply hoare_ret]. hoare_step. apply IH.
Qed.

Lemma run_op_keeps_root (fuel : nat) (start : ptr) (o : op) :
  hoare root_kept (run_op fuel start o) (fun _ => root_kept).
Proof.
  destruct o as [path w|path w|path w|path]; simpl;
    (eapply hoare_bind; [apply node_at_keeps_root|]); intros node; cbv beta.
  - apply bsp_insert_keeps_root.
  - eapply hoare_bind; [apply bsp_remove_keeps_root|]. intros ?. by apply hoare_ret.
  - apply bsp_split_leaf_keeps_root.
  - apply bsp_collapse_keeps_root.
Qed.

Lemma run_ops_keeps_root (fuel : nat) (start : ptr) (ops : list op) :
  hoare root_kept (run_ops fuel start ops) (fun _ => root_kept).
Proof.
  induction ops as [|o ops IH]; simpl; [by apply hoare_ret|].
  eapply hoare_bind; [apply run_op_keeps_root|]. by intros [].
Qed.
End RootRect.

(** C10. In every session (a root made by [bsp_create_root] for
    [screen_rect], then any calls of [bsp_insert], [bsp_remove_window],
    [bsp_split_leaf] and [bsp_collapse_empty_branches] on nodes reached from
    it), whatever the allocations do: if the session runs to its end, the
    root is still allocated and its rectangle is [screen_rect].  And the
    session does run to its end when every allocation succeeds and the
    fuel exceeds the number of calls. *)
Theorem root_rect_never_changes (fuel : nat) (screen_rect : CGRect) (ops : list op)
    (o : list bool) :
  (forall (root : loc) (s' : state),
     session fuel screen_rect ops (empty_state o) = Some (Some root, s') ->
     exists n, mem s' !! root = Some n ∧ rect n = screen_rect) ∧
  (never_fails o -> (length ops < fuel)%nat ->
   exists s', session fuel screen_rect ops (empty_state o) = Some (Some root0, s')).
Proof.
  split.
  - intros root s' Hrun. unfold session in Hrun.
    destruct o as [|[] o].
    + rewrite (bind_run _ _ _ _ _ (bsp_create_root_ok screen_rect (empty_state [])
                                     (allocs_succeed_nil 1))) in Hrun.
      cbn [mem oracle empty_state tail] in Hrun. unfold bind in Hrun.
      destruct (run_ops _ _ _ _) as [[[] s1]|] eqn:E; [|done]. injection Hrun as <- <-.
      eapply (run_ops_keeps_root _ screen_rect) in E; [apply E|].
      split; cbn [mem].
      * eexists. by rewrite lookup_insert_eq.
      * intros a m [[<- <-]|[_ Hm]]%lookup_insert_Some; [done|].
        by rewrite lookup_empty in Hm.
    + rewrite (bind_run _ _ _ _ _ (bsp_create_root_ok screen_rect (empty_state (true :: o))
                                     ltac:(by apply allocs_succeed_S; split;
                                           [|apply Forall_nil]))) in Hrun.
      cbn [mem oracle empty_state tail] in Hrun. unfold bind in Hrun.
      destruct (run_ops _ _ _ _) as [[[] s1]|] eqn:E; [|done]. injection Hrun as <- <-.
      eapply (run_ops_keeps_root _ screen_rect) in E; [apply E|].
      split; cbn [mem].
      * eexists. by rewrite lookup_insert_eq.
      * intros a m [[<- <-]|[_ Hm]]%lookup_insert_Some; [done|].
        by rewrite lookup_empty in Hm.
    + unfold bsp_create_root in Hrun.
      erewrite bind_assoc, bind_calloc_fail in Hrun by reflexivity.
      rewrite bind_ret in Hrun. unfold bind in Hrun.
      destruct (run_ops _ _ _ _) as [[[] s1]|]; done.
  - intros Ho Hfuel.
    destruct (session_tree fuel screen_rect ops o Ho Hfuel) as (s' & t' & Hrun & _).
    by exists s'.
Qed.

Lemma root_rect_never_changes_example :
  exists n,
    mem (state_after [Insert [] 1001; Insert [] 1002; Insert [] 1003; Remove [] 1002;
                      Split [true] 1004; Remove [false] 1001; Collapse []])
      !! 1%positive = Some n ∧
    rect n = screen.
Proof.
  apply (proj1 (root_rect_never_changes 16 screen
                  [Insert [] 1001; Insert [] 1002; Insert [] 1003; Remove [] 1002;
                   Split [true] 1004; Remove [false] 1001; Collapse []] [])).
  by vm_compute.
Defined.

(** ** C1: the children tile the parent *)

(** [tiles sv r r1 r2]: the rectangles [r1] and [r2] partition [r], side
    by side when [sv] (a vertical split), stacked otherwise; comparisons
    and sums are the machine's. *)
Definition tiles (sv : bool) (r r1 r2 : CGRect) : bool :=
  ((x (origin r1) =? x (origin r)) && (y (origin r1) =? y (origin r)) &&
   if sv then
     (x (origin r2) =? x (origin r1) + width (size r1)) &&
     (y (origin r2) =? y (origin r)) &&
     (width (size r1) + width (size r2) =? width (size r)) &&
     (height (size r1) =? height (size r)) && (height (size r2) =? height (size r))
   else
     (y (origin r2) =? y (origin r1) + height (size r1)) &&
     (x (origin r2) =? x (origin r)) &&
     (height (size r1) + height (size r2) =? height (size r)) &&
     (width (size r1) =? width (size r)) && (width (size r2) =? width (size r)))%float.

(** Every internal node is tiled by its two children. *)
Fixpoint tiled (t : tree) : bool :=
  match t with
  | Leaf _ _ _ _ => true
  | Node _ _ r sv t1 t2 => tiles sv r (root_rect t1) (root_rect t2) && tiled t1 && tiled t2
  end.

(** Three windows on the 800x600 screen, then the second one closed: the
    root takes over the contents of its first child, a horizontal split of
    the left half, and the two leaves keep the rectangles they had. *)
Definition after_closing_second : tree :=
  Node 1%positive NO_WINDOW screen false
       (Leaf 4%positive 1001 (rect_of 0 0 400 300) false)
       (Leaf 5%positive 1003 (rect_of 0 300 400 300) false).

(** C1 (refuted by the code). After inserting 1001, 1002, 1003 and
    removing 1002, the heap holds [after_closing_second]: the root still
    spans 800x600 but its children are 400 wide, so they cover only its
    left half.  Before the removal the tree was tiled. *)
Theorem collapse_keeps_stale_rectangles :
  wf (mem (state_after [Insert [] 1001; Insert [] 1002; Insert [] 1003; Remove [] 1002]))
     None after_closing_second ∧
  tiled after_closing_second = false ∧
  exists t, wf (mem (state_after [Insert [] 1001; Insert [] 1002; Insert [] 1003])) None t ∧
            tiled t = true.
Proof.
  split_and!.
  - split; [by vm_compute|]. apply (bool_decide_unpack _). by vm_compute.
  - by vm_compute.
  - exists (Node 1%positive NO_WINDOW screen true
              (Node 2%positive NO_WINDOW (rect_of 0 0 400 600) false
                 (Leaf 4%positive 1001 (rect_of 0 0 400 300) false)
                 (Leaf 5%positive 1003 (rect_of 0 300 400 300) false))
              (Leaf 3%positive 1002 (rect_of 400 0 400 600) false)).
    split; [|by vm_compute].
    split; [by vm_compute|]. apply (bool_decide_unpack _). by vm_compute.
Qed.

(** ** C3: right and left neighbours *)

Fixpoint leftmostT (t : tree) : loc :=
  match t with
  | Leaf a _ _ _ => a
  | Node _ _ _ _ t1 _ => leftmostT t1
  end.

Fixpoint rightmostT (t : tree) : loc :=
  match t with
  | Leaf a _ _ _ => a
  | Node _ _ _ _ _ t2 => rightmostT t2
  end.

(** The upward walk of [bsp_find_right_neighbor] from [a], as far as it
    stays inside [t]: [Some b] when it turns at a vertical split of [t]
    and comes down on the leaf [b], [None] when it leaves [t] through the
    root. *)
Fixpoint rightT (t : tree) (a : loc) : option loc :=
  match t with
  | Leaf _ _ _ _ => None
  | Node c _ _ sv t1 t2 =>
      if decide (a = c) then None
      else if decide (a ∈ addrs t1) then
        match rightT t1 a with
        | Some b => Some b
        | None => if sv then Some (leftmostT t2) else None
        end
      else rightT t2 a
  end.

Fixpoint leftT (t : tree) (a : loc) : option loc :=
  match t with
  | Leaf _ _ _ _ => None
  | Node c _ _ sv t1 t2 =>
      if decide (a = c) then None
      else if decide (a ∈ addrs t1) then leftT t1 a
      else
        match leftT t2 a with
        | Some b => Some b
        | None => if sv then Some (rightmostT t1) else None
        end
  end.

(** How many [parent] links lie between [a] and the root of [t]. *)
Fixpoint level (t : tree) (a : loc) : nat :=
  match t with
  | Leaf _ _ _ _ => 0
  | Node c _ _ _ t1 t2 =>
      if decide (a = c) then 0
      else if decide (a ∈ addrs t1) then S (level t1 a) else S (level t2 a)
  end.

Lemma level_depth t a : (level t a <= depth t)%nat.
Proof.
  induction t as [|c v r sv t1 IH1 t2 IH2]; simpl; [lia|].
  repeat case_decide; lia.
Qed.

Lemma leftmostT_in t : leftmostT t ∈ addrs t.
Proof. induction t; simpl; set_solver. Qed.

Lemma rightmostT_in t : rightmostT t ∈ addrs t.
Proof. induction t; simpl; set_solver. Qed.

Lemma bsp_find_leftmost_leaf_tree (t : tree) :
  forall (s : state) (par : ptr) (fuel : nat),
    repr (mem s) par t -> (depth t < fuel)%nat ->
    bsp_find_leftmost_leaf fuel (Some (root_addr t)) s = Some (Some (leftmostT t), s).
Proof.
  induction t as [a v r sv|a v r sv t1 IH1 t2 _]; intros s par fuel Hr Hfuel;
    (destruct fuel as [|fuel]; [simpl in Hfuel; lia|]).
  - destruct Hr as [Ha _]. simpl in Ha. cbn [bsp_find_leftmost_leaf root_addr]. by step.
  - destruct Hr as (Ha & H1 & _). simpl in Ha, Hfuel.
    cbn [bsp_find_leftmost_leaf root_addr]. step. apply (IH1 s _ fuel H1). lia.
Qed.

Lemma bsp_find_rightmost_leaf_tree (t : tree) :
  forall (s : state) (par : ptr) (fuel : nat),
    repr (mem s) par t -> (depth t < fuel)%nat ->
    bsp_find_rightmost_leaf fuel (Some (root_addr t)) s = Some (Some (rightmostT t), s).
Proof.
  induction t as [a v r sv|a v r sv t1 _ t2 IH2]; intros s par fuel Hr Hfuel;
    (destruct fuel as [|fuel]; [simpl in Hfuel; lia|]).
  - destruct Hr as [Ha _]. simpl in Ha. cbn [bsp_find_rightmost_leaf root_addr]. by step.
  - destruct Hr as (Ha & _ & H2). simpl in Ha, Hfuel.
    cbn [bsp_find_rightmost_leaf root_addr]. step. apply (IH2 s _ fuel H2). lia.
Qed.

(** One turn of the loop of [bsp_find_right_neighbor] at a child of the
    node [c]. *)
Lemma right_step_first (s : state) (par : ptr) c v r sv t1 t2 (fuel : nat) :
  repr (mem s) par (Node c v r sv t1 t2) ->
  bsp_find_right_neighbor (S fuel) (Some (root_addr t1)) s =
  if sv then bsp_find_leftmost_leaf fuel (Some (root_addr t2)) s
  else bsp_find_right_neighbor fuel (Some c) s.
Proof.
  intros (Hc & H1 & H2). simpl in Hc. pose proof (repr_root _ _ _ H1) as Hc1.
  cbn [bsp_find_right_neighbor]. step.
  replace (parent (cell (Some c) t1)) with (Some c) by (by destruct t1).
  step. unfold ptr_eqb. rewrite bool_decide_eq_true_2 by done. by destruct sv.
Qed.

Lemma right_step_second (s : state) (par : ptr) c v r sv t1 t2 (fuel : nat) :
  wf (mem s) par (Node c v r sv t1 t2) ->
  bsp_find_right_neighbor (S fuel) (Some (root_addr t2)) s =
  bsp_find_right_neighbor fuel (Some c) s.
Proof.
  intros [(Hc & H1 & H2) Hnd]. simpl in Hc. pose proof (repr_root _ _ _ H2) as Hc2.
  cbn [bsp_find_right_neighbor]. step.
  replace (parent (cell (Some c) t2)) with (Some c) by (by destruct t2).
  step. unfold ptr_eqb. rewrite bool_decide_eq_false_2, andb_false_r; [done|].
  intros [= E]. simpl in Hnd. apply NoDup_cons in Hnd as [_ Hnd].
  apply NoDup_app in Hnd as (_ & Hdisj & _).
  apply (Hdisj (root_addr t1)); [apply root_in_addrs|rewrite E; apply root_in_addrs].
Qed.

Lemma left_step_second (s : state) (par : ptr) c v r sv t1 t2 (fuel : nat) :
  repr (mem s) par (Node c v r sv t1 t2) ->
  bsp_find_left_neighbor (S fuel) (Some (root_addr t2)) s =
  if sv then bsp_find_rightmost_leaf fuel (Some (root_addr t1)) s
  else bsp_find_left_neighbor fuel (Some c) s.
Proof.
  intros (Hc & H1 & H2). simpl in Hc. pose proof (repr_root _ _ _ H2) as Hc2.
  cbn [bsp_find_left_neighbor]. step.
  replace (parent (cell (Some c) t2)) with (Some c) by (by destruct t2).
  step. unfold ptr_eqb. rewrite bool_decide_eq_true_2 by done. by destruct sv.
Qed.

Lemma left_step_first (s : state) (par : ptr) c v r sv t1 t2 (fuel : nat) :
  wf (mem s) par (Node c v r sv t1 t2) ->
  bsp_find_left_neighbor (S fuel) (Some (root_addr t1)) s =
  bsp_find_left_neighbor fuel (Some c) s.
Proof.
  intros [(Hc & H1 & H2) Hnd]. simpl in Hc. pose proof (repr_root _ _ _ H1) as Hc1.
  cbn [bsp_find_left_neighbor]. step.
  replace (parent (cell (Some c) t1)) with (Some c) by (by destruct t1).
  step. unfold ptr_eqb. rewrite bool_decide_eq_false_2, andb_false_r; [done|].
  intros [= E]. simpl in Hnd. apply NoDup_cons in Hnd as [_ Hnd].
  apply NoDup_app in Hnd as (_ & Hdisj & _).
  apply (Hdisj (root_addr t1)); [apply root_in_addrs|rewrite <- E; apply root_in_addrs].
Qed.

Lemma right_walk (t : tree) :
  forall (s : state) (par : ptr) (a : loc),
    wf (mem s) par t -> a ∈ addrs t ->
    match rightT t a with
    | Some b =>
        forall fuel, (2 * depth t < fuel)%nat ->
                     bsp_find_right_neighbor fuel (Some a) s = Some (Some b, s)
    | None =>
        forall fuel, bsp_find_right_neighbor (level t a + fuel) (Some a) s =
                     bsp_find_right_neighbor fuel (Some (root_addr t)) s
    end.
Proof.
  induction t as [c v r sv|c v r sv t1 IH1 t2 IH2]; intros s par a Hwf Hin.
  - simpl in Hin. apply list_elem_of_singleton in Hin as ->. by intros fuel.
  - pose proof (wf_children _ _ _ _ _ _ _ _ Hwf) as [Hwf1 Hwf2].
    pose proof Hwf as [Hr _]. simpl.
    destruct (decide (a = c)) as [->|Hac]; [by intros fuel|].
    destruct (decide (a ∈ addrs t1)) as [Hin1|Hnin1].
    + specialize (IH1 s (Some c) a Hwf1 Hin1). pose proof (level_depth t1 a) as Hlev.
      destruct (rightT t1 a) as [b|].
      * intros fuel Hfuel. apply IH1. lia.
      * destruct sv.
        -- intros fuel Hfuel.
           replace fuel with (level t1 a + S (fuel - level t1 a - 1))%nat by lia.
           rewrite IH1, (right_step_first s par c v r true t1 t2) by done.
           eapply bsp_find_leftmost_leaf_tree; [apply Hwf2|lia].
        -- intros fuel.
           replace (S (level t1 a) + fuel)%nat with (level t1 a + S fuel)%nat by lia.
           by rewrite IH1, (right_step_first s par c v r false t1 t2).
    + assert (Hin2 : a ∈ addrs t2) by (simpl in Hin; set_solver).
      specialize (IH2 s (Some c) a Hwf2 Hin2).
      destruct (rightT t2 a) as [b|].
      * intros fuel Hfuel. apply IH2. lia.
      * intros fuel.
        replace (S (level t2 a) + fuel)%nat with (level t2 a + S fuel)%nat by lia.
        by rewrite IH2, (right_step_second s par c v r sv t1 t2).
Qed.

Lemma left_walk (t : tree) :
  forall (s : state) (par : ptr) (a : loc),
    wf (mem s) par t -> a ∈ addrs t ->
    match leftT t a with
    | Some b =>
        forall fuel, (2 * depth t < fuel)%nat ->
                     bsp_find_left_neighbor fuel (Some a) s = Some (Some b, s)
    | None =>
        forall fuel, bsp_find_left_neighbor (level t a + fuel) (Some a) s =
                     bsp_find_left_neighbor fuel (Some (root_addr t)) s
    end.
Proof.
  induction t as [c v r sv|c v r sv t1 IH1 t2 IH2]; intros s par a Hwf Hin.
  - simpl in Hin. apply list_elem_of_singleton in Hin as ->. by intros fuel.
  - pose proof (wf_children _ _ _ _ _ _ _ _ Hwf) as [Hwf1 Hwf2].
    pose proof Hwf as [Hr _]. simpl.
    destruct (decide (a = c)) as [->|Hac]; [by intros fuel|].
    destruct (decide (a ∈ addrs t1)) as [Hin1|Hnin1].
    + specialize (IH1 s (Some c) a Hwf1 Hin1).
      destruct (leftT t1 a) as [b|].
      * intros fuel Hfuel. apply IH1. lia.
      * intros fuel.
        replace (S (level t1 a) + fuel)%nat with (level t1 a + S fuel)%nat by lia.
        by rewrite IH1, (left_step_first s par c v r sv t1 t2).
    + assert (Hin2 : a ∈ addrs t2) by (simpl in Hin; set_solver).
      specialize (IH2 s (Some c) a Hwf2 Hin2). pose proof (level_depth t2 a) as Hlev.
      destruct (leftT t2 a) as [b|].
      * intros fuel Hfuel. apply IH2. lia.
      * destruct sv.
        -- intros fuel Hfuel.
           replace fuel with (level t2 a + S (fuel - level t2 a - 1))%nat by lia.
           rewrite IH2, (left_step_second s par c v r true t1 t2) by done.
           eapply bsp_find_rightmost_leaf_tree; [apply Hwf1|lia].
        -- intros fuel.
           replace (S (level t2 a) + fuel)%nat with (level t2 a + S fuel)%nat by lia.
           by rewrite IH2, (left_step_second s par c v r false t1 t2).
Qed.

Lemma walk_at_root_right (s : state) (t : tree) (fuel : nat) :
  repr (mem s) None t ->
  bsp_find_right_neighbor (S fuel) (Some (root_addr t)) s = Some (None, s).
Proof.
  intros Hr. pose proof (repr_root _ _ _ Hr) as Hc. cbn [bsp_find_right_neighbor].
  step. by destruct t.
Qed.

Lemma walk_at_root_left (s : state) (t : tree) (fuel : nat) :
  repr (mem s) None t ->
  bsp_find_left_neighbor (S fuel) (Some (root_addr t)) s = Some (None, s).
Proof.
  intros Hr. pose proof (repr_root _ _ _ Hr) as Hc. cbn [bsp_find_left_neighbor].
  step. by destruct t.
Qed.

(** On a whole tree the two searches compute [rightT] and [leftT]. *)
Lemma bsp_find_right_neighbor_tree (s : state) (t : tree) (a : loc) (fuel : nat) :
  wf (mem s) None t -> a ∈ addrs t -> (2 * depth t + 1 < fuel)%nat ->
  bsp_find_right_neighbor fuel (Some a) s = Some (rightT t a, s).
Proof.
  intros Hwf Hin Hfuel. pose proof (right_walk t s None a Hwf Hin) as H.
  pose proof (level_depth t a). destruct (rightT t a) as [b|].
  - apply H. lia.
  - replace fuel with (level t a + S (fuel - level t a - 1))%nat by lia.
    rewrite H. apply walk_at_root_right, Hwf.
Qed.

Lemma bsp_find_left_neighbor_tree (s : state) (t : tree) (a : loc) (fuel : nat) :
  wf (mem s) None t -> a ∈ addrs t -> (2 * depth t + 1 < fuel)%nat ->
  bsp_find_left_neighbor fuel (Some a) s = Some (leftT t a, s).
Proof.
  intros Hwf Hin Hfuel. pose proof (left_walk t s None a Hwf Hin) as H.
  pose proof (level_depth t a). destruct (leftT t a) as [b|].
  - apply H. lia.
  - replace fuel with (level t a + S (fuel - level t a - 1))%nat by lia.
    rewrite H. apply walk_at_root_left, Hwf.
Qed.

Lemma addrs_split c v r sv t1 t2 :
  NoDup (addrs (Node c v r sv t1 t2)) ->
  NoDup (addrs t1) ∧ NoDup (addrs t2) ∧ (c ∉ addrs t1) ∧ (c ∉ addrs t2) ∧
  (forall b, b ∈ addrs t1 -> b ∉ addrs t2).
Proof.
  simpl. intros [Hc Hnd]%NoDup_cons. apply NoDup_app in Hnd as (H1 & Hd & H2).
  set_solver.
Qed.

Lemma leftT_leftmost t : NoDup (addrs t) -> leftT t (leftmostT t) = None.
Proof.
  induction t as [|c v r sv t1 IH1 t2 _]; [done|]. intros Hnd.
  apply addrs_split in Hnd as (H1 & _ & Hc & _). simpl.
  pose proof (leftmostT_in t1). rewrite decide_False, decide_True by set_solver. auto.
Qed.

Lemma rightT_rightmost t : NoDup (addrs t) -> rightT t (rightmostT t) = None.
Proof.
  induction t as [|c v r sv t1 _ t2 IH2]; [done|]. intros Hnd.
  apply addrs_split in Hnd as (_ & H2 & _ & Hc & Hd). simpl.
  pose proof (rightmostT_in t2). rewrite decide_False, decide_False by set_solver. auto.
Qed.

Lemma rightT_in t a b : rightT t a = Some b -> b ∈ addrs t.
Proof.
  revert b. induction t as [|c v r sv t1 IH1 t2 IH2]; intros b; [done|]. simpl.
  destruct (decide (a = c)); [done|]. destruct (decide (a ∈ addrs t1)).
  - destruct (rightT t1 a) as [b0|].
    + intros [= <-]. specialize (IH1 _ eq_refl). set_solver.
    + destruct sv; [|done]. intros [= <-]. pose proof (leftmostT_in t2). set_solver.
  - intros Hb. specialize (IH2 _ Hb). set_solver.
Qed.

(** On trees: if the walk to the right from [a] ends on [b], the walk to
    the left from [b] ends on some [a'] whose walk to the right ends on [b]
    again. *)
Lemma right_then_left t a b :
  NoDup (addrs t) -> rightT t a = Some b ->
  exists a', leftT t b = Some a' ∧ rightT t a' = Some b ∧ a' ∈ addrs t.
Proof.
  revert b. induction t as [|c v r sv t1 IH1 t2 IH2]; intros b Hnd; [done|].
  pose proof (addrs_split _ _ _ _ _ _ Hnd) as (H1 & H2 & Hc1 & Hc2 & Hd). simpl.
  destruct (decide (a = c)) as [->|Hac]; [done|].
  destruct (decide (a ∈ addrs t1)) as [Hin1|Hnin1].
  - destruct (rightT t1 a) as [b0|] eqn:E.
    + intros [= ->]. destruct (IH1 _ H1 eq_refl) as (a' & Hl & Hr & Hin').
      pose proof (rightT_in _ _ _ E). exists a'.
      rewrite (decide_False (P := b = c)), (decide_True (P := b ∈ addrs t1)) by set_solver.
      rewrite (decide_False (P := a' = c)), (decide_True (P := a' ∈ addrs t1)) by set_solver.
      rewrite Hr. set_solver.
    + destruct sv; [|done]. intros [= <-]. exists (rightmostT t1).
      pose proof (leftmostT_in t2). pose proof (rightmostT_in t1).
      rewrite (decide_False (P := leftmostT t2 = c)),
        (decide_False (P := leftmostT t2 ∈ addrs t1)) by set_solver.
      rewrite (leftT_leftmost _ H2).
      rewrite (decide_False (P := rightmostT t1 = c)),
        (decide_True (P := rightmostT t1 ∈ addrs t1)) by set_solver.
      rewrite (rightT_rightmost _ H1). set_solver.
  - intros E. destruct (IH2 _ H2 E) as (a' & Hl & Hr & Hin').
    pose proof (rightT_in _ _ _ E). exists a'.
    rewrite (decide_False (P := b = c)), (decide_False (P := b ∈ addrs t1)) by set_solver.
    rewrite (decide_False (P := a' = c)), (decide_False (P := a' ∈ addrs t1)) by set_solver.
    rewrite Hl. set_solver.
Qed.


(** Three tiled windows: inserting 1001, 1002, 1003 on the 800x600
    screen splits the screen vertically and then its left half
    horizontally. *)
Definition three_windows : tree :=
  Node 1%positive NO_WINDOW screen true
       (Node 2%positive NO_WINDOW (rect_of 0 0 400 600) false
             (Leaf 4%positive 1001 (rect_of 0 0 400 300) false)
             (Leaf 5%positive 1003 (rect_of 0 300 400 300) false))
       (Leaf 3%positive 1002 (rect_of 400 0 400 600) false).

Lemma three_windows_wf :
  wf (mem (state_after [Insert [] 1001; Insert [] 1002; Insert [] 1003])) None three_windows.
Proof.
  split; [by vm_compute|]. apply (bool_decide_unpack _). by vm_compute.
Defined.



(** * The rest of [bsp.c] *)

(** ** Releasing a tree *)

(** [bsp_free] (bsp.c:455): post-order, children before the node; the
    [second] pointer is read after the first subtree has been freed. *)
Fixpoint bsp_free (fuel : nat) (node : ptr) : M unit :=
  match fuel with
  | O => fault
  | S fuel =>
      match node with
      | None => ret tt
      | Some _ =>
          let* n := load node in
          bsp_free fuel (first n) ;;
          let* n := load node in
          bsp_free fuel (second n) ;;
          free node
      end
  end.

(** The whole life of a tree: create it, work on it, release it. *)
Definition lifetime (fuel : nat) (screen_rect : CGRect) (ops : list op) : M unit :=
  let* root := session fuel screen_rect ops in
  bsp_free fuel root.

Lemma bsp_free_tree (t : tree) :
  forall (s : state) (par : ptr) (fuel : nat),
    wf (mem s) par t -> (depth t + 1 < fuel)%nat ->
    exists s',
      bsp_free fuel (Some (root_addr t)) s = Some (tt, s') ∧
      oracle s' = oracle s ∧
      (forall b, b ∈ addrs t -> mem s' !! b = None) ∧
      (forall b, b ∉ addrs t -> mem s' !! b = mem s !! b).
Proof.
  induction t as [a v r sv|a v r sv t1 IH1 t2 IH2]; intros s par fuel Hwf Hfuel;
    (destruct fuel as [|[|fuel]]; [simpl in Hfuel; lia..|]); pose proof Hwf as [Hr Hnd].
  - destruct Hr as [Ha _]. simpl in Ha.
    eexists. split.
    { cbn [bsp_free root_addr]. step. cbn [bsp_free]. do 2 step. cbn [bsp_free].
      step. unfold free. by rewrite Ha. }
    cbn [mem oracle addrs]. split_and!; [done| |].
    + intros b ->%list_elem_of_singleton. apply lookup_delete_eq.
    + intros b Hb. apply lookup_delete_ne. set_solver.
  - pose proof (wf_children _ _ _ _ _ _ _ _ Hwf) as [Hwf1 Hwf2].
    destruct Hr as (Ha & _ & _). simpl in Ha, Hfuel.
    pose proof (addrs_split _ _ _ _ _ _ Hnd) as (_ & _ & Ha1 & Ha2 & Hdisj).
    destruct (IH1 s (Some a) (S fuel) Hwf1 ltac:(lia)) as (s1 & Hrun1 & Ho1 & Hin1 & Hout1).
    assert (Hwf2' : wf (mem s1) (Some a) t2).
    { destruct Hwf2 as [Hr2 Hnd2]. split; [|done].
      eapply repr_frame; [|exact Hr2]. intros b Hb. apply Hout1.
      intros Hb1. by apply (Hdisj b). }
    destruct (IH2 s1 (Some a) (S fuel) Hwf2' ltac:(lia)) as (s2 & Hrun2 & Ho2 & Hin2 & Hout2).
    assert (Ha' : mem s2 !! a = Some (cell par (Node a v r sv t1 t2))).
    { by rewrite Hout2, Hout1. }
    eexists. split.
    { cbn [bsp_free root_addr]. step. rewrite (bind_run _ _ _ _ _ Hrun1).
      erewrite bind_load by (rewrite Hout1 by done; exact Ha). cbn [cell second].
      rewrite (bind_run _ _ _ _ _ Hrun2). unfold free. by rewrite Ha'. }
    cbn [mem oracle addrs]. split_and!; [congruence| |].
    + intros b Hb. destruct (decide (b = a)) as [->|Hba]; [apply lookup_delete_eq|].
      rewrite lookup_delete_ne by done.
      destruct (decide (b ∈ addrs t2)) as [Hb2|Hb2]; [by apply Hin2|].
      rewrite Hout2 by done. apply Hin1. set_solver.
    + intros b Hb. rewrite lookup_delete_ne by set_solver.
      rewrite Hout2, Hout1; [done|set_solver..].
Qed.

Lemma depth_steps t ops t' : steps t ops t' -> (depth t' <= depth t + length ops)%nat.
Proof.
  induction 1 as [|t o ops f1 f2 t' _ _ _ _ IH]; simpl; [lia|].
  pose proof (depth_apply_op f1 f2 o t). lia.
Qed.

(** X1. [bsp_free] applied to the root of a tree releases every node of
    the tree and nothing else. *)
Theorem bsp_free_releases_tree (s : state) (t : tree) (par : ptr) (fuel : nat) :
  wf (mem s) par t -> (depth t + 1 < fuel)%nat ->
  exists s',
    bsp_free fuel (Some (root_addr t)) s = Some (tt, s') ∧
    oracle s' = oracle s ∧
    forall b, mem s' !! b = if decide (b ∈ addrs t) then None else mem s !! b.
Proof.
  intros Hwf Hfuel.
  destruct (bsp_free_tree t s par fuel Hwf Hfuel) as (s' & Hrun & Ho & Hin & Hout).
  exists s'. split_and!; [done..|]. intros b. case_decide; auto.
Qed.

Lemma bsp_free_releases_tree_example :
  exists s',
    bsp_free 16 (Some 1%positive) (state_after [Insert [] 1001; Insert [] 1002]) =
      Some (tt, s') ∧
    oracle s' = oracle (state_after [Insert [] 1001; Insert [] 1002]) ∧
    forall b, mem s' !! b = if decide (b ∈ addrs two_windows) then None
                            else mem (state_after [Insert [] 1001; Insert [] 1002]) !! b.
Proof.
  apply (bsp_free_releases_tree (state_after [Insert [] 1001; Insert [] 1002])
                                two_windows None 16).
  - apply two_windows_wf.
  - simpl. lia.
Defined.

(** X2. No leak: whatever operations a session applies to its tree, with
    every allocation succeeding, releasing the root afterwards leaves no
    node allocated. *)
Theorem lifetime_leaves_nothing (fuel : nat) (screen_rect : CGRect) (ops : list op)
    (o : list bool) :
  never_fails o -> (length ops + 1 < fuel)%nat ->
  exists s', lifetime fuel screen_rect ops (empty_state o) = Some (tt, s') ∧ mem s' = ∅.
Proof.
  intros Ho Hfuel.
  destruct (session_tree fuel screen_rect ops o Ho ltac:(lia))
    as (s1 & t1 & Hrun & Hwf & Htight & _ & Hroot & Hsteps).
  apply depth_steps in Hsteps. simpl in Hsteps.
  destruct (bsp_free_tree t1 s1 None fuel Hwf ltac:(lia)) as (s' & Hfree & _ & Hin & Hout).
  exists s'. split.
  - unfold lifetime. rewrite (bind_run _ _ _ _ _ Hrun). by rewrite <- Hroot.
  - apply map_eq. intros b. rewrite lookup_empty.
    destruct (decide (b ∈ addrs t1)); [by apply Hin|].
    rewrite Hout by done. by apply Htight.
Qed.

Lemma lifetime_leaves_nothing_example :
  exists s',
    lifetime 16 screen [Insert [] 1001; Insert [] 1002; Insert [] 1003; Remove [] 1002]
             (empty_state []) = Some (tt, s') ∧ mem s' = ∅.
Proof.
  apply (lifetime_leaves_nothing 16 screen
           [Insert [] 1001; Insert [] 1002; Insert [] 1003; Remove [] 1002] []).
  - constructor.
  - simpl. lia.
Defined.

(** ** Visiting the leaves *)

(** [bsp_traverse] (bsp.c:475).  The callback is a function pointer:
    [None] is [NULL], [Some cb] a function run on the state. *)
Fixpoint bsp_traverse (fuel : nat) (node : ptr) (callback : option (ptr -> M unit)) : M unit :=
  match fuel with
  | O => fault
  | S fuel =>
      match node, callback with
      | Some _, Some cb =>
          let* n := load node in
          if is_leaf n then cb node
          else
            bsp_traverse fuel (first n) callback ;;
            let* n := load node in
            bsp_traverse fuel (second n) callback
      | _, _ => ret tt
      end
  end.

(** The addresses of the leaves, first child before second. *)
Fixpoint leaves (t : tree) : list loc :=
  match t with
  | Leaf a _ _ _ => [a]
  | Node _ _ _ _ t1 t2 => leaves t1 ++ leaves t2
  end.

(** Calling [cb] on each node of a list in turn. *)
Fixpoint visit (cb : ptr -> M unit) (l : list loc) : M unit :=
  match l with
  | [] => ret tt
  | a :: l => cb (Some a) ;; visit cb l
  end.

Lemma visit_app cb l1 l2 s : visit cb (l1 ++ l2) s = (visit cb l1 ;; visit cb l2) s.
Proof.
  revert s. induction l1 as [|a l1 IH]; intros s; simpl; [done|].
  rewrite bind_assoc. unfold bind at 1 2. destruct (cb (Some a) s) as [[[] s1]|]; [|done].
  apply IH.
Qed.

Lemma visit_keeps (I : state -> Prop) cb (L l : list loc) :
  (forall a s u s', a ∈ L -> I s -> cb (Some a) s = Some (u, s') -> I s') ->
  l ⊆ L ->
  forall s u s', I s -> visit cb l s = Some (u, s') -> I s'.
Proof.
  intros Hcb. induction l as [|a l IH]; intros Hl s u s' HI; simpl.
  - by intros [= _ <-].
  - unfold bind. destruct (cb (Some a) s) as [[[] s1]|] eqn:E; [|done].
    apply IH; [set_solver|]. eapply Hcb; [|exact HI|exact E]. set_solver.
Qed.

Lemma bsp_traverse_tree (I : state -> Prop) cb (L : list loc) (t : tree) :
  (forall a s u s', a ∈ L -> I s -> cb (Some a) s = Some (u, s') -> I s') ->
  forall (par : ptr) (fuel : nat) (s : state),
    (forall s, I s -> repr (mem s) par t) -> leaves t ⊆ L -> I s ->
    (depth t < fuel)%nat ->
    bsp_traverse fuel (Some (root_addr t)) (Some cb) s = visit cb (leaves t) s.
Proof.
  intros Hcb. induction t as [a v r sv|a v r sv t1 IH1 t2 IH2];
    intros par fuel s Hrepr HL HI Hfuel;
    (destruct fuel as [|fuel]; [simpl in Hfuel; lia|]);
    pose proof (Hrepr s HI) as Hr.
  - destruct Hr as [Ha _]. simpl in Ha. cbn [bsp_traverse root_addr leaves visit]. step.
    unfold bind. by destruct (cb (Some a) s) as [[[] s1]|].
  - destruct Hr as (Ha & _ & _). simpl in Ha, Hfuel, HL.
    cbn [bsp_traverse root_addr leaves]. step. rewrite visit_app.
    assert (Hrepr1 : forall s, I s -> repr (mem s) (Some a) t1) by (intros s0 H0; apply (Hrepr s0 H0)).
    assert (Hrepr2 : forall s, I s -> repr (mem s) (Some a) t2) by (intros s0 H0; apply (Hrepr s0 H0)).
    unfold bind at 1 3.
    rewrite (IH1 (Some a) fuel s Hrepr1 ltac:(set_solver) HI ltac:(lia)).
    destruct (visit cb (leaves t1) s) as [[[] s1]|] eqn:E; [|done].
    assert (HI1 : I s1).
    { eapply (visit_keeps I cb L (leaves t1)); [exact Hcb|set_solver|exact HI|exact E]. }
    destruct (Hrepr s1 HI1) as (Ha1 & _ & _). simpl in Ha1. step.
    apply (IH2 (Some a) fuel s1 Hrepr2); [set_solver|done|lia].
Qed.

(** X3. [bsp_traverse] calls the callback on every leaf of the tree, once
    each, first child before second, and on no other node, provided the
    callback leaves the tree in place (it may do anything else). *)
Theorem bsp_traverse_visits_leaves (cb : ptr -> M unit) (t : tree) (par : ptr)
    (fuel : nat) (s : state) :
  (forall a s u s', a ∈ leaves t -> repr (mem s) par t ->
                    cb (Some a) s = Some (u, s') -> repr (mem s') par t) ->
  repr (mem s) par t -> (depth t < fuel)%nat ->
  bsp_traverse fuel (Some (root_addr t)) (Some cb) s = visit cb (leaves t) s.
Proof.
  intros Hcb Hr Hfuel.
  by apply (bsp_traverse_tree (fun s => repr (mem s) par t) cb (leaves t) t Hcb par).
Qed.

(** A callback that allocates a node of its own for every occupied leaf
    it is shown, and copies the leaf's window into it. *)
Definition copy_window (leaf : ptr) : M unit :=
  let* n := load leaf in
  if window_id n =? NO_WINDOW then ret tt
  else
    let* p := calloc in
    match p with
    | Some _ => modify p (set_window_id (window_id n))
    | None => ret tt
    end.

Lemma copy_window_keeps h_par (t : tree) :
  forall a s u s', repr (mem s) h_par t -> copy_window (Some a) s = Some (u, s') ->
                   repr (mem s') h_par t.
Proof.
  intros a s u s' Hr. unfold copy_window, bind, load, calloc, modify, ret.
  destruct (mem s !! a) as [n|]; [|done].
  destruct (window_id n =? NO_WINDOW); [by intros [= _ <-]|].
  destruct (oracle s) as [|[] o]; cbn [mem oracle];
    rewrite ?lookup_insert_eq; intros [= _ <-]; cbn [mem]; try done.
  all: eapply repr_frame; [|exact Hr]; intros b Hb;
    destruct (repr_allocated _ _ _ _ Hr Hb) as [m Hm];
    rewrite !lookup_insert_ne; [done|intros <-; by rewrite fresh_lookup in Hm..].
Qed.

Lemma bsp_traverse_visits_leaves_example :
  bsp_traverse 16 (Some 1%positive) (Some copy_window)
               (state_after [Insert [] 1001; Insert [] 1002]) =
  visit copy_window [2%positive; 3%positive] (state_after [Insert [] 1001; Insert [] 1002]).
Proof.
  apply (bsp_traverse_visits_leaves copy_window two_windows None 16).
  - intros a s u s' _. apply copy_window_keeps.
  - apply two_windows_wf.
  - simpl. lia.
Defined.

(** ** Up and down

    [bsp_find_up_neighbor] and [bsp_find_down_neighbor] are the left and
    right searches with the test on [split_vertical] negated: they do in a
    tree what the left and right searches do in the tree with every
    orientation flipped. *)

Definition transpose_node (n : BSPNode) : BSPNode :=
  set_split_vertical (negb (split_vertical n)) n.

Definition transpose (s : state) : state :=
  mkState (transpose_node <$> mem s) (oracle s).

Fixpoint transposeT (t : tree) : tree :=
  match t with
  | Leaf a w r sv => Leaf a w r (negb sv)
  | Node a w r sv t1 t2 => Node a w r (negb sv) (transposeT t1) (transposeT t2)
  end.

(** The walks of [bsp_find_down_neighbor] and [bsp_find_up_neighbor] on
    trees: they turn at horizontal splits. *)
Fixpoint downT (t : tree) (a : loc) : option loc :=
  match t with
  | Leaf _ _ _ _ => None
  | Node c _ _ sv t1 t2 =>
      if decide (a = c) then None
      else if decide (a ∈ addrs t1) then
        match downT t1 a with
        | Some b => Some b
        | None => if sv then None else Some (leftmostT t2)
        end
      else downT t2 a
  end.

Fixpoint upT (t : tree) (a : loc) : option loc :=
  match t with
  | Leaf _ _ _ _ => None
  | Node c _ _ sv t1 t2 =>
      if decide (a = c) then None
      else if decide (a ∈ addrs t1) then upT t1 a
      else
        match upT t2 a with
        | Some b => Some b
        | None => if sv then None else Some (rightmostT t1)
        end
  end.

(** What a computation returns, whatever state it ends in. *)
Definition result {A} (r : option (A * state)) : option A := fst <$> r.

Lemma result_pure {A} (m : M A) (s : state) (a : A) :
  (forall r s', m s = Some (r, s') -> s' = s) ->
  result (m s) = Some a -> m s = Some (a, s).
Proof.
  intros Hpure. destruct (m s) as [[r s']|] eqn:E; [|done].
  intros [= ->]. by rewrite (Hpure _ _ eq_refl).
Qed.

Lemma root_addr_transposeT t : root_addr (transposeT t) = root_addr t.
Proof. by destruct t. Qed.

Lemma addrs_transposeT t : addrs (transposeT t) = addrs t.
Proof. induction t; simpl; congruence. Qed.

Lemma depth_transposeT t : depth (transposeT t) = depth t.
Proof. induction t; simpl; congruence. Qed.

Lemma leftmostT_transposeT t : leftmostT (transposeT t) = leftmostT t.
Proof. induction t; simpl; congruence. Qed.

Lemma rightmostT_transposeT t : rightmostT (transposeT t) = rightmostT t.
Proof. induction t; simpl; congruence. Qed.

Lemma downT_transposeT t a : downT t a = rightT (transposeT t) a.
Proof.
  induction t as [|c v r sv t1 IH1 t2 IH2]; [done|]. simpl.
  rewrite addrs_transposeT, leftmostT_transposeT, IH1, IH2. by destruct sv.
Qed.

Lemma upT_transposeT t a : upT t a = leftT (transposeT t) a.
Proof.
  induction t as [|c v r sv t1 IH1 t2 IH2]; [done|]. simpl.
  rewrite addrs_transposeT, rightmostT_transposeT, IH1, IH2. by destruct sv.
Qed.

Lemma wf_transpose (s : state) (par : ptr) (t : tree) :
  wf (mem s) par t -> wf (mem (transpose s)) par (transposeT t).
Proof.
  intros [Hr Hnd]. split; [|by rewrite addrs_transposeT]. clear Hnd. cbn [transpose mem].
  revert par Hr. induction t as [a v r sv|a v r sv t1 IH1 t2 IH2]; intros par; simpl.
  - intros [Ha _]. split; [|done]. by rewrite lookup_fmap, Ha.
  - intros (Ha & H1 & H2). split_and!; [|by apply IH1|by apply IH2].
    by rewrite lookup_fmap, Ha, !root_addr_transposeT.
Qed.

Lemma leftmost_transpose fuel : forall node s,
  result (bsp_find_leftmost_leaf fuel node (transpose s)) =
  result (bsp_find_leftmost_leaf fuel node s).
Proof.
  induction fuel as [|fuel IH]; intros node s; [done|]. simpl.
  destruct node as [a|]; [|done]. unfold bind, load. cbn [transpose mem].
  rewrite lookup_fmap. destruct (mem s !! a) as [n|]; [|done]. simpl.
  destruct (is_leaf n); [done|apply IH].
Qed.

Lemma rightmost_transpose fuel : forall node s,
  result (bsp_find_rightmost_leaf fuel node (transpose s)) =
  result (bsp_find_rightmost_leaf fuel node s).
Proof.
  induction fuel as [|fuel IH]; intros node s; [done|]. simpl.
  destruct node as [a|]; [|done]. unfold bind, load. cbn [transpose mem].
  rewrite lookup_fmap. destruct (mem s !! a) as [n|]; [|done]. simpl.
  destruct (is_leaf n); [done|apply IH].
Qed.

Ltac walk_transpose IH leaf_transpose :=
  unfold bind, load; cbn [transpose mem]; rewrite lookup_fmap;
  match goal with |- context [mem ?s !! ?a] => destruct (mem s !! a) as [?n|]; [|done] end;
  simpl;
  match goal with |- context [parent ?n] => destruct (parent n) as [?p|]; [|done] end;
  cbn [transpose mem]; rewrite lookup_fmap;
  match goal with |- context [mem ?s !! ?p] => destruct (mem s !! p) as [?m|]; [|done] end;
  simpl;
  match goal with
  | |- context [if ?b then _ else _] =>
      destruct b; [symmetry; apply leaf_transpose|apply IH]
  end.

Lemma down_transpose fuel : forall current s,
  result (bsp_find_down_neighbor fuel current s) =
  result (bsp_find_right_neighbor fuel current (transpose s)).
Proof.
  induction fuel as [|fuel IH]; intros [a|] s; try done; simpl;
    walk_transpose IH leftmost_transpose.
Qed.

Lemma up_transpose fuel : forall current s,
  result (bsp_find_up_neighbor fuel current s) =
  result (bsp_find_left_neighbor fuel current (transpose s)).
Proof.
  induction fuel as [|fuel IH]; intros [a|] s; try done; simpl;
    walk_transpose IH rightmost_transpose.
Qed.

Lemma bsp_find_down_neighbor_tree (s : state) (t : tree) (a : loc) (fuel : nat) :
  wf (mem s) None t -> a ∈ addrs t -> (2 * depth t + 1 < fuel)%nat ->
  bsp_find_down_neighbor fuel (Some a) s = Some (downT t a, s).
Proof.
  intros Hwf Hin Hfuel. apply result_pure; [apply bsp_find_down_neighbor_pure|].
  rewrite down_transpose, downT_transposeT.
  rewrite (bsp_find_right_neighbor_tree (transpose s) (transposeT t) a fuel); [done|..].
  - by apply wf_transpose.
  - by rewrite addrs_transposeT.
  - by rewrite depth_transposeT.
Qed.

Lemma bsp_find_up_neighbor_tree (s : state) (t : tree) (a : loc) (fuel : nat) :
  wf (mem s) None t -> a ∈ addrs t -> (2 * depth t + 1 < fuel)%nat ->
  bsp_find_up_neighbor fuel (Some a) s = Some (upT t a, s).
Proof.
  intros Hwf Hin Hfuel. apply result_pure; [apply bsp_find_up_neighbor_pure|].
  rewrite up_transpose, upT_transposeT.
  rewrite (bsp_find_left_neighbor_tree (transpose s) (transposeT t) a fuel); [done|..].
  - by apply wf_transpose.
  - by rewrite addrs_transposeT.
  - by rewrite depth_transposeT.
Qed.

Lemma leftmostT_leaf t : leftmostT t ∈ leaves t.
Proof. induction t; simpl; set_solver. Qed.

Lemma rightmostT_leaf t : rightmostT t ∈ leaves t.
Proof. induction t; simpl; set_solver. Qed.

Lemma leaves_addrs t b : b ∈ leaves t -> b ∈ addrs t.
Proof. induction t; simpl; set_solver. Qed.

Lemma leaves_transposeT t : leaves (transposeT t) = leaves t.
Proof. induction t; simpl; congruence. Qed.

Lemma repr_leaf h par t b :
  repr h par t -> b ∈ leaves t -> exists n, h !! b = Some n ∧ is_leaf n = true.
Proof.
  revert par. induction t as [a v r sv|a v r sv t1 IH1 t2 IH2]; intros par; simpl.
  - intros [Ha _] ->%list_elem_of_singleton. eauto.
  - intros (_ & H1 & H2) [Hb|Hb]%elem_of_app; eauto.
Qed.

Lemma rightT_leaf t a b :
  NoDup (addrs t) -> rightT t a = Some b -> b ∈ leaves t ∧ b <> a.
Proof.
  revert b. induction t as [|c v r sv t1 IH1 t2 IH2]; intros b Hnd; [done|].
  pose proof (addrs_split _ _ _ _ _ _ Hnd) as (H1 & H2 & Hc1 & Hc2 & Hd). simpl.
  destruct (decide (a = c)); [done|]. destruct (decide (a ∈ addrs t1)) as [Hin|Hnin].
  - destruct (rightT t1 a) as [b0|].
    + intros [= <-]. destruct (IH1 _ H1 eq_refl). set_solver.
    + destruct sv; [|done]. intros [= <-].
      pose proof (leftmostT_leaf t2) as Hl. pose proof (leaves_addrs _ _ Hl).
      split; [set_solver|]. intros <-. by apply (Hd _ Hin).
  - intros Hb. destruct (IH2 _ H2 Hb). set_solver.
Qed.

Lemma leftT_leaf t a b :
  NoDup (addrs t) -> leftT t a = Some b -> b ∈ leaves t ∧ b <> a.
Proof.
  revert b. induction t as [|c v r sv t1 IH1 t2 IH2]; intros b Hnd; [done|].
  pose proof (addrs_split _ _ _ _ _ _ Hnd) as (H1 & H2 & Hc1 & Hc2 & Hd). simpl.
  destruct (decide (a = c)); [done|]. destruct (decide (a ∈ addrs t1)) as [Hin|Hnin].
  - intros Hb. destruct (IH1 _ H1 Hb). set_solver.
  - destruct (leftT t2 a) as [b0|].
    + intros [= <-]. destruct (IH2 _ H2 eq_refl). set_solver.
    + destruct sv; [|done]. intros [= <-].
      pose proof (rightmostT_leaf t1) as Hl. pose proof (leaves_addrs _ _ Hl).
      split; [set_solver|]. by intros <-.
Qed.

Lemma downT_leaf t a b :
  NoDup (addrs t) -> downT t a = Some b -> b ∈ leaves t ∧ b <> a.
Proof.
  rewrite downT_transposeT, <- (leaves_transposeT t), <- (addrs_transposeT t).
  apply rightT_leaf.
Qed.

Lemma upT_leaf t a b :
  NoDup (addrs t) -> upT t a = Some b -> b ∈ leaves t ∧ b <> a.
Proof.
  rewrite upT_transposeT, <- (leaves_transposeT t), <- (addrs_transposeT t).
  apply leftT_leaf.
Qed.

(** X4. Whatever the direction string, [bsp_find_neighbor] applied to a
    node of a tree returns, without changing the state, either [NULL] or
    a leaf of that tree other than the node itself. *)
Theorem neighbor_is_another_leaf (s : state) (t : tree) (a : loc) (d : string)
    (fuel : nat) :
  wf (mem s) None t -> a ∈ addrs t -> (2 * depth t + 1 < fuel)%nat ->
  exists r,
    bsp_find_neighbor fuel (Some a) (Some d) s = Some (r, s) ∧
    forall b, r = Some b ->
              b <> a ∧ b ∈ leaves t ∧ exists n, mem s !! b = Some n ∧ is_leaf n = true.
Proof.
  intros Hwf Hin Hfuel. pose proof Hwf as [Hr Hnd].
  assert (Hleaf : forall r, (forall b, r = Some b -> b ∈ leaves t ∧ b <> a) ->
            forall b, r = Some b ->
              b <> a ∧ b ∈ leaves t ∧ exists n, mem s !! b = Some n ∧ is_leaf n = true).
  { intros r H b Hb. destruct (H b Hb) as [Hl Hne]. split_and!; [done..|].
    by eapply repr_leaf. }
  unfold bsp_find_neighbor. repeat case_match.
  - rewrite (bsp_find_left_neighbor_tree s t a fuel) by done.
    eexists. split; [done|]. apply Hleaf. intros b. by apply leftT_leaf.
  - rewrite (bsp_find_right_neighbor_tree s t a fuel) by done.
    eexists. split; [done|]. apply Hleaf. intros b. by apply rightT_leaf.
  - rewrite (bsp_find_up_neighbor_tree s t a fuel) by done.
    eexists. split; [done|]. apply Hleaf. intros b. by apply upT_leaf.
  - rewrite (bsp_find_down_neighbor_tree s t a fuel) by done.
    eexists. split; [done|]. apply Hleaf. intros b. by apply downT_leaf.
  - exists None. split; [done|]. intros b [=].
Qed.

Lemma neighbor_is_another_leaf_example :
  exists r,
    bsp_find_neighbor 16 (Some 2%positive) (Some "down"%string)
      (state_after [Insert [] 1001; Insert [] 1002; Insert [] 1003]) =
      Some (r, state_after [Insert [] 1001; Insert [] 1002; Insert [] 1003]) ∧
    forall b, r = Some b ->
      b <> 2%positive ∧ b ∈ leaves three_windows ∧
      exists n, mem (state_after [Insert [] 1001; Insert [] 1002; Insert [] 1003]) !! b = Some n ∧
                is_leaf n = true.
Proof.
  apply (neighbor_is_another_leaf _ three_windows).
  - apply three_windows_wf.
  - apply (bool_decide_unpack _). by vm_compute.
  - simpl. lia.
Defined.

(** X5. The outermost leaves have no neighbour on their own side: the
    leaf [bsp_find_leftmost_leaf] finds from the root has no left
    neighbour, the one [bsp_find_rightmost_leaf] finds no right
    neighbour, and likewise for the topmost and bottommost leaves. *)
Theorem outermost_leaves_have_no_neighbor (s : state) (t : tree) (fuel : nat) :
  wf (mem s) None t -> (2 * depth t + 1 < fuel)%nat ->
  (let* l := bsp_find_leftmost_leaf fuel (Some (root_addr t)) in
   bsp_find_left_neighbor fuel l) s = Some (None, s) ∧
  (let* l := bsp_find_rightmost_leaf fuel (Some (root_addr t)) in
   bsp_find_right_neighbor fuel l) s = Some (None, s) ∧
  (let* l := bsp_find_topmost_leaf fuel (Some (root_addr t)) in
   bsp_find_up_neighbor fuel l) s = Some (None, s) ∧
  (let* l := bsp_find_bottommost_leaf fuel (Some (root_addr t)) in
   bsp_find_down_neighbor fuel l) s = Some (None, s).
Proof.
  intros Hwf Hfuel. pose proof Hwf as [Hr Hnd].
  pose proof (leftmostT_in t) as Hl. pose proof (rightmostT_in t) as Hrm.
  assert (Hnd' : NoDup (addrs (transposeT t))) by by rewrite addrs_transposeT.
  unfold bsp_find_topmost_leaf, bsp_find_bottommost_leaf.
  split_and!.
  - rewrite (bind_run _ _ _ _ _ (bsp_find_leftmost_leaf_tree t s None fuel Hr ltac:(lia))).
    by rewrite (bsp_find_left_neighbor_tree s t _ fuel Hwf Hl Hfuel), leftT_leftmost.
  - rewrite (bind_run _ _ _ _ _ (bsp_find_rightmost_leaf_tree t s None fuel Hr ltac:(lia))).
    by rewrite (bsp_find_right_neighbor_tree s t _ fuel Hwf Hrm Hfuel), rightT_rightmost.
  - rewrite (bind_run _ _ _ _ _ (bsp_find_leftmost_leaf_tree t s None fuel Hr ltac:(lia))).
    rewrite (bsp_find_up_neighbor_tree s t _ fuel Hwf Hl Hfuel), upT_transposeT.
    by rewrite <- leftmostT_transposeT, leftT_leftmost.
  - rewrite (bind_run _ _ _ _ _ (bsp_find_rightmost_leaf_tree t s None fuel Hr ltac:(lia))).
    rewrite (bsp_find_down_neighbor_tree s t _ fuel Hwf Hrm Hfuel), downT_transposeT.
    by rewrite <- rightmostT_transposeT, rightT_rightmost.
Qed.

Lemma outermost_leaves_have_no_neighbor_example :
  (let* l := bsp_find_leftmost_leaf 16 (Some 1%positive) in
   bsp_find_left_neighbor 16 l)
    (state_after [Insert [] 1001; Insert [] 1002; Insert [] 1003]) =
    Some (None, state_after [Insert [] 1001; Insert [] 1002; Insert [] 1003]) ∧
  (let* l := bsp_find_rightmost_leaf 16 (Some 1%positive) in
   bsp_find_right_neighbor 16 l)
    (state_after [Insert [] 1001; Insert [] 1002; Insert [] 1003]) =
    Some (None, state_after [Insert [] 1001; Insert [] 1002; Insert [] 1003]) ∧
  (let* l := bsp_find_topmost_leaf 16 (Some 1%positive) in
   bsp_find_up_neighbor 16 l)
    (state_after [Insert [] 1001; Insert [] 1002; Insert [] 1003]) =
    Some (None, state_after [Insert [] 1001; Insert [] 1002; Insert [] 1003]) ∧
  (let* l := bsp_find_bottommost_leaf 16 (Some 1%positive) in
   bsp_find_down_neighbor 16 l)
    (state_after [Insert [] 1001; Insert [] 1002; Insert [] 1003]) =
    Some (None, state_after [Insert [] 1001; Insert [] 1002; Insert [] 1003]).
Proof.
  apply (outermost_leaves_have_no_neighbor _ three_windows 16).
  - apply three_windows_wf.
  - simpl. lia.
Defined.

Lemma downT_in t a b : downT t a = Some b -> b ∈ addrs t.
Proof. rewrite downT_transposeT, <- (addrs_transposeT t). apply rightT_in. Qed.

(** X6. Down and up: if [bsp_find_down_neighbor] applied to a node [a]
    of a tree returns [b], then [bsp_find_up_neighbor] applied to [b]
    returns some node [a'] whose down neighbour is [b] again. *)
Theorem down_neighbor_has_up_neighbor (s : state) (t : tree) (a b : loc) (fuel : nat) :
  wf (mem s) None t -> a ∈ addrs t -> (2 * depth t + 1 < fuel)%nat ->
  bsp_find_down_neighbor fuel (Some a) s = Some (Some b, s) ->
  exists a',
    bsp_find_up_neighbor fuel (Some b) s = Some (Some a', s) ∧
    bsp_find_down_neighbor fuel (Some a') s = Some (Some b, s).
Proof.
  intros Hwf Hin Hfuel Hdown. pose proof Hwf as [Hr Hnd].
  rewrite (bsp_find_down_neighbor_tree s t a fuel Hwf Hin Hfuel) in Hdown.
  injection Hdown as Hdown. pose proof (downT_in _ _ _ Hdown) as Hinb.
  rewrite downT_transposeT in Hdown.
  destruct (right_then_left (transposeT t) a b) as (a' & Hl & Hr' & Hin');
    [by rewrite addrs_transposeT|done|].
  rewrite addrs_transposeT in Hin'.
  exists a'. split.
  - by rewrite (bsp_find_up_neighbor_tree s t b fuel Hwf Hinb Hfuel), upT_transposeT, Hl.
  - by rewrite (bsp_find_down_neighbor_tree s t a' fuel Hwf Hin' Hfuel), downT_transposeT, Hr'.
Qed.

Lemma down_neighbor_has_up_neighbor_example :
  exists a',
    bsp_find_up_neighbor 16 (Some 5%positive)
      (state_after [Insert [] 1001; Insert [] 1002; Insert [] 1003]) =
      Some (Some a', state_after [Insert [] 1001; Insert [] 1002; Insert [] 1003]) ∧
    bsp_find_down_neighbor 16 (Some a')
      (state_after [Insert [] 1001; Insert [] 1002; Insert [] 1003]) =
      Some (Some 5%positive, state_after [Insert [] 1001; Insert [] 1002; Insert [] 1003]).
Proof.
  apply (down_neighbor_has_up_neighbor _ three_windows 4%positive 5%positive 16).
  - apply three_windows_wf.
  - apply (bool_decide_unpack _). by vm_compute.
  - simpl. lia.
  - by vm_compute.
Defined.

(** ** Looking a window up *)

Lemma findT_leaf h par t w a :
  repr h par t -> findT w t = Some a ->
  a ∈ leaves t ∧ exists n, h !! a = Some n ∧ is_leaf n = true ∧ window_id n = w.
Proof.
  revert par. induction t as [c v r sv|c v r sv t1 IH1 t2 IH2]; intros par; simpl.
  - intros [Hc _]. destruct (v =? w) eqn:E; [|done]. apply Z.eqb_eq in E as ->.
    intros [= <-]. split; [set_solver|]. eauto.
  - intros (_ & H1 & H2). destruct (findT w t1) as [a1|] eqn:E.
    + intros [= <-]. destruct (IH1 _ H1 eq_refl). set_solver.
    + intros Ha. destruct (IH2 _ H2 Ha). set_solver.
Qed.

Lemma removeT_found w t : fst (removeT w t) = true <-> w ∈ leaf_ids t.
Proof.
  induction t as [c v r sv|c v r sv t1 IH1 t2 IH2]; simpl.
  - destruct (v =? w) eqn:E; [apply Z.eqb_eq in E|apply Z.eqb_neq in E]; set_solver.
  - destruct (removeT w t1) as [[] t1']; simpl in *; [set_solver|].
    destruct (removeT w t2) as [[] t2']; simpl in *; [set_solver|].
    assert (w ∉ leaf_ids t1) by (rewrite <- IH1; done).
    assert (w ∉ leaf_ids t2) by (rewrite <- IH2; done). set_solver.
Qed.

Lemma insertT_holds f1 f2 w t : w ∈ leaf_ids (insertT f1 f2 w t).
Proof.
  induction t as [c v r sv|c v r sv t1 IH1 t2 _]; simpl.
  - case_match; simpl; set_solver.
  - set_solver.
Qed.

(** X7. [bsp_find_node_for_window] does not change the state; it returns
    [NULL] exactly when no leaf of the tree stores the identifier, and
    otherwise a leaf of the tree that stores it. *)
Theorem find_returns_leaf_with_window (s : state) (par : ptr) (t : tree) (fuel : nat)
    (w : Z) :
  repr (mem s) par t -> (depth t < fuel)%nat ->
  exists r,
    bsp_find_node_for_window fuel (Some (root_addr t)) w s = Some (r, s) ∧
    (r = None <-> w ∉ leaf_ids t) ∧
    forall a, r = Some a ->
              a ∈ leaves t ∧
              exists n, mem s !! a = Some n ∧ is_leaf n = true ∧ window_id n = w.
Proof.
  intros Hr Hfuel. exists (findT w t). split_and!.
  - by apply (bsp_find_node_for_window_tree t s par).
  - apply findT_None.
  - intros a Ha. by eapply findT_leaf.
Qed.

Lemma find_returns_leaf_with_window_example :
  exists r,
    bsp_find_node_for_window 16 (Some 1%positive) 1002
      (state_after [Insert [] 1001; Insert [] 1002]) =
      Some (r, state_after [Insert [] 1001; Insert [] 1002]) ∧
    (r = None <-> 1002 ∉ leaf_ids two_windows) ∧
    forall a, r = Some a ->
              a ∈ leaves two_windows ∧
              exists n, mem (state_after [Insert [] 1001; Insert [] 1002]) !! a = Some n ∧
                        is_leaf n = true ∧ window_id n = 1002.
Proof.
  apply (find_returns_leaf_with_window _ None two_windows 16 1002).
  - apply two_windows_wf.
  - simpl. lia.
Defined.

(** X8. [bsp_remove_window] returns [true] exactly when
    [bsp_find_node_for_window], asked before the removal, finds the
    identifier. *)
Theorem remove_succeeds_iff_found (s : state) (par : ptr) (t : tree) (fuel : nat) (w : Z) :
  wf (mem s) par t -> (depth t < fuel)%nat ->
  exists (b : bool) (s' : state) (r : ptr),
    bsp_remove_window fuel (Some (root_addr t)) w s = Some (b, s') ∧
    bsp_find_node_for_window fuel (Some (root_addr t)) w s = Some (r, s) ∧
    (b = true <-> r <> None).
Proof.
  intros Hwf Hfuel.
  destruct (bsp_remove_window_tree t s par fuel w Hwf Hfuel) as (s' & Hrun & _).
  exists (fst (removeT w t)), s', (findT w t). split_and!; [done| |].
  - apply (bsp_find_node_for_window_tree t s par); [apply Hwf|done].
  - rewrite removeT_found, findT_None. destruct (decide (w ∈ leaf_ids t)); tauto.
Qed.

Lemma remove_succeeds_iff_found_example :
  exists (b : bool) (s' : state) (r : ptr),
    bsp_remove_window 16 (Some 1%positive) 1002
      (state_after [Insert [] 1001; Insert [] 1002]) = Some (b, s') ∧
    bsp_find_node_for_window 16 (Some 1%positive) 1002
      (state_after [Insert [] 1001; Insert [] 1002]) =
      Some (r, state_after [Insert [] 1001; Insert [] 1002]) ∧
    (b = true <-> r <> None).
Proof.
  apply (remove_succeeds_iff_found _ None two_windows 16 1002).
  - apply two_windows_wf.
  - simpl. lia.
Defined.

(** X9. Insert, then look up: after [bsp_insert] has put an identifier
    into a tree (allocations succeeding), [bsp_find_node_for_window] on
    the same root returns a leaf that stores it. *)
Theorem insert_then_find (s : state) (par : ptr) (t : tree) (fuel : nat) (w : Z) :
  wf (mem s) par t -> never_fails (oracle s) -> (depth t + 1 < fuel)%nat ->
  exists (s' : state) (a : loc) (n : BSPNode),
    (bsp_insert fuel (Some (root_addr t)) w ;;
     bsp_find_node_for_window fuel (Some (root_addr t)) w) s = Some (Some a, s') ∧
    mem s' !! a = Some n ∧ is_leaf n = true ∧ window_id n = w.
Proof.
  intros Hwf Ho Hfuel.
  destruct (bsp_insert_tree t s par fuel w Hwf Ho ltac:(lia))
    as (f1 & f2 & s' & Hrun & _ & _ & _ & [[Hr' _] _] & _).
  pose proof (depth_insertT f1 f2 w t) as Hd.
  pose proof (bsp_find_node_for_window_tree _ s' par fuel w Hr' ltac:(lia)) as Hfind.
  rewrite insertT_root in Hfind.
  destruct (findT w (insertT f1 f2 w t)) as [a|] eqn:E.
  - destruct (findT_leaf _ _ _ _ _ Hr' E) as (_ & n & Hn).
    exists s', a, n. by rewrite (bind_run _ _ _ _ _ Hrun).
  - apply findT_None in E. destruct E. apply insertT_holds.
Qed.

Lemma insert_then_find_example :
  exists (s' : state) (a : loc) (n : BSPNode),
    (bsp_insert 16 (Some 1%positive) 1003 ;;
     bsp_find_node_for_window 16 (Some 1%positive) 1003)
      (state_after [Insert [] 1001; Insert [] 1002]) = Some (Some a, s') ∧
    mem s' !! a = Some n ∧ is_leaf n = true ∧ window_id n = 1003.
Proof.
  apply (insert_then_find _ None two_windows 16 1003).
  - apply two_windows_wf.
  - constructor.
  - simpl. lia.
Defined.

(** X10. What a removal changes: [bsp_remove_window] takes one
    occurrence of the identifier out of the windows the tree holds, if
    there is one, and keeps every other window; the root stays where it
    is, with its rectangle. *)
Theorem remove_takes_one_window (s : state) (par : ptr) (t : tree) (fuel : nat) (w : Z) :
  wf (mem s) par t -> (depth t < fuel)%nat ->
  exists (b : bool) (s' : state) (t' : tree),
    bsp_remove_window fuel (Some (root_addr t)) w s = Some (b, s') ∧
    wf (mem s') par t' ∧ root_addr t' = root_addr t ∧ root_rect t' = root_rect t ∧
    windows t ≡ₚ (if decide (w ∈ windows t) then [w] else []) ++ windows t'.
Proof.
  intros Hwf Hfuel.
  destruct (bsp_remove_window_tree t s par fuel w Hwf Hfuel)
    as (s' & Hrun & _ & [Hwf' _] & _).
  exists (fst (removeT w t)), s', (snd (removeT w t)). split_and!; [done..| | |].
  - apply removeT_root.
  - apply removeT_rect.
  - apply removeT_windows.
Qed.

Lemma remove_takes_one_window_example :
  exists (b : bool) (s' : state) (t' : tree),
    bsp_remove_window 16 (Some 1%positive) 1001
      (state_after [Insert [] 1001; Insert [] 1002; Insert [] 1003]) = Some (b, s') ∧
    wf (mem s') None t' ∧ root_addr t' = 1%positive ∧ root_rect t' = screen ∧
    windows three_windows ≡ₚ
      (if decide (1001 ∈ windows three_windows) then [1001] else []) ++ windows t'.
Proof.
  apply (remove_takes_one_window _ None three_windows 16 1001).
  - apply three_windows_wf.
  - simpl. lia.
Defined.

(** ** After a failed split *)

Lemma bsp_split_leaf_fails (s : state) (a : loc) (n : BSPNode) (w : Z) (o : list bool) :
  mem s !! a = Some n -> is_leaf n = true ->
  oracle s = false :: o ∨ oracle s = true :: false :: o ->
  bsp_split_leaf (Some a) w s = Some (tt, mkState (<[a := half_split n]> (mem s)) o).
Proof.
  intros Ha Hleaf Ho.
  unfold bsp_split_leaf. step. rewrite Hleaf. cbn [negb]. do 2 step.
  destruct (split_rects (rect n)) as [r1 r2].
  destruct Ho as [Ho|Ho].
  - erewrite bind_calloc_fail by exact Ho. unfold ret, half_split.
    by rewrite insert_insert_eq.
  - rewrite bind_calloc
      by (cbn [oracle]; rewrite Ho; apply allocs_succeed_S; split;
          [done|apply Forall_nil; done]).
    cbn [mem oracle]. rewrite Ho. cbn [tail]. rewrite insert_insert_eq.
    set (h := <[a := _]> (mem s)). set (f1 := fresh (dom h)).
    assert (Hf1 : h !! f1 = None) by apply fresh_lookup.
    assert (Hne : f1 <> a).
    { intros E. rewrite E in Hf1. unfold h in Hf1. by rewrite lookup_insert_eq in Hf1. }
    clearbody f1.
    assert (Hha : h !! a = Some (half_split n)) by apply lookup_insert_eq.
    do 5 step. erewrite bind_calloc_fail by reflexivity. step.
    unfold ret. apply done_eq; [|done].
    apply map_eq. intros i. destruct (decide (i = f1)) as [->|Hi].
    + by rewrite lookup_delete_eq.
    + by rewrite lookup_delete_ne, !(lookup_insert_ne _ f1) by done.
Qed.

(** X11. A failed allocation in [bsp_split_leaf] takes the leaf out of
    service: afterwards [bsp_find_node_for_window] finds no identifier at
    that node, not even the window the leaf held, and [bsp_insert] on it
    stores nothing. *)
Theorem failed_split_loses_leaf (s : state) (a : loc) (n : BSPNode) (w : Z)
    (o : list bool) (fuel : nat) :
  mem s !! a = Some n -> is_leaf n = true -> first n = None -> second n = None ->
  oracle s = false :: o ∨ oracle s = true :: false :: o -> (1 < fuel)%nat ->
  exists s',
    bsp_split_leaf (Some a) w s = Some (tt, s') ∧
    (forall v, bsp_find_node_for_window fuel (Some a) v s' = Some (None, s')) ∧
    (forall v, bsp_insert fuel (Some a) v s' = Some (tt, s')).
Proof.
  intros Ha Hleaf H1 H2 Ho Hfuel. eexists. split; [by eapply bsp_split_leaf_fails|].
  destruct fuel as [|[|fuel]]; [lia..|].
  assert (Hl : mem (mkState (<[a := half_split n]> (mem s)) o) !! a = Some (half_split n))
    by apply lookup_insert_eq.
  split; intros v.
  - cbn [bsp_find_node_for_window]. erewrite bind_load by exact Hl.
    cbn [half_split is_leaf set_split_vertical set_is_leaf first second]. by rewrite H1, H2.
  - cbn [bsp_insert]. erewrite bind_load by exact Hl.
    cbn [half_split is_leaf set_split_vertical set_is_leaf first second]. by rewrite H1.
Qed.

Lemma failed_split_loses_leaf_example :
  exists s',
    bsp_split_leaf (Some 1%positive) 8 (mkState occupied_root [false]) = Some (tt, s') ∧
    (forall v, bsp_find_node_for_window 16 (Some 1%positive) v s' = Some (None, s')) ∧
    (forall v, bsp_insert 16 (Some 1%positive) v s' = Some (tt, s')).
Proof.
  apply (failed_split_loses_leaf (mkState occupied_root [false]) 1%positive
           (mkNode true 7 (rect_of 0 0 800 600) false None None None) 8 [] 16).
  - reflexivity.
  - reflexivity.
  - reflexivity.
  - reflexivity.
  - left. reflexivity.
  - lia.
Defined.

(** ** The order insertions leave the windows in *)

(** A tree whose first subtree is, at every node, at least as deep as
    the second. *)
Fixpoint left_deep (t : tree) : Prop :=
  match t with
  | Leaf _ _ _ _ => True
  | Node _ _ _ _ t1 t2 => left_deep t1 ∧ (depth t2 <= depth t1)%nat
  end.

Lemma leaf_ids_head t : exists tl, leaf_ids t = reached_id t :: tl.
Proof.
  induction t as [|c v r sv t1 [tl IH1] t2 _]; simpl; [eauto|].
  rewrite IH1. simpl. eauto.
Qed.

Lemma insertT_occupied f1 f2 w t tl :
  reached_id t <> NO_WINDOW -> leaf_ids t = reached_id t :: tl -> left_deep t ->
  leaf_ids (insertT f1 f2 w t) = reached_id t :: w :: tl ∧
  reached_id (insertT f1 f2 w t) = reached_id t ∧
  left_deep (insertT f1 f2 w t) ∧
  depth (insertT f1 f2 w t) = S (depth t).
Proof.
  intros Hocc. revert tl.
  induction t as [c v r sv|c v r sv t1 IH1 t2 _]; intros tl; simpl in *.
  - apply Z.eqb_neq in Hocc. rewrite Hocc. intros [= <-] _. simpl. split_and!; done.
  - destruct (leaf_ids_head t1) as [tl1 E1]. rewrite E1. simpl. intros [= <-] [Hl Hd].
    destruct (IH1 Hocc tl1 E1 Hl) as (-> & -> & Hl' & ->). split_and!; try done; lia.
Qed.

Lemma steps_inserts_order (ws : list Z) :
  forall (t t' : tree) (tl : list Z),
    steps t (map (Insert []) ws) t' -> reached_id t <> NO_WINDOW ->
    leaf_ids t = reached_id t :: tl -> left_deep t ->
    leaf_ids t' = reached_id t :: rev ws ++ tl ∧ depth t' = (depth t + length ws)%nat.
Proof.
  induction ws as [|w ws IH]; intros t t' tl Hsteps Hocc Hids Hl; simpl in Hsteps.
  - inversion Hsteps; subst. split; [done|]. simpl. lia.
  - apply steps_cons_inv in Hsteps as (f1 & f2 & Hsteps). simpl in Hsteps.
    destruct (insertT_occupied f1 f2 w t tl Hocc Hids Hl) as (Hids' & Hocc' & Hl' & Hd').
    rewrite <- Hocc' in Hids'.
    destruct (IH _ _ _ Hsteps ltac:(congruence) Hids' Hl') as [-> ->].
    rewrite Hocc', Hd'. simpl. rewrite <- app_assoc. split; [done|lia].
Qed.

(** X12. Insertion order: a session that inserts the identifiers
    [w :: ws] (none of them -1) into a fresh root ends with a tree whose
    leaves hold, first child before second, [w] and then [ws] in reverse
    order; the tree is as deep as [ws] is long, every insertion having
    split the leaf reached through [first] links. *)
Theorem insertions_stack_leftmost (screen_rect : CGRect) (w : Z) (ws : list Z)
    (o : list bool) (fuel : nat) :
  NO_WINDOW ∉ w :: ws -> never_fails o -> (length ws + 1 < fuel)%nat ->
  exists s' t',
    session fuel screen_rect (map (Insert []) (w :: ws)) (empty_state o) =
      Some (Some root0, s') ∧
    wf (mem s') None t' ∧ root_addr t' = root0 ∧
    leaf_ids t' = w :: rev ws ∧ depth t' = length ws.
Proof.
  intros Hw Ho Hfuel.
  destruct (session_tree fuel screen_rect (map (Insert []) (w :: ws)) o Ho)
    as (s' & t' & Hrun & Hwf & _ & _ & Hroot & Hsteps).
  { simpl. rewrite length_map. lia. }
  exists s', t'. split_and!; try done.
  - simpl in Hsteps. apply steps_cons_inv in Hsteps as (f1 & f2 & Hsteps).
    simpl in Hsteps.
    destruct (steps_inserts_order ws _ _ [] Hsteps) as [H _]; simpl; try done; [set_solver|].
    by rewrite H, app_nil_r.
  - simpl in Hsteps. apply steps_cons_inv in Hsteps as (f1 & f2 & Hsteps).
    simpl in Hsteps.
    destruct (steps_inserts_order ws _ _ [] Hsteps) as [_ H]; simpl; try done; set_solver.
Qed.

Lemma insertions_stack_leftmost_example :
  exists s' t',
    session 16 screen (map (Insert []) [1001; 1002; 1003; 1004]) (empty_state []) =
      Some (Some root0, s') ∧
    wf (mem s') None t' ∧ root_addr t' = root0 ∧
    leaf_ids t' = [1001; 1004; 1003; 1002] ∧ depth t' = 3%nat.
Proof.
  apply (insertions_stack_leftmost screen 1001 [1002; 1003; 1004] [] 16).
  - apply (bool_decide_unpack _). by vm_compute.
  - constructor.
  - simpl. lia.
Defined.

(** * The command line ([cli.c]) *)

Local Open Scope string_scope.

(** The commands of [cli.c] (cli.c:13). *)
Inductive Command :=
  | CMD_LIST | CMD_TILE | CMD_FOCUS | CMD_ADD | CMD_REMOVE
  | CMD_HELP | CMD_CONFIG | CMD_STATUS | CMD_QUIT | CMD_UNKNOWN.

(** [parse_command] (cli.c:33): a switch on the first character, then
    [strcmp] against the one word that starts with it.  A [NULL] string is
    [None]. *)
Definition parse_command (cmd : option string) : Command :=
  match cmd with
  | None => CMD_UNKNOWN
  | Some cmd =>
      let c := first_char cmd in
      if Ascii.eqb c "l" then (if String.eqb cmd "list" then CMD_LIST else CMD_UNKNOWN)
      else if Ascii.eqb c "t" then (if String.eqb cmd "tile" then CMD_TILE else CMD_UNKNOWN)
      else if Ascii.eqb c "f" then (if String.eqb cmd "focus" then CMD_FOCUS else CMD_UNKNOWN)
      else if Ascii.eqb c "a" then (if String.eqb cmd "add" then CMD_ADD else CMD_UNKNOWN)
      else if Ascii.eqb c "r" then (if String.eqb cmd "remove" then CMD_REMOVE else CMD_UNKNOWN)
      else if Ascii.eqb c "h" then (if String.eqb cmd "help" then CMD_HELP else CMD_UNKNOWN)
      else if Ascii.eqb c "c" then (if String.eqb cmd "config" then CMD_CONFIG else CMD_UNKNOWN)
      else if Ascii.eqb c "s" then (if String.eqb cmd "status" then CMD_STATUS else CMD_UNKNOWN)
      else if Ascii.eqb c "q" then (if String.eqb cmd "quit" then CMD_QUIT else CMD_UNKNOWN)
      else CMD_UNKNOWN
  end.

(** [validate_direction] (cli.c:82). *)
Definition validate_direction (direction : option string) : bool :=
  match direction with
  | None => false
  | Some d =>
      let c := first_char d in
      if Ascii.eqb c "l" then String.eqb d "left"
      else if Ascii.eqb c "r" then String.eqb d "right"
      else if Ascii.eqb c "u" then String.eqb d "up"
      else if Ascii.eqb c "d" then String.eqb d "down"
      else false
  end.

Ltac word_cases :=
  repeat match goal with
         | H : context [if Ascii.eqb ?c ?k then _ else _] |- _ =>
             destruct (Ascii.eqb c k) eqn:?
         | H : context [if String.eqb ?a ?b then _ else _] |- _ =>
             destruct (String.eqb_spec a b)
         | H : String.eqb ?a ?b = true |- _ => apply String.eqb_eq in H
         end.

Lemma validate_direction_words (d : string) :
  validate_direction (Some d) = true <-> valid_direction d.
Proof.
  split.
  - unfold validate_direction, valid_direction. intros H. word_cases; try done; auto.
  - by intros [-> | [-> | [-> | ->]]].
Qed.

(** X13. [validate_direction] accepts exactly the four words left,
    right, up and down: no prefix, no longer word, not the empty string,
    not [NULL]. *)
Theorem validate_direction_exact (d : string) :
  (validate_direction (Some d) = true <-> valid_direction d) ∧
  validate_direction None = false.
Proof. split; [apply validate_direction_words|done]. Qed.

(** X14. The direction check and the search agree: for every string
    that [validate_direction] accepts, [bsp_find_neighbor] runs the search
    the whole word names. *)
Theorem validated_direction_runs_named_search (d : string) (fuel : nat) (a : loc)
    (s : state) :
  validate_direction (Some d) = true ->
  (d = "left" ∧
   bsp_find_neighbor fuel (Some a) (Some d) s = bsp_find_left_neighbor fuel (Some a) s) ∨
  (d = "right" ∧
   bsp_find_neighbor fuel (Some a) (Some d) s = bsp_find_right_neighbor fuel (Some a) s) ∨
  (d = "up" ∧
   bsp_find_neighbor fuel (Some a) (Some d) s = bsp_find_up_neighbor fuel (Some a) s) ∨
  (d = "down" ∧
   bsp_find_neighbor fuel (Some a) (Some d) s = bsp_find_down_neighbor fuel (Some a) s).
Proof.
  intros H. apply validate_direction_words in H as [-> | [-> | [-> | ->]]]; auto 10.
Qed.

Lemma validated_direction_runs_named_search_example :
  ("up" = "left" ∧
   bsp_find_neighbor 16 (Some 5%positive) (Some "up")
     (state_after [Insert [] 1001; Insert [] 1002; Insert [] 1003]) =
   bsp_find_left_neighbor 16 (Some 5%positive)
     (state_after [Insert [] 1001; Insert [] 1002; Insert [] 1003])) ∨
  ("up" = "right" ∧
   bsp_find_neighbor 16 (Some 5%positive) (Some "up")
     (state_after [Insert [] 1001; Insert [] 1002; Insert [] 1003]) =
   bsp_find_right_neighbor 16 (Some 5%positive)
     (state_after [Insert [] 1001; Insert [] 1002; Insert [] 1003])) ∨
  ("up" = "up" ∧
   bsp_find_neighbor 16 (Some 5%positive) (Some "up")
     (state_after [Insert [] 1001; Insert [] 1002; Insert [] 1003]) =
   bsp_find_up_neighbor 16 (Some 5%positive)
     (state_after [Insert [] 1001; Insert [] 1002; Insert [] 1003])) ∨
  ("up" = "down" ∧
   bsp_find_neighbor 16 (Some 5%positive) (Some "up")
     (state_after [Insert [] 1001; Insert [] 1002; Insert [] 1003]) =
   bsp_find_down_neighbor 16 (Some 5%positive)
     (state_after [Insert [] 1001; Insert [] 1002; Insert [] 1003])).
Proof.
  apply (validated_direction_runs_named_search "up" 16 5%positive). reflexivity.
Defined.

(** X15. [parse_command] recognises each command by exactly its word:
    any other string, a prefix or an extension of a word included, is
    [CMD_UNKNOWN], as is [NULL]. *)
Theorem parse_command_exact (cmd : string) :
  (parse_command (Some cmd) = CMD_LIST <-> cmd = "list") ∧
  (parse_command (Some cmd) = CMD_TILE <-> cmd = "tile") ∧
  (parse_command (Some cmd) = CMD_FOCUS <-> cmd = "focus") ∧
  (parse_command (Some cmd) = CMD_ADD <-> cmd = "add") ∧
  (parse_command (Some cmd) = CMD_REMOVE <-> cmd = "remove") ∧
  (parse_command (Some cmd) = CMD_HELP <-> cmd = "help") ∧
  (parse_command (Some cmd) = CMD_CONFIG <-> cmd = "config") ∧
  (parse_command (Some cmd) = CMD_STATUS <-> cmd = "status") ∧
  (parse_command (Some cmd) = CMD_QUIT <-> cmd = "quit") ∧
  parse_command None = CMD_UNKNOWN.
Proof.
  split_and!; try done; (split; [|by intros ->]);
    unfold parse_command; intros H; word_cases; done.
Qed.

Local Close Scope string_scope.

(** * Window identifiers ([window_control.c]) *)

Definition INT_MAX : Z := 2147483647.

(** [generate_window_id] (window_control.c:358): [return
    s_next_window_id++;] on the file's counter, which starts at 1000
    (window_control.c:19).  The counter is passed in and out; incrementing
    [INT_MAX] overflows a C [int], which is undefined. *)
Definition generate_window_id (s_next_window_id : Z) : option (Z * Z) :=
  if s_next_window_id <? INT_MAX
  then Some (s_next_window_id, s_next_window_id + 1)
  else None.

Definition s_next_window_id_initial : Z := 1000.

(** The two calls with which [wm_add_window] (window_manager.c:332-335)
    and [wm_organize_existing_windows] put a new window into a workspace:
    draw an identifier, insert it at the root. *)
Definition add_window (fuel : nat) (root : ptr) (counter : Z) (s : state) :
    option (Z * state) :=
  match generate_window_id counter with
  | None => None
  | Some (window_id', counter') =>
      match bsp_insert fuel root window_id' s with
      | Some (_, s') => Some (counter', s')
      | None => None
      end
  end.

Fixpoint add_windows (k : nat) (fuel : nat) (root : ptr) (counter : Z) (s : state) :
    option (Z * state) :=
  match k with
  | O => Some (counter, s)
  | S k =>
      match add_window fuel root counter s with
      | Some (counter', s') => add_windows k fuel root counter' s'
      | None => None
      end
  end.

Lemma add_windows_tree (k : nat) :
  forall (fuel : nat) (counter : Z) (s : state) (t : tree),
    wf (mem s) None t -> never_fails (oracle s) -> NoDup (windows t) ->
    (forall w, w ∈ windows t -> w < counter) -> 0 <= counter ->
    counter + Z.of_nat k <= INT_MAX -> (depth t + k < fuel)%nat ->
    exists s' t',
      add_windows k fuel (Some (root_addr t)) counter s = Some (counter + Z.of_nat k, s') ∧
      wf (mem s') None t' ∧ root_addr t' = root_addr t ∧ NoDup (windows t') ∧
      windows t' ≡ₚ seqZ counter (Z.of_nat k) ++ windows t.
Proof.
  induction k as [|k IH]; intros fuel counter s t Hwf Ho Hnd Hlt H0 Hmax Hfuel.
  - exists s, t. cbn [add_windows]. rewrite Z.add_0_r. by split_and!.
  - cbn [add_windows]. unfold add_window, generate_window_id.
    assert ((counter <? INT_MAX) = true) as -> by lia.
    destruct (bsp_insert_tree t s None fuel counter Hwf Ho ltac:(lia))
      as (f1 & f2 & s1 & Hrun & _ & _ & _ & [Hwf1 _] & Ho1).
    rewrite Hrun.
    assert (Hw : counter <> NO_WINDOW) by (unfold NO_WINDOW; lia).
    pose proof (insertT_windows f1 f2 counter t Hw) as Hperm.
    pose proof (depth_insertT f1 f2 counter t) as Hd.
    destruct (IH fuel (counter + 1) s1 (insertT f1 f2 counter t)) as (s' & t' & Hrun' & Hwf' & Hroot' & Hnd' & Hperm');
      try done; try lia.
    + rewrite Hperm. apply NoDup_cons. split; [|done].
      intros Hin. specialize (Hlt _ Hin). lia.
    + intros w. rewrite Hperm. intros [->|Hin]%elem_of_cons; [lia|].
      specialize (Hlt _ Hin). lia.
    + rewrite insertT_root in Hrun', Hroot'. exists s', t'.
      replace (counter + Z.of_nat (S k)) with (counter + 1 + Z.of_nat k) by lia.
      split_and!; try done.
      rewrite Hperm', Hperm. replace (Z.of_nat (S k)) with (Z.succ (Z.of_nat k)) by lia.
      rewrite (seqZ_cons counter) by lia. rewrite Z.pred_succ.
      replace (Z.succ counter) with (counter + 1) by lia.
      simpl. by rewrite Permutation_middle.
Qed.

(** X16. Identifiers drawn from the counter never collide: starting from
    a counter that is not negative and a tree whose windows are distinct
    and all below the counter (a fresh root and the initial counter 1000
    in particular), adding [k] windows one after the other, each with an
    identifier from [generate_window_id], the counter staying within
    [INT_MAX], gives a tree that holds the old windows and the [k]
    consecutive new identifiers, every one of them once. *)
Theorem counter_ids_stay_unique (k : nat) (fuel : nat) (counter : Z) (s : state)
    (t : tree) :
  wf (mem s) None t -> never_fails (oracle s) -> NoDup (windows t) ->
  (forall w, w ∈ windows t -> w < counter) -> 0 <= counter ->
  counter + Z.of_nat k <= INT_MAX -> (depth t + k < fuel)%nat ->
  exists s' t',
    add_windows k fuel (Some (root_addr t)) counter s = Some (counter + Z.of_nat k, s') ∧
    wf (mem s') None t' ∧ NoDup (windows t') ∧
    windows t' ≡ₚ seqZ counter (Z.of_nat k) ++ windows t.
Proof.
  intros Hwf Ho Hnd Hlt H0 Hmax Hfuel.
  destruct (add_windows_tree k fuel counter s t Hwf Ho Hnd Hlt H0 Hmax Hfuel)
    as (s' & t' & Hrun & Hwf' & _ & Hnd' & Hperm).
  by exists s', t'.
Qed.

Lemma counter_ids_stay_unique_example :
  exists s' t',
    add_windows 3 16 (Some 1%positive) s_next_window_id_initial (state_after []) =
      Some (1003, s') ∧
    wf (mem s') None t' ∧ NoDup (windows t') ∧
    windows t' ≡ₚ [1000; 1001; 1002].
Proof.
  destruct (counter_ids_stay_unique 3 16 s_next_window_id_initial (state_after [])
              (tree0 screen)) as (s' & t' & Hrun & Hwf & Hnd & Hperm).
  - split; [by vm_compute|]. apply (bool_decide_unpack _). by vm_compute.
  - constructor.
  - apply (bool_decide_unpack _). by vm_compute.
  - intros w Hw. vm_compute in Hw. by apply elem_of_nil in Hw.
  - done.
  - done.
  - simpl. lia.
  - exists s', t'. split_and!; [exact Hrun|exact Hwf|exact Hnd|exact Hperm].
Defined.

(** * Workspaces ([bsp.h], [window_manager.c])

    One tree per display.  [g_workspaces] and [g_workspace_count] of
    [window_manager.c] are the list of workspaces, passed explicitly. *)

(** [BSPWorkspace] (bsp.h:23). *)
Record BSPWorkspace := mkWorkspace {
  display_id : Z;
  bounds : CGRect;
  root : ptr
}.

(** [wm_find_bsp_node_for_window] (window_manager.c:262): the first
    workspace whose tree has the window. *)
Fixpoint wm_find_bsp_node_for_window (fuel : nat) (g_workspaces : list BSPWorkspace)
    (window_id' : Z) : M ptr :=
  match g_workspaces with
  | [] => ret None
  | ws :: g_workspaces =>
      let* node := bsp_find_node_for_window fuel (root ws) window_id' in
      match node with
      | Some _ => ret node
      | None => wm_find_bsp_node_for_window fuel g_workspaces window_id'
      end
  end.

(** [wm_remove_from_bsp_tree] (window_manager.c:426): stop at the first
    workspace whose tree gave the window up. *)
Fixpoint wm_remove_from_bsp_tree (fuel : nat) (g_workspaces : list BSPWorkspace)
    (window_id' : Z) : M unit :=
  match g_workspaces with
  | [] => ret tt
  | ws :: g_workspaces =>
      let* removed := bsp_remove_window fuel (root ws) window_id' in
      if removed : bool then ret tt
      else wm_remove_from_bsp_tree fuel g_workspaces window_id'
  end.

(** The trees of the workspaces: each one held by the heap as a whole
    tree, no node in two of them. *)
Definition forest (h : gmap loc BSPNode) (ts : list tree) : Prop :=
  Forall (fun t => repr h None t) ts ∧ NoDup (ts ≫= addrs).

Definition roots_of (g_workspaces : list BSPWorkspace) (ts : list tree) : Prop :=
  map root g_workspaces = map (fun t => Some (root_addr t)) ts.

Fixpoint findF (w : Z) (ts : list tree) : ptr :=
  match ts with
  | [] => None
  | t :: ts => match findT w t with Some a => Some a | None => findF w ts end
  end.

(** Take [w] out of the first tree that stores it. *)
Fixpoint removeF (w : Z) (ts : list tree) : list tree :=
  match ts with
  | [] => []
  | t :: ts => if fst (removeT w t) then snd (removeT w t) :: ts else t :: removeF w ts
  end.

Lemma roots_of_cons ws g t ts :
  roots_of (ws :: g) (t :: ts) -> root ws = Some (root_addr t) ∧ roots_of g ts.
Proof. unfold roots_of. simpl. by intros [= ? ?]. Qed.

Lemma roots_of_nil_r g : roots_of g [] -> g = [].
Proof. unfold roots_of. by destruct g. Qed.

Lemma roots_of_cons_r g t ts :
  roots_of g (t :: ts) -> exists ws g', g = ws :: g' ∧ root ws = Some (root_addr t) ∧ roots_of g' ts.
Proof.
  destruct g as [|ws g']; [done|]. intros [? ?]%roots_of_cons. eauto.
Qed.

Lemma wm_find_bsp_node_for_window_forest (ts : list tree) :
  forall (g : list BSPWorkspace) (s : state) (fuel : nat) (w : Z),
    roots_of g ts -> Forall (fun t => repr (mem s) None t) ts ->
    Forall (fun t => (depth t < fuel)%nat) ts ->
    wm_find_bsp_node_for_window fuel g w s = Some (findF w ts, s).
Proof.
  induction ts as [|t ts IH]; intros g s fuel w Hg Hr Hd.
  - by rewrite (roots_of_nil_r _ Hg).
  - apply roots_of_cons_r in Hg as (ws & g' & -> & Hroot & Hg').
    apply Forall_cons in Hr as [Hr Hrs]. apply Forall_cons in Hd as [Hd Hds].
    cbn [wm_find_bsp_node_for_window findF]. rewrite Hroot.
    rewrite (bind_run _ _ _ _ _ (bsp_find_node_for_window_tree t s None fuel w Hr Hd)).
    destruct (findT w t); [done|]. by apply IH.
Qed.

Lemma findF_None w ts : findF w ts = None <-> forall t, t ∈ ts -> w ∉ leaf_ids t.
Proof.
  induction ts as [|t ts IH]; simpl; [set_solver|].
  destruct (findT w t) eqn:E.
  - split; [done|]. intros H. assert (w ∉ leaf_ids t) as H'%findT_None by set_solver.
    congruence.
  - apply findT_None in E. rewrite IH. set_solver.
Qed.

Lemma findF_leaf h w ts a :
  Forall (fun t => repr h None t) ts -> findF w ts = Some a ->
  exists t n, t ∈ ts ∧ a ∈ leaves t ∧ h !! a = Some n ∧ is_leaf n = true ∧ window_id n = w.
Proof.
  induction ts as [|t ts IH]; [done|]. intros [Hr Hrs]%Forall_cons. simpl.
  destruct (findT w t) as [a'|] eqn:E.
  - intros [= ->]. destruct (findT_leaf _ _ _ _ _ Hr E) as (Hl & n & Hn).
    exists t, n. split; [set_solver|]. tauto.
  - intros Hf. destruct (IH Hrs Hf) as (t' & n & Hin & Hrest). exists t', n.
    split; [set_solver|done].
Qed.

(** X17. [wm_find_bsp_node_for_window] does not change the state; it
    returns [NULL] exactly when no workspace's tree stores the identifier
    in a leaf, and otherwise a leaf, of one of the trees, that stores it. *)
Theorem wm_find_searches_every_workspace (g : list BSPWorkspace) (ts : list tree)
    (s : state) (fuel : nat) (w : Z) :
  roots_of g ts -> forest (mem s) ts -> Forall (fun t => (depth t < fuel)%nat) ts ->
  exists r,
    wm_find_bsp_node_for_window fuel g w s = Some (r, s) ∧
    (r = None <-> forall t, t ∈ ts -> w ∉ leaf_ids t) ∧
    forall a, r = Some a ->
              exists t n, t ∈ ts ∧ a ∈ leaves t ∧
                          mem s !! a = Some n ∧ is_leaf n = true ∧ window_id n = w.
Proof.
  intros Hg [Hr _] Hd. exists (findF w ts). split_and!.
  - by apply wm_find_bsp_node_for_window_forest.
  - apply findF_None.
  - intros a. by apply findF_leaf.
Qed.

Lemma removeF_addrs w ts b : b ∈ removeF w ts ≫= addrs -> b ∈ ts ≫= addrs.
Proof.
  induction ts as [|u us IH]; simpl; [done|].
  destruct (fst (removeT w u)); simpl; rewrite !elem_of_app.
  - intros [Hb%removeT_addrs|Hb]; auto.
  - intros [Hb|Hb]; auto.
Qed.

Lemma wm_remove_from_bsp_tree_forest (ts : list tree) :
  forall (g : list BSPWorkspace) (s : state) (fuel : nat) (w : Z),
    roots_of g ts -> forest (mem s) ts -> Forall (fun t => (depth t < fuel)%nat) ts ->
    exists s',
      wm_remove_from_bsp_tree fuel g w s = Some (tt, s') ∧
      forest (mem s') (removeF w ts) ∧ roots_of g (removeF w ts) ∧
      oracle s' = oracle s ∧
      (forall b, b ∉ ts ≫= addrs -> mem s' !! b = mem s !! b).
Proof.
  induction ts as [|t ts IH]; intros g s fuel w Hg [Hr Hnd] Hd.
  - rewrite (roots_of_nil_r _ Hg). exists s. by split_and!.
  - apply roots_of_cons_r in Hg as (ws & g' & -> & Hroot & Hg').
    apply Forall_cons in Hr as [Hr Hrs]. apply Forall_cons in Hd as [Hd Hds].
    simpl in Hnd. apply NoDup_app in Hnd as (Hnd1 & Hdisj & Hnd2).
    destruct (bsp_remove_window_tree t s None fuel w (conj Hr Hnd1) Hd)
      as (s1 & Hrun & Ho1 & [[Hr1 Hnd1'] (Hroot1 & Hout & _)] & Hsame).
    cbn [wm_remove_from_bsp_tree removeF]. rewrite Hroot, (bind_run _ _ _ _ _ Hrun).
    destruct (fst (removeT w t)) eqn:E.
    + exists s1.
      assert (Hkeep : forall b, b ∉ addrs t -> mem s1 !! b = mem s !! b).
      { intros b Hb. apply Hout; [done|]. intros Hb'%removeT_addrs. done. }
      split_and!; [done| |by unfold roots_of in *; simpl; rewrite Hroot1, Hroot; f_equal|done|].
      * split.
        -- apply Forall_cons. split; [done|].
           apply Forall_forall. intros u Hu. rewrite Forall_forall in Hrs.
           eapply repr_frame; [|by apply Hrs]. intros b Hb. apply Hkeep.
           intros Hb'. apply (Hdisj b Hb'). apply list_elem_of_bind. eauto.
        -- simpl. apply NoDup_app. split_and!; [done| |done].
           intros b Hb%removeT_addrs. by apply Hdisj.
      * intros b Hb. apply Hkeep. simpl in Hb. set_solver.
    + rewrite (Hsame eq_refl) in *.
      destruct (IH g' s fuel w Hg' (conj Hrs Hnd2) Hds)
        as (s' & Hrun' & [Hr' Hnd'] & Hg'' & Ho' & Hframe).
      exists s'.
      split_and!; [done| |by unfold roots_of in *; simpl; rewrite Hroot; f_equal|done|].
      * split.
        -- apply Forall_cons. split; [|done].
           eapply repr_frame; [|exact Hr]. intros b Hb. apply Hframe.
           intros Hb'. by apply (Hdisj b).
        -- simpl. apply NoDup_app. split_and!; [done| |done].
           intros b Hb Hb'%removeF_addrs. by apply (Hdisj b).
      * intros b Hb. apply Hframe. simpl in Hb. set_solver.
Qed.

(** All the windows the workspaces hold. *)
Definition all_windows (ts : list tree) : list Z := ts ≫= windows.

Lemma removeF_first w ts :
  removeF w ts = ts ∧ (forall u, u ∈ ts -> w ∉ leaf_ids u) ∨
  exists pre t post,
    ts = pre ++ t :: post ∧ removeF w ts = pre ++ snd (removeT w t) :: post ∧
    w ∈ leaf_ids t ∧ forall u, u ∈ pre -> w ∉ leaf_ids u.
Proof.
  induction ts as [|t ts IH]; simpl; [left; set_solver|].
  destruct (fst (removeT w t)) eqn:E.
  - right. exists [], t, ts. apply removeT_found in E. set_solver.
  - assert (Ht : w ∉ leaf_ids t) by (rewrite <- removeT_found; congruence).
    destruct IH as [[-> Hno]|(pre & u & post & -> & -> & Hu & Hpre)].
    + left. set_solver.
    + right. exists (t :: pre), u, post. set_solver.
Qed.

Lemma removeF_windows w ts :
  all_windows ts ≡ₚ
  (if decide (w ∈ all_windows ts) then [w] else []) ++ all_windows (removeF w ts).
Proof.
  unfold all_windows. induction ts as [|t ts IH]; simpl; [done|].
  pose proof (removeT_windows w t) as Hp.
  destruct (fst (removeT w t)) eqn:E; simpl.
  - apply removeT_found in E.
    destruct (decide (w ∈ windows t)) as [Hin|Hnin].
    + rewrite decide_True by set_solver. rewrite Hp at 1. done.
    + assert (w = NO_WINDOW) as ->.
      { destruct (decide (w = NO_WINDOW)); [done|]. destruct Hnin. by apply in_windows. }
      rewrite decide_False; [by rewrite Hp at 1|].
      rewrite elem_of_app, list_elem_of_bind. intros [?|(u & Hu & _)]; [done|].
      by apply in_windows in Hu as [? _].
  - assert (Ht : w ∉ leaf_ids t) by (rewrite <- removeT_found; congruence).
    assert (Hnin : w ∉ windows t) by (rewrite in_windows; tauto).
    destruct (decide (w ∈ ts ≫= windows)) as [Hin|Hnin'].
    + rewrite decide_True by set_solver. rewrite IH at 1. simpl.
      by rewrite Permutation_middle.
    + rewrite decide_False by set_solver. by rewrite IH at 1.
Qed.

(** X18. [wm_remove_from_bsp_tree] stops at the first workspace whose
    tree stores the identifier: one occurrence of the window leaves that
    tree, as [bsp_remove_window] takes it out, and every other workspace,
    also one that stores the same identifier, keeps its tree; when no tree
    stores it, nothing changes. *)
Theorem wm_remove_stops_at_first_workspace (g : list BSPWorkspace) (ts : list tree)
    (s : state) (fuel : nat) (w : Z) :
  roots_of g ts -> forest (mem s) ts -> Forall (fun t => (depth t < fuel)%nat) ts ->
  exists s' ts',
    wm_remove_from_bsp_tree fuel g w s = Some (tt, s') ∧
    forest (mem s') ts' ∧ roots_of g ts' ∧
    all_windows ts ≡ₚ (if decide (w ∈ all_windows ts) then [w] else []) ++ all_windows ts' ∧
    (ts' = ts ∧ (forall u, u ∈ ts -> w ∉ leaf_ids u) ∨
     exists pre t post,
       ts = pre ++ t :: post ∧ ts' = pre ++ snd (removeT w t) :: post ∧
       w ∈ leaf_ids t ∧ forall u, u ∈ pre -> w ∉ leaf_ids u).
Proof.
  intros Hg Hf Hd.
  destruct (wm_remove_from_bsp_tree_forest ts g s fuel w Hg Hf Hd)
    as (s' & Hrun & Hf' & Hg' & _).
  exists s', (removeF w ts). split_and!; [done..| |].
  - apply removeF_windows.
  - apply removeF_first.
Qed.

(** ** Setting the workspaces up *)

(** [malloc] or [calloc] of a block that holds no [BSPNode] (the display
    and workspace arrays): only its outcome matters here, and it is drawn
    from the same list of outcomes as the node allocations. *)
Definition alloc_block : M bool :=
  fun s => match oracle s with
           | false :: o => Some (false, mkState (mem s) o)
           | o => Some (true, mkState (mem s) (tail o))
           end.

(** The cleanup loop of [init_workspaces] (bsp.c:58-60), also the first
    loop of [wm_cleanup] (window_manager.c:450-452): [bsp_free] on every
    root. *)
Fixpoint free_roots (fuel : nat) (workspaces : list BSPWorkspace) : M unit :=
  match workspaces with
  | [] => ret tt
  | ws :: workspaces => bsp_free fuel (root ws) ;; free_roots fuel workspaces
  end.

(** The loop of [init_workspaces] (bsp.c:51-66) from index [i] on:
    [workspaces] are the entries 0..i-1 filled so far, [displays] the
    displays [i], [i+1], ... still to do, each with the rectangle
    [CGDisplayBounds] gives for it. *)
Fixpoint init_loop (fuel : nat) (displays : list (Z * CGRect))
    (workspaces : list BSPWorkspace) : M (option (list BSPWorkspace)) :=
  match displays with
  | [] => ret (Some workspaces)
  | (id, b) :: displays =>
      let* r := bsp_create_root b in
      match r with
      | None => free_roots fuel workspaces ;; ret None
      | Some _ => init_loop fuel displays (workspaces ++ [mkWorkspace id b r])
      end
  end.

(** [init_workspaces] (bsp.c:18).  [display_count] is the number of
    displays the first [CGGetActiveDisplayList] call reports, [displays]
    the list the second call fills in.  The result is the workspace array
    ([*out_count] is its length), or [None] for [NULL]. *)
Definition init_workspaces (fuel : nat) (display_count : nat)
    (displays : list (Z * CGRect)) : M (option (list BSPWorkspace)) :=
  match display_count with
  | O => ret None
  | S _ =>
      let* displays_ok := alloc_block in
      if negb displays_ok then ret None
      else
        let* workspaces_ok := alloc_block in
        if negb workspaces_ok then ret None
        else init_loop fuel displays []
  end.

(** The root [bsp_create_root] makes for a rectangle. *)
Definition fresh_root (r : CGRect) : BSPNode :=
  mkNode true NO_WINDOW r false None None None.

(** The workspaces set up so far own one fresh leaf each, allocated on
    top of [h0]. *)
Definition set_up (h0 h : gmap loc BSPNode) (workspaces : list BSPWorkspace) : Prop :=
  exists roots : list loc,
    root <$> workspaces = Some <$> roots ∧ NoDup roots ∧
    (forall a, a ∈ roots -> h0 !! a = None) ∧
    (forall ws a, ws ∈ workspaces -> root ws = Some a -> h !! a = Some (fresh_root (bounds ws))) ∧
    (forall b, b ∉ roots -> h !! b = h0 !! b).

Lemma bsp_free_leaf (fuel : nat) (a : loc) (n : BSPNode) (s : state) :
  mem s !! a = Some n -> first n = None -> second n = None -> (1 < fuel)%nat ->
  bsp_free fuel (Some a) s = Some (tt, mkState (delete a (mem s)) (oracle s)).
Proof.
  intros Ha H1 H2 Hfuel. destruct fuel as [|[|fuel]]; [lia..|].
  cbn [bsp_free]. step. rewrite H1. cbn [bsp_free]. do 2 step. rewrite H2.
  cbn [bsp_free]. step. unfold free. by rewrite Ha.
Qed.

Lemma free_roots_ok (fuel : nat) (h0 : gmap loc BSPNode) (workspaces : list BSPWorkspace) :
  (1 < fuel)%nat ->
  forall s, set_up h0 (mem s) workspaces ->
            free_roots fuel workspaces s = Some (tt, mkState h0 (oracle s)).
Proof.
  intros Hfuel. induction workspaces as [|ws wss IH]; intros s (roots & Hroots & Hnd & Hnew & Hhas & Hrest).
  - destruct roots; [|done]. simpl. unfold ret. destruct s as [h o]. simpl in *.
    f_equal. f_equal. f_equal. apply map_eq. intros b. apply Hrest. set_solver.
  - destruct roots as [|a roots]; [done|]. rewrite !fmap_cons in Hroots.
    assert (root ws = Some a ∧ root <$> wss = Some <$> roots) as [Ha Hroots']
      by (split; congruence).
    clear Hroots. rename Hroots' into Hroots.
    apply NoDup_cons in Hnd as [Hna Hnd].
    cbn [free_roots]. rewrite Ha.
    erewrite (bind_run _ _ _ _ tt);
      [|eapply bsp_free_leaf; [apply (Hhas ws a); [set_solver|done]|done..]].
    rewrite IH; [done|]. exists roots. cbn [mem]. split_and!; try done.
    + intros b Hb. apply Hnew. set_solver.
    + intros ws' b Hws' Hb. rewrite lookup_delete_ne; [apply Hhas; [set_solver|done]|].
      intros <-. apply Hna.
      assert (Some a ∈ root <$> wss) as Hin.
      { rewrite <- Hb. apply list_elem_of_fmap. eauto. }
      rewrite Hroots in Hin. apply list_elem_of_fmap in Hin as (a' & [= ->] & Hin). done.
    + intros b Hb. destruct (decide (b = a)) as [->|Hba].
      * rewrite lookup_delete_eq. symmetry. apply Hnew. set_solver.
      * rewrite lookup_delete_ne by done. apply Hrest. set_solver.
Qed.

Lemma bsp_create_root_fails (screen_rect : CGRect) (s : state) (o : list bool) :
  oracle s = false :: o -> bsp_create_root screen_rect s = Some (None, mkState (mem s) o).
Proof. intros Ho. unfold bsp_create_root. by erewrite bind_calloc_fail by exact Ho. Qed.

Lemma set_up_extend (h0 : gmap loc BSPNode) (s : state) (workspaces : list BSPWorkspace)
    (id : Z) (b : CGRect) :
  set_up h0 (mem s) workspaces ->
  set_up h0 (<[fresh (dom (mem s)) := fresh_root b]> (mem s))
         (workspaces ++ [mkWorkspace id b (Some (fresh (dom (mem s))))]).
Proof.
  intros (roots & Hroots & Hnd & Hnew & Hhas & Hrest).
  set (a := fresh (dom (mem s))).
  assert (Ha : mem s !! a = None) by apply fresh_lookup.
  assert (Hin : forall ws c, ws ∈ workspaces -> root ws = Some c -> c ∈ roots).
  { intros ws c Hws Hc. assert (Some c ∈ root <$> workspaces) as Hc'.
    { rewrite <- Hc. apply list_elem_of_fmap. eauto. }
    rewrite Hroots in Hc'. by apply list_elem_of_fmap in Hc' as (c' & [= ->] & ?). }
  assert (Hna : a ∉ roots).
  { intros Hr. apply list_elem_of_fmap_2 with (f := Some) in Hr. rewrite <- Hroots in Hr.
    apply list_elem_of_fmap in Hr as (ws & Hws & Hin').
    rewrite (Hhas ws a Hin' (eq_sym Hws)) in Ha. done. }
  exists (roots ++ [a]). split_and!.
  - by rewrite !fmap_app, Hroots.
  - apply NoDup_app. split_and!; [done|set_solver|apply NoDup_singleton].
  - intros c [Hc| ->%list_elem_of_singleton]%elem_of_app; [by apply Hnew|].
    by rewrite <- Hrest.
  - intros ws c [Hws| ->%list_elem_of_singleton]%elem_of_app Hc.
    + rewrite lookup_insert_ne; [by apply Hhas|].
      intros <-. apply Hna. by eapply Hin.
    + simpl in Hc. injection Hc as <-. apply lookup_insert_eq.
  - intros c Hc. rewrite lookup_insert_ne by set_solver. apply Hrest. set_solver.
Qed.

Definition display_of (ws : BSPWorkspace) : Z * CGRect := (display_id ws, bounds ws).

Lemma init_loop_ok (fuel : nat) (h0 : gmap loc BSPNode) (displays : list (Z * CGRect)) :
  (1 < fuel)%nat ->
  forall (workspaces : list BSPWorkspace) (s : state),
    set_up h0 (mem s) workspaces ->
    exists r s',
      init_loop fuel displays workspaces s = Some (r, s') ∧
      match r with
      | None => mem s' = h0
      | Some wss =>
          display_of <$> wss = (display_of <$> workspaces) ++ displays ∧
          set_up h0 (mem s') wss
      end.
Proof.
  intros Hfuel. induction displays as [|[id b] displays IH]; intros workspaces s Hset.
  - exists (Some workspaces), s. by rewrite app_nil_r.
  - cbn [init_loop].
    assert (Hsucc : allocs_succeed 1 (oracle s) ->
      exists r s',
        (let* r := bsp_create_root b in
         match r with
         | Some _ => init_loop fuel displays (workspaces ++ [mkWorkspace id b r])
         | None => free_roots fuel workspaces;; ret None
         end) s = Some (r, s') ∧
        match r with
        | Some wss =>
            display_of <$> wss = (display_of <$> workspaces) ++ (id, b) :: displays ∧
            set_up h0 (mem s') wss
        | None => mem s' = h0
        end).
    { intros Hok. rewrite (bind_run _ _ _ _ _ (bsp_create_root_ok b s Hok)).
      destruct (IH (workspaces ++ [mkWorkspace id b (Some (fresh (dom (mem s))))])
                  (mkState (<[fresh (dom (mem s)) := fresh_root b]> (mem s)) (tail (oracle s))))
        as (r & s' & Hrun & Hpost); [by apply set_up_extend|].
      exists r, s'. split; [exact Hrun|]. destruct r as [wss|]; [|done].
      destruct Hpost as [Hd Hs]. split; [|done].
      by rewrite Hd, fmap_app, <- app_assoc. }
    destruct (oracle s) as [|[] o] eqn:Ho.
    + apply Hsucc, allocs_succeed_nil.
    + apply Hsucc, allocs_succeed_S. split; [done|]. apply allocs_succeed_le with (k := 0%nat); [lia|].
      unfold allocs_succeed. simpl. constructor.
    + rewrite (bind_run _ _ _ _ _ (bsp_create_root_fails b s o Ho)).
      exists None, (mkState h0 o). split; [|done].
      by rewrite (bind_run _ _ _ _ _
                    (free_roots_ok fuel h0 workspaces Hfuel (mkState (mem s) o) Hset)).
Qed.

(** X19. [init_workspaces] is all or nothing.  Whatever allocations
    fail, it returns either [NULL], with the node heap exactly as it was
    (the roots made before the failure have been freed), or one workspace
    per display, in order, each with the display's bounds and a root of
    its own: a fresh empty leaf covering those bounds. *)
Theorem init_workspaces_all_or_nothing (fuel : nat) (display_count : nat)
    (displays : list (Z * CGRect)) (s : state) :
  (1 < fuel)%nat ->
  exists r s',
    init_workspaces fuel display_count displays s = Some (r, s') ∧
    match r with
    | None => mem s' = mem s
    | Some workspaces =>
        display_of <$> workspaces = displays ∧ set_up (mem s) (mem s') workspaces
    end.
Proof.
  intros Hfuel. unfold init_workspaces. destruct display_count as [|n]; [by exists None, s|].
  assert (Hstart : forall o, set_up (mem s) (mem (mkState (mem s) o)) []).
  { intros o. exists []. split_and!; try done; try apply NoDup_nil_2; set_solver. }
  assert (Hblock : forall s0 : state, exists ok o,
            alloc_block s0 = Some (ok, mkState (mem s0) o)).
  { intros s0. unfold alloc_block. destruct (oracle s0) as [|[] o]; eauto. }
  destruct (Hblock s) as (ok1 & o1 & H1). rewrite (bind_run _ _ _ _ _ H1).
  destruct ok1; [|by eexists None, _]. cbn [negb].
  destruct (Hblock (mkState (mem s) o1)) as (ok2 & o2 & H2).
  rewrite (bind_run _ _ _ _ _ H2). cbn [mem].
  destruct ok2; [|by eexists None, _]. cbn [negb].
  destruct (init_loop_ok fuel (mem s) displays Hfuel [] (mkState (mem s) o2) (Hstart o2))
    as (r & s' & Hrun & Hpost).
  exists r, s'. split; [done|]. by destruct r.
Qed.

Lemma init_workspaces_all_or_nothing_example :
  exists r s',
    init_workspaces 16 2 [(1, screen); (2, rect_of 800 0 1024 768)]
                    (mkState ∅ [true; true; true; false]) = Some (r, s') ∧
    match r with
    | None => mem s' = ∅
    | Some workspaces =>
        display_of <$> workspaces = [(1, screen); (2, rect_of 800 0 1024 768)] ∧
        set_up ∅ (mem s') workspaces
    end.
Proof.
  apply (init_workspaces_all_or_nothing 16 2 [(1, screen); (2, rect_of 800 0 1024 768)]
           (mkState ∅ [true; true; true; false])).
  lia.
Defined.

(** Two displays side by side; windows 1001 and 1002 on the first, and
    a window with the identifier 1001 again on the second. *)
Definition two_desks : list BSPWorkspace * state :=
  match (let* r := init_workspaces 16 2 [(1, screen); (2, rect_of 800 0 1024 768)] in
         match r with
         | Some [w1; w2] =>
             bsp_insert 16 (root w1) 1001 ;;
             bsp_insert 16 (root w1) 1002 ;;
             bsp_insert 16 (root w2) 1001 ;;
             ret [w1; w2]
         | _ => ret []
         end) (empty_state [])
  with
  | Some r => r
  | None => ([], empty_state [])
  end.

Definition desk_trees : list tree :=
  [ Node 1%positive NO_WINDOW screen true
         (Leaf 3%positive 1001 (rect_of 0 0 400 600) false)
         (Leaf 4%positive 1002 (rect_of 400 0 400 600) false);
    Leaf 2%positive 1001 (rect_of 800 0 1024 768) false ].

Lemma desk_trees_forest : forest (mem (snd two_desks)) desk_trees.
Proof.
  split; [repeat constructor; by vm_compute|]. apply (bool_decide_unpack _). by vm_compute.
Defined.

Lemma wm_find_searches_every_workspace_example :
  exists r,
    wm_find_bsp_node_for_window 16 (fst two_desks) 1001 (snd two_desks) =
      Some (r, snd two_desks) ∧
    (r = None <-> forall t, t ∈ desk_trees -> 1001 ∉ leaf_ids t) ∧
    forall a, r = Some a ->
              exists t n, t ∈ desk_trees ∧ a ∈ leaves t ∧
                          mem (snd two_desks) !! a = Some n ∧ is_leaf n = true ∧
                          window_id n = 1001.
Proof.
  apply (wm_find_searches_every_workspace (fst two_desks) desk_trees (snd two_desks) 16 1001).
  - reflexivity.
  - apply desk_trees_forest.
  - repeat constructor; simpl; lia.
Defined.

Lemma wm_remove_stops_at_first_workspace_example :
  exists s' ts',
    wm_remove_from_bsp_tree 16 (fst two_desks) 1001 (snd two_desks) = Some (tt, s') ∧
    forest (mem s') ts' ∧ roots_of (fst two_desks) ts' ∧
    all_windows desk_trees ≡ₚ
      (if decide (1001 ∈ all_windows desk_trees) then [1001] else []) ++ all_windows ts' ∧
    (ts' = desk_trees ∧ (forall u, u ∈ desk_trees -> 1001 ∉ leaf_ids u) ∨
     exists pre t post,
       desk_trees = pre ++ t :: post ∧ ts' = pre ++ snd (removeT 1001 t) :: post ∧
       1001 ∈ leaf_ids t ∧ forall u, u ∈ pre -> 1001 ∉ leaf_ids u).
Proof.
  apply (wm_remove_stops_at_first_workspace (fst two_desks) desk_trees (snd two_desks) 16 1001).
  - reflexivity.
  - apply desk_trees_forest.
  - repeat constructor; simpl; lia.
Defined.

(** * The managed windows ([window_control.c], [window_manager.c])

    [g_managed_windows] is a heap block of [ManagedWindow] structures and
    [g_managed_count] the number of entries in use.  The block is a list
    of cells; a cell that was never written holds no value, and reading a
    field of it, like reading through a null [g_managed_windows] or past
    the block, is a fault.  The calls into CoreFoundation and the message
    on [stderr] are recorded, in order, as events. *)

Module Managed.

(** [ManagedWindow] (window_control.h:17); [window_ref] is an opaque
    handle. *)
Record ManagedWindow := mkManagedWindow {
  window_ref : Z;
  window_id : Z;
  pid : Z;
  frame : CGRect;
  app_name : string
}.

End Managed.

(** The one-character string that a backslash-n stands for in C. *)
Definition newline : string := String (ascii_of_nat 10) EmptyString.

Inductive event :=
  | CFRetain (ref : Z)
  | CFRelease (ref : Z)
  | Stderr (message : string).

Record managed := mkManaged {
  g_managed_windows : option (list (option Managed.ManagedWindow));
  g_managed_count : nat;
  events : list event
}.

(** [realloc(block, n * sizeof(ManagedWindow))] when it succeeds: the
    old contents up to [n] cells, new cells unwritten. *)
Definition realloc (block : option (list (option Managed.ManagedWindow))) (n : nat) :
    list (option Managed.ManagedWindow) :=
  match block with
  | Some l => take n l ++ replicate (n - length l) None
  | None => replicate n None
  end.

(** [g_managed_windows[i]] as an rvalue whose fields are read. *)
Definition entry (g : managed) (i : nat) : option Managed.ManagedWindow :=
  match g_managed_windows g with
  | Some l => match l !! i with Some (Some w) => Some w | _ => None end
  | None => None
  end.

(** [add_to_managed_windows] (window_control.c:372); [realloc_ok] is the
    outcome of its [realloc]. *)
Definition add_to_managed_windows (realloc_ok : bool) (window_ref window_id pid : Z)
    (frame : CGRect) (g : managed) : managed :=
  if realloc_ok then
    let block := realloc (g_managed_windows g) (g_managed_count g + 1) in
    let new_window :=
      Managed.mkManagedWindow window_ref window_id pid frame "Unknown" in
    mkManaged (Some (<[g_managed_count g := Some new_window]> block))
              (g_managed_count g + 1)
              (events g ++ [CFRetain window_ref])
  else
    mkManaged None (g_managed_count g)
              (events g ++ [Stderr ("Failed to allocate memory for managed windows" ++ newline)]).

(** The inner loop of [remove_from_managed_windows]
    (window_control.c:412-414): [todo] times [block[j] = block[j + 1]],
    [j] going up. *)
Fixpoint shift (block : list (option Managed.ManagedWindow)) (j todo : nat) :
    option (list (option Managed.ManagedWindow)) :=
  match todo with
  | O => Some block
  | S todo =>
      match block !! S j with
      | Some cell => if decide (j < length block)%nat
                     then shift (<[j := cell]> block) (S j) todo
                     else None
      | None => None
      end
  end.

(** The outer loop of [remove_from_managed_windows] from index [i] on,
    [todo] entries still to look at. *)
Fixpoint remove_loop (window_id : Z) (g : managed) (i todo : nat) : option managed :=
  match todo with
  | O => Some g
  | S todo =>
      match entry g i, g_managed_windows g with
      | Some w, Some block =>
          if Managed.window_id w =? window_id then
            match shift block i (g_managed_count g - 1 - i) with
            | Some block' =>
                Some (mkManaged (Some block') (g_managed_count g - 1)
                                (events g ++ [CFRelease (Managed.window_ref w)]))
            | None => None
            end
          else remove_loop window_id g (S i) todo
      | _, _ => None
      end
  end.

(** [remove_from_managed_windows] (window_control.c:402). *)
Definition remove_from_managed_windows (window_id : Z) (g : managed) : option managed :=
  remove_loop window_id g 0 (g_managed_count g).

(** The loop of [wm_find_managed_window] from index [i] on. *)
Fixpoint find_loop (window_id : Z) (g : managed) (i todo : nat) : option (option nat) :=
  match todo with
  | O => Some None
  | S todo =>
      match entry g i with
      | Some w => if Managed.window_id w =? window_id then Some (Some i)
                  else find_loop window_id g (S i) todo
      | None => None
      end
  end.

(** [wm_find_managed_window] (window_manager.c:192); the pointer it
    returns is the index of the entry, [None] is [NULL]. *)
Definition wm_find_managed_window (window_id : Z) (g : managed) : option (option nat) :=
  find_loop window_id g 0 (g_managed_count g).

(** The cells of the block; none behind a null pointer. *)
Definition cells (g : managed) : list (option Managed.ManagedWindow) :=
  match g_managed_windows g with
  | Some block => block
  | None => []
  end.

(** The state holds exactly the windows [l], in this order: the first
    [g_managed_count] cells are written and are the elements of [l]. *)
Definition holds (g : managed) (l : list Managed.ManagedWindow) : Prop :=
  take (g_managed_count g) (cells g) = Some <$> l ∧ length l = g_managed_count g.

(** The position of the first window of [l] with identifier [id]. *)
Fixpoint first_with (id : Z) (l : list Managed.ManagedWindow) : option nat :=
  match l with
  | [] => None
  | w :: l => if Managed.window_id w =? id then Some 0%nat else S <$> first_with id l
  end.

(** The window with identifier [id] that comes first in [l]. *)
Definition found (id : Z) (l : list Managed.ManagedWindow) : option Managed.ManagedWindow :=
  match first_with id l with
  | Some i => l !! i
  | None => None
  end.

(** What a caller of [wm_find_managed_window] sees through the pointer
    it gets: [Some None] for [NULL], [None] for a fault. *)
Definition window_found (id : Z) (g : managed) : option (option Managed.ManagedWindow) :=
  match wm_find_managed_window id g with
  | Some (Some i) => match entry g i with Some w => Some (Some w) | None => None end
  | Some None => Some None
  | None => None
  end.

(** Before any window is managed. *)
Definition no_windows : managed := mkManaged None 0 [].

Lemma holds_length (g : managed) (l : list Managed.ManagedWindow) :
  holds g l -> (g_managed_count g <= length (cells g))%nat.
Proof.
  intros [Ht Hl]. apply (f_equal length) in Ht.
  rewrite length_take, length_fmap in Ht. lia.
Qed.

Lemma entry_cells (g : managed) (i : nat) :
  entry g i = match cells g !! i with Some (Some w) => Some w | _ => None end.
Proof. unfold entry, cells. by destruct (g_managed_windows g). Qed.

Lemma entry_holds (g : managed) (l : list Managed.ManagedWindow) (i : nat) (w : Managed.ManagedWindow) :
  holds g l -> l !! i = Some w -> entry g i = Some w.
Proof.
  intros [Ht Hl] Hw. rewrite entry_cells.
  assert (Hi : (i < g_managed_count g)%nat) by (rewrite <- Hl; by eapply lookup_lt_Some).
  rewrite <- (lookup_take_lt (cells g) (g_managed_count g) i Hi), Ht, list_lookup_fmap, Hw.
  done.
Qed.

Lemma find_loop_holds (id : Z) (g : managed) (l : list Managed.ManagedWindow) (todo : nat) :
  holds g l ->
  forall i, (i + todo)%nat = g_managed_count g ->
            find_loop id g i todo = Some ((fun k => (i + k)%nat) <$> first_with id (drop i l)).
Proof.
  intros Hh. pose proof Hh as [Ht Hl].
  induction todo as [|todo IH]; intros i Hi; simpl.
  - rewrite drop_ge by lia. done.
  - destruct (l !! i) as [w|] eqn:E; [|apply lookup_ge_None in E; lia].
    rewrite (entry_holds g l i w Hh E), (drop_S l w i E). simpl.
    destruct (Managed.window_id w =? id); simpl; [by rewrite Nat.add_0_r|].
    rewrite IH by lia. destruct (first_with id (drop (S i) l)); simpl; [|done].
    do 2 f_equal. lia.
Qed.

Lemma wm_find_managed_window_holds (id : Z) (g : managed) (l : list Managed.ManagedWindow) :
  holds g l -> wm_find_managed_window id g = Some (first_with id l).
Proof.
  intros Hh. unfold wm_find_managed_window.
  rewrite (find_loop_holds id g l _ Hh 0%nat) by lia. rewrite drop_0.
  by destruct (first_with id l).
Qed.

Lemma shift_spec (todo : nat) :
  forall (block : list (option Managed.ManagedWindow)) (j : nat),
    (j + todo < length block)%nat ->
    shift block j todo =
    Some (take j block ++ take todo (drop (S j) block) ++ drop (j + todo) block).
Proof.
  induction todo as [|todo IH]; intros block j Hlen; simpl.
  - by rewrite Nat.add_0_r, take_drop.
  - destruct (block !! S j) as [cell|] eqn:E; [|apply lookup_ge_None in E; lia].
    rewrite decide_True by lia. rewrite IH by (rewrite length_insert; lia). f_equal.
    erewrite take_S_r by (apply list_lookup_insert_eq; lia).
    rewrite take_insert_ge, !drop_insert_lt by lia.
    rewrite (drop_S block cell (S j) E). simpl. rewrite <- app_assoc. simpl.
    by replace (j + S todo)%nat with (S (j + todo)) by lia.
Qed.

Lemma first_with_Some (id : Z) (l : list Managed.ManagedWindow) (i : nat) :
  first_with id l = Some i ->
  exists w, l !! i = Some w ∧ Managed.window_id w = id.
Proof.
  revert i. induction l as [|w l IH]; intros i; simpl; [done|].
  destruct (Managed.window_id w =? id) eqn:E.
  - intros [= <-]. apply Z.eqb_eq in E. eauto.
  - destruct (first_with id l) as [k|]; [|done]. intros [= <-].
    destruct (IH k eq_refl) as (w' & Hw' & Hid). by exists w'.
Qed.

Lemma remove_loop_holds (id : Z) (g : managed) (l : list Managed.ManagedWindow) (todo : nat) :
  holds g l ->
  forall i, (i + todo)%nat = g_managed_count g ->
    exists g',
      remove_loop id g i todo = Some g' ∧
      match first_with id (drop i l) with
      | None => g' = g
      | Some k =>
          holds g' (delete (i + k)%nat l) ∧
          exists w, l !! (i + k)%nat = Some w ∧
                    events g' = events g ++ [CFRelease (Managed.window_ref w)]
      end.
Proof.
  intros Hh. pose proof Hh as [Ht Hl]. pose proof (holds_length g l Hh) as Hlen.
  induction todo as [|todo IH]; intros i Hi; simpl.
  - exists g. by rewrite drop_ge by lia.
  - destruct (l !! i) as [w|] eqn:E; [|apply lookup_ge_None in E; lia].
    rewrite (entry_holds g l i w Hh E), (drop_S l w i E). simpl.
    unfold cells in Ht, Hlen. destruct (g_managed_windows g) as [block|] eqn:Hb;
      [|simpl in Hlen; lia].
    destruct (Managed.window_id w =? id) eqn:Eid; simpl.
    + rewrite shift_spec by lia. eexists. split; [done|]. rewrite Nat.add_0_r.
      split; [|eauto]. split; cbn [g_managed_windows g_managed_count cells].
      * rewrite list_fmap_delete, <- Ht, delete_take_drop.
        rewrite take_take, Nat.min_l by lia.
        replace (g_managed_count g - 1)%nat with (i + (g_managed_count g - 1 - i))%nat
          at 1 by lia.
        rewrite !app_assoc, take_app_length'.
        -- f_equal. rewrite take_drop_commute. do 2 f_equal. lia.
        -- rewrite length_app, !length_take, length_drop. lia.
      * rewrite length_delete by eauto. lia.
    + destruct (IH (S i) ltac:(lia)) as (g' & Hrun & Hpost). exists g'.
      split; [done|]. destruct (first_with id (drop (S i) l)) as [k|]; simpl; [|done].
      by replace (i + S k)%nat with (S i + k)%nat by lia.
Qed.

Lemma remove_from_managed_windows_holds (id : Z) (g : managed) (l : list Managed.ManagedWindow) :
  holds g l ->
  exists g',
    remove_from_managed_windows id g = Some g' ∧
    match first_with id l with
    | None => g' = g
    | Some i =>
        holds g' (delete i l) ∧
        exists w, l !! i = Some w ∧ Managed.window_id w = id ∧
                  events g' = events g ++ [CFRelease (Managed.window_ref w)]
    end.
Proof.
  intros Hh. destruct (remove_loop_holds id g l _ Hh 0%nat eq_refl) as (g' & Hrun & Hpost).
  exists g'. split; [done|]. simpl in Hpost. rewrite drop_0 in Hpost.
  destruct (first_with id l) as [i|] eqn:E; [|done].
  destruct Hpost as (Hh' & w & Hw & Hev). split; [done|].
  destruct (first_with_Some _ _ _ E) as (w' & Hw' & Hid). exists w.
  split_and!; [done|congruence|done].
Qed.

Lemma add_to_managed_windows_holds (window_ref window_id pid : Z) (frame : CGRect)
    (g : managed) (l : list Managed.ManagedWindow) :
  holds g l ->
  holds (add_to_managed_windows true window_ref window_id pid frame g)
        (l ++ [Managed.mkManagedWindow window_ref window_id pid frame "Unknown"]).
Proof.
  intros Hh. pose proof Hh as [Ht Hl]. pose proof (holds_length g l Hh) as Hlen.
  split; cbn [add_to_managed_windows g_managed_count g_managed_windows cells];
    [|rewrite length_app; simpl; lia].
  set (n := g_managed_count g) in *. set (new := Some _).
  assert (Hre : exists c, realloc (g_managed_windows g) (n + 1) = take n (cells g) ++ [c]).
  { unfold realloc, cells in *. destruct (g_managed_windows g) as [block|].
    - destruct (block !! n) as [c|] eqn:E.
      + exists c. rewrite Nat.add_1_r, (take_S_r _ _ _ E).
        apply lookup_lt_Some in E. replace (S n - length block)%nat with 0%nat by lia.
        by rewrite app_nil_r.
      + exists None. apply lookup_ge_None in E.
        replace (n + 1 - length block)%nat with 1%nat by lia.
        by rewrite !take_ge by lia.
    - exists None. simpl in Hlen. replace n with 0%nat by lia. done. }
  destruct Hre as [c ->]. rewrite Ht.
  assert (Hn : n = (length (Some <$> l) + 0)%nat) by (rewrite length_fmap; lia).
  rewrite take_ge by (rewrite length_insert, length_app, length_fmap; simpl; lia).
  rewrite Hn, insert_app_r, fmap_app. done.
Qed.

Lemma found_cons (id : Z) (w : Managed.ManagedWindow) (l : list Managed.ManagedWindow) :
  found id (w :: l) = if Managed.window_id w =? id then Some w else found id l.
Proof.
  unfold found. simpl. destruct (Managed.window_id w =? id); [done|].
  by destruct (first_with id l).
Qed.

Lemma found_app (id : Z) (l : list Managed.ManagedWindow) (w : Managed.ManagedWindow) :
  found id (l ++ [w]) =
  match found id l with
  | Some v => Some v
  | None => if Managed.window_id w =? id then Some w else None
  end.
Proof.
  induction l as [|v l IH]; simpl.
  - rewrite found_cons. by destruct (Managed.window_id w =? id).
  - rewrite !found_cons. by destruct (Managed.window_id v =? id).
Qed.

Lemma found_absent (id : Z) (l : list Managed.ManagedWindow) :
  id ∉ Managed.window_id <$> l -> first_with id l = None.
Proof.
  induction l as [|w l IH]; simpl; [done|]. intros Hin.
  destruct (Managed.window_id w =? id) eqn:E; [apply Z.eqb_eq in E; set_solver|].
  rewrite IH; [done|set_solver].
Qed.

Lemma found_delete_other (id id' : Z) (l : list Managed.ManagedWindow) :
  forall i, first_with id l = Some i -> id' <> id -> found id' (delete i l) = found id' l.
Proof.
  induction l as [|w l IH]; intros i; simpl; [done|].
  destruct (Managed.window_id w =? id) eqn:E.
  - intros [= <-] Hne. simpl. rewrite found_cons.
    apply Z.eqb_eq in E. by rewrite (proj2 (Z.eqb_neq _ _)) by congruence.
  - destruct (first_with id l) as [k|] eqn:Ek; [|done]. intros [= <-] Hne. simpl.
    rewrite !found_cons. by rewrite (IH k eq_refl Hne).
Qed.

Lemma found_delete_same (id : Z) (l : list Managed.ManagedWindow) :
  forall i, first_with id l = Some i -> NoDup (Managed.window_id <$> l) ->
            found id (delete i l) = None.
Proof.
  induction l as [|w l IH]; intros i; simpl; [done|].
  rewrite NoDup_cons.
  destruct (Managed.window_id w =? id) eqn:E.
  - intros [= <-] [Hnin _]. simpl. apply Z.eqb_eq in E. subst id.
    unfold found. by rewrite found_absent.
  - destruct (first_with id l) as [k|] eqn:Ek; [|done]. intros [= <-] [_ Hnd]. simpl.
    rewrite found_cons, E. by apply IH.
Qed.

Lemma window_found_holds (id : Z) (g : managed) (l : list Managed.ManagedWindow) :
  holds g l -> window_found id g = Some (found id l).
Proof.
  intros Hh. unfold window_found, found. rewrite (wm_find_managed_window_holds id g l Hh).
  destruct (first_with id l) as [i|] eqn:E; [|done].
  destruct (first_with_Some _ _ _ E) as (w & Hw & _).
  by rewrite (entry_holds g l i w Hh Hw), Hw.
Qed.

(** Three managed windows, added one after the other. *)
Definition three_managed : managed :=
  add_to_managed_windows true 503 1002 78 (rect_of 400 0 400 600)
    (add_to_managed_windows true 502 1001 77 (rect_of 0 300 400 300)
       (add_to_managed_windows true 501 1000 77 (rect_of 0 0 400 300) no_windows)).

Definition three_managed_list : list Managed.ManagedWindow :=
  [ Managed.mkManagedWindow 501 1000 77 (rect_of 0 0 400 300) "Unknown";
    Managed.mkManagedWindow 502 1001 77 (rect_of 0 300 400 300) "Unknown";
    Managed.mkManagedWindow 503 1002 78 (rect_of 400 0 400 600) "Unknown" ].

Lemma three_managed_holds : holds three_managed three_managed_list.
Proof. split; reflexivity. Defined.

(** X20. Add, then look up.  After [add_to_managed_windows] (its
    [realloc] succeeding) the array holds the windows it held, in their
    order, followed by the new one, whose name is "Unknown"; the new
    reference has been retained once.  [wm_find_managed_window] then finds
    for every identifier the window it found before and, for the new
    identifier, the new window, unless an older window already has that
    identifier, which then hides the new one. *)
Theorem managed_add_then_find (window_ref window_id pid : Z) (frame : CGRect)
    (g : managed) (l : list Managed.ManagedWindow) (id : Z) :
  holds g l ->
  holds (add_to_managed_windows true window_ref window_id pid frame g)
        (l ++ [Managed.mkManagedWindow window_ref window_id pid frame "Unknown"]) ∧
  events (add_to_managed_windows true window_ref window_id pid frame g) =
    events g ++ [CFRetain window_ref] ∧
  window_found id (add_to_managed_windows true window_ref window_id pid frame g) =
    Some (match found id l with
          | Some w => Some w
          | None =>
              if decide (id = window_id)
              then Some (Managed.mkManagedWindow window_ref window_id pid frame "Unknown")
              else None
          end).
Proof.
  intros Hh.
  pose proof (add_to_managed_windows_holds window_ref window_id pid frame g l Hh) as Hh'.
  split_and!; [done..|].
  rewrite (window_found_holds id _ _ Hh'), found_app. simpl.
  destruct (found id l); [done|]. f_equal.
  destruct (Z.eqb_spec window_id id); case_decide; congruence.
Qed.

Lemma managed_add_then_find_example :
  holds (add_to_managed_windows true 504 1003 79 screen three_managed)
        (three_managed_list ++ [Managed.mkManagedWindow 504 1003 79 screen "Unknown"]) ∧
  events (add_to_managed_windows true 504 1003 79 screen three_managed) =
    events three_managed ++ [CFRetain 504] ∧
  window_found 1003 (add_to_managed_windows true 504 1003 79 screen three_managed) =
    Some (match found 1003 three_managed_list with
          | Some w => Some w
          | None =>
              if decide (1003 = 1003)
              then Some (Managed.mkManagedWindow 504 1003 79 screen "Unknown")
              else None
          end).
Proof.
  apply (managed_add_then_find 504 1003 79 screen three_managed three_managed_list 1003).
  apply three_managed_holds.
Defined.

(** X21. [remove_from_managed_windows] takes the first window with the
    identifier out of the array and moves the later ones down one place,
    keeping their order; it releases that window's reference, once.  When
    no window has the identifier, nothing changes. *)
Theorem managed_remove_first (id : Z) (g : managed) (l : list Managed.ManagedWindow) :
  holds g l ->
  exists g',
    remove_from_managed_windows id g = Some g' ∧
    match first_with id l with
    | None => g' = g
    | Some i =>
        holds g' (delete i l) ∧
        exists w, l !! i = Some w ∧ Managed.window_id w = id ∧
                  events g' = events g ++ [CFRelease (Managed.window_ref w)]
    end.
Proof. apply remove_from_managed_windows_holds. Qed.

Lemma managed_remove_first_example :
  exists g',
    remove_from_managed_windows 1001 three_managed = Some g' ∧
    match first_with 1001 three_managed_list with
    | None => g' = three_managed
    | Some i =>
        holds g' (delete i three_managed_list) ∧
        exists w, three_managed_list !! i = Some w ∧ Managed.window_id w = 1001 ∧
                  events g' = events three_managed ++ [CFRelease (Managed.window_ref w)]
    end.
Proof. apply (managed_remove_first 1001 three_managed three_managed_list three_managed_holds). Defined.

(** X22. Remove, then look up.  After [remove_from_managed_windows],
    [wm_find_managed_window] finds for every other identifier the window
    it found before; and when no two managed windows share an identifier,
    it finds none for the removed one. *)
Theorem managed_remove_then_find (id : Z) (g : managed) (l : list Managed.ManagedWindow) :
  holds g l ->
  exists g',
    remove_from_managed_windows id g = Some g' ∧
    (forall id', id' <> id -> window_found id' g' = window_found id' g) ∧
    (NoDup (Managed.window_id <$> l) -> window_found id g' = Some None).
Proof.
  intros Hh. destruct (remove_from_managed_windows_holds id g l Hh) as (g' & Hrun & Hpost).
  exists g'. split; [done|]. destruct (first_with id l) as [i|] eqn:E.
  - destruct Hpost as (Hh' & _). split.
    + intros id' Hne. rewrite (window_found_holds _ _ _ Hh'), (window_found_holds _ _ _ Hh).
      f_equal. by eapply found_delete_other.
    + intros Hnd. rewrite (window_found_holds _ _ _ Hh'). f_equal.
      by apply found_delete_same.
  - subst g'. split; [done|]. intros _. rewrite (window_found_holds _ _ _ Hh).
    unfold found. by rewrite E.
Qed.

Lemma managed_remove_then_find_example :
  exists g',
    remove_from_managed_windows 1000 three_managed = Some g' ∧
    (forall id', id' <> 1000 -> window_found id' g' = window_found id' three_managed) ∧
    (NoDup (Managed.window_id <$> three_managed_list) -> window_found 1000 g' = Some None).
Proof. apply (managed_remove_then_find 1000 three_managed three_managed_list three_managed_holds). Defined.

(** X23. When the [realloc] in [add_to_managed_windows] fails, the
    pointer to the array is overwritten with [NULL] while the count stays:
    with at least one window managed, every later
    [wm_find_managed_window] and [remove_from_managed_windows] reads
    through the null pointer. *)
Theorem failed_realloc_loses_array (window_ref window_id pid : Z) (frame : CGRect)
    (g : managed) (id : Z) :
  (0 < g_managed_count g)%nat ->
  g_managed_windows (add_to_managed_windows false window_ref window_id pid frame g) = None ∧
  g_managed_count (add_to_managed_windows false window_ref window_id pid frame g) =
    g_managed_count g ∧
  wm_find_managed_window id (add_to_managed_windows false window_ref window_id pid frame g) =
    None ∧
  remove_from_managed_windows id
    (add_to_managed_windows false window_ref window_id pid frame g) = None.
Proof.
  intros Hn. unfold wm_find_managed_window, remove_from_managed_windows. simpl.
  destruct (g_managed_count g); [lia|done].
Qed.

Lemma failed_realloc_loses_array_example :
  g_managed_windows (add_to_managed_windows false 504 1003 79 screen three_managed) = None ∧
  g_managed_count (add_to_managed_windows false 504 1003 79 screen three_managed) =
    g_managed_count three_managed ∧
  wm_find_managed_window 1000 (add_to_managed_windows false 504 1003 79 screen three_managed) =
    None ∧
  remove_from_managed_windows 1000
    (add_to_managed_windows false 504 1003 79 screen three_managed) = None.
Proof.
  apply (failed_realloc_loses_array 504 1003 79 screen three_managed 1000). simpl. lia.
Defined.

(** * Configuration ([config.c])

    Strings are the contents of the C strings, [None] a null pointer;
    [strcmp(a, b) == 0] is equality. *)

Local Open Scope string_scope.

(** [KeyAction] and [WindowRule] (config.h:30, config.h:49). *)
Inductive KeyAction :=
  | ACTION_FOCUS_LEFT | ACTION_FOCUS_RIGHT | ACTION_FOCUS_UP | ACTION_FOCUS_DOWN
  | ACTION_TILE | ACTION_FLOAT_TOGGLE | ACTION_FULLSCREEN_TOGGLE | ACTION_CLOSE_WINDOW
  | ACTION_SWAP_LEFT | ACTION_SWAP_RIGHT | ACTION_SWAP_UP | ACTION_SWAP_DOWN
  | ACTION_INCREASE_SIZE | ACTION_DECREASE_SIZE | ACTION_UNKNOWN.

Inductive WindowRule := RULE_TILE | RULE_FLOAT | RULE_IGNORE.

(** [config_parse_action] (config.c:439): a switch on the first
    character, then [strcmp] against the words that start with it. *)
Definition config_parse_action (action_str : option string) : KeyAction :=
  match action_str with
  | None => ACTION_UNKNOWN
  | Some a =>
      let c := first_char a in
      if Ascii.eqb c "f" then
        if String.eqb a "focus_left" then ACTION_FOCUS_LEFT
        else if String.eqb a "focus_right" then ACTION_FOCUS_RIGHT
        else if String.eqb a "focus_up" then ACTION_FOCUS_UP
        else if String.eqb a "focus_down" then ACTION_FOCUS_DOWN
        else if String.eqb a "float_toggle" then ACTION_FLOAT_TOGGLE
        else if String.eqb a "fullscreen_toggle" then ACTION_FULLSCREEN_TOGGLE
        else ACTION_UNKNOWN
      else if Ascii.eqb c "t" then
        if String.eqb a "tile" then ACTION_TILE else ACTION_UNKNOWN
      else if Ascii.eqb c "c" then
        if String.eqb a "close_window" then ACTION_CLOSE_WINDOW else ACTION_UNKNOWN
      else if Ascii.eqb c "s" then
        if String.eqb a "swap_left" then ACTION_SWAP_LEFT
        else if String.eqb a "swap_right" then ACTION_SWAP_RIGHT
        else if String.eqb a "swap_up" then ACTION_SWAP_UP
        else if String.eqb a "swap_down" then ACTION_SWAP_DOWN
        else ACTION_UNKNOWN
      else if Ascii.eqb c "i" then
        if String.eqb a "increase_size" then ACTION_INCREASE_SIZE else ACTION_UNKNOWN
      else if Ascii.eqb c "d" then
        if String.eqb a "decrease_size" then ACTION_DECREASE_SIZE else ACTION_UNKNOWN
      else ACTION_UNKNOWN
  end.

(** [config_action_to_string] (config.c:524). *)
Definition config_action_to_string (action : KeyAction) : string :=
  match action with
  | ACTION_FOCUS_LEFT => "focus_left"
  | ACTION_FOCUS_RIGHT => "focus_right"
  | ACTION_FOCUS_UP => "focus_up"
  | ACTION_FOCUS_DOWN => "focus_down"
  | ACTION_TILE => "tile"
  | ACTION_FLOAT_TOGGLE => "float_toggle"
  | ACTION_FULLSCREEN_TOGGLE => "fullscreen_toggle"
  | ACTION_CLOSE_WINDOW => "close_window"
  | ACTION_SWAP_LEFT => "swap_left"
  | ACTION_SWAP_RIGHT => "swap_right"
  | ACTION_SWAP_UP => "swap_up"
  | ACTION_SWAP_DOWN => "swap_down"
  | ACTION_INCREASE_SIZE => "increase_size"
  | ACTION_DECREASE_SIZE => "decrease_size"
  | ACTION_UNKNOWN => "unknown"
  end.

(** X24. Actions and their names: [config_parse_action] reads every name
    that [config_action_to_string] writes back as the action it came from
    (the name of [ACTION_UNKNOWN] included), and a string it reads as an
    action other than [ACTION_UNKNOWN] is exactly that action's name. *)
Theorem action_names_round_trip :
  (forall action, config_parse_action (Some (config_action_to_string action)) = action) ∧
  (forall a, config_parse_action (Some a) <> ACTION_UNKNOWN ->
             config_action_to_string (config_parse_action (Some a)) = a) ∧
  config_parse_action None = ACTION_UNKNOWN.
Proof.
  split_and!; [by intros []| |done].
  intros a. unfold config_parse_action.
  repeat match goal with
         | |- context [if Ascii.eqb ?c ?k then _ else _] => destruct (Ascii.eqb c k)
         | |- context [if String.eqb ?x ?y then _ else _] =>
             destruct (String.eqb_spec x y); [by subst|]
         end; done.
Qed.

Local Close Scope string_scope.

Definition CONFIG_MAX_KEYBIND : nat := 64.
Definition CONFIG_MAX_APP_NAME : nat := 128.
Definition CONFIG_MAX_KEYBINDS : nat := 32.
Definition CONFIG_MAX_RULES : nat := 16.

Module Bind.

(** [Keybind] (config.h:56); [modifiers] is the bit set of
    [KeyModifier] flags. *)
Record Keybind := mkKeybind {
  key_combo : string;
  modifiers : Z;
  keycode : Z;
  action : KeyAction;
  enabled : bool
}.

End Bind.

Module Rule.

(** [AppRule] (config.h:65). *)
Record AppRule := mkAppRule {
  app_name : string;
  rule : WindowRule;
  enabled : bool
}.

End Rule.

(** [Config] (config.h:72).  The two arrays are lists of their declared
    sizes; the counts, C ints that the code only zeroes and increments
    below those sizes, are naturals. *)
Record Config := mkConfig {
  keybinds : list Bind.Keybind;
  keybind_count : nat;
  app_rules : list Rule.AppRule;
  rule_count : nat;
  auto_tile : bool;
  focus_follows_mouse : bool;
  gap_size : Z;
  split_ratio : float;
  config_path : string
}.

Definition set_keybinds (k : list Bind.Keybind) (n : nat) (g : Config) : Config :=
  mkConfig k n (app_rules g) (rule_count g) (auto_tile g) (focus_follows_mouse g)
           (gap_size g) (split_ratio g) (config_path g).

Definition set_app_rules (r : list Rule.AppRule) (n : nat) (g : Config) : Config :=
  mkConfig (keybinds g) (keybind_count g) r n (auto_tile g) (focus_follows_mouse g)
           (gap_size g) (split_ratio g) (config_path g).

(** What [strncpy(dst, src, n); dst[n] = 0] leaves in [dst]: the first
    [n] characters of [src], all of it when it is shorter. *)
Definition strncpy (n : nat) (src : string) : string := substring 0 n src.

(** [config_add_app_rule] (config.c:555), on the configuration [g]. *)
Definition config_add_app_rule (app_name : string) (rule : WindowRule) (g : Config) :
    bool * Config :=
  if (CONFIG_MAX_RULES <=? rule_count g)%nat then (false, g)
  else
    (true,
     set_app_rules
       (<[rule_count g :=
            Rule.mkAppRule (strncpy (CONFIG_MAX_APP_NAME - 1) app_name) rule true]>
          (app_rules g))
       (S (rule_count g)) g).

(** The loop of [config_get_window_rule] from index [i] on; reading past
    the array is a fault. *)
Fixpoint rule_loop (app_name : string) (g : Config) (i todo : nat) : option WindowRule :=
  match todo with
  | O => Some RULE_TILE
  | S todo =>
      match app_rules g !! i with
      | Some r =>
          if Rule.enabled r && String.eqb (Rule.app_name r) app_name
          then Some (Rule.rule r)
          else rule_loop app_name g (S i) todo
      | None => None
      end
  end.

(** [config_get_window_rule] (config.c:580). *)
Definition config_get_window_rule (app_name : option string) (g : Config) :
    option WindowRule :=
  match app_name with
  | None => Some RULE_TILE
  | Some n => rule_loop n g 0 (rule_count g)
  end.

(** The rules in use, and whether one of them, enabled, names [q]. *)
Definition rules_in_use (g : Config) : list Rule.AppRule :=
  take (rule_count g) (app_rules g).

Definition has_rule (q : string) (g : Config) : bool :=
  existsb (fun r => Rule.enabled r && String.eqb (Rule.app_name r) q) (rules_in_use g).

(** A configuration whose arrays have their declared sizes and whose
    counts are within them. *)
Definition well_sized (g : Config) : Prop :=
  length (keybinds g) = CONFIG_MAX_KEYBINDS ∧ (keybind_count g <= CONFIG_MAX_KEYBINDS)%nat ∧
  length (app_rules g) = CONFIG_MAX_RULES ∧ (rule_count g <= CONFIG_MAX_RULES)%nat.

Fixpoint rule_of (q : string) (l : list Rule.AppRule) : option WindowRule :=
  match l with
  | [] => None
  | r :: l => if Rule.enabled r && String.eqb (Rule.app_name r) q then Some (Rule.rule r)
              else rule_of q l
  end.

Lemma rule_loop_spec (q : string) (g : Config) (todo : nat) :
  (rule_count g <= length (app_rules g))%nat ->
  forall i, (i + todo)%nat = rule_count g ->
            rule_loop q g i todo =
            Some (default RULE_TILE (rule_of q (drop i (rules_in_use g)))).
Proof.
  intros Hlen. unfold rules_in_use.
  induction todo as [|todo IH]; intros i Hi; simpl.
  - rewrite drop_ge; [done|]. rewrite length_take. lia.
  - destruct (app_rules g !! i) as [r|] eqn:E; [|apply lookup_ge_None in E; lia].
    assert (E' : take (rule_count g) (app_rules g) !! i = Some r)
      by (rewrite lookup_take_lt by lia; done).
    rewrite (drop_S _ _ _ E'). simpl.
    destruct (Rule.enabled r && String.eqb (Rule.app_name r) q); [done|].
    apply IH. lia.
Qed.

Lemma config_get_window_rule_spec (q : string) (g : Config) :
  (rule_count g <= length (app_rules g))%nat ->
  config_get_window_rule (Some q) g = Some (default RULE_TILE (rule_of q (rules_in_use g))).
Proof.
  intros Hlen. unfold config_get_window_rule.
  rewrite (rule_loop_spec q g _ Hlen 0%nat) by lia. by rewrite drop_0.
Qed.

Lemma take_S_insert {A} (l : list A) (n : nat) (x : A) :
  (n < length l)%nat -> take (S n) (<[n := x]> l) = take n l ++ [x].
Proof.
  intros Hn. erewrite take_S_r by (apply list_lookup_insert_eq; lia).
  by rewrite take_insert_ge by lia.
Qed.

Lemma rule_of_app (q : string) (l : list Rule.AppRule) (r : Rule.AppRule) :
  rule_of q (l ++ [r]) =
  match rule_of q l with
  | Some r0 => Some r0
  | None => if Rule.enabled r && String.eqb (Rule.app_name r) q then Some (Rule.rule r)
            else None
  end.
Proof.
  induction l as [|r0 l IH]; simpl; [by case_match|].
  by destruct (Rule.enabled r0 && String.eqb (Rule.app_name r0) q).
Qed.

Lemma has_rule_of (q : string) (g : Config) :
  has_rule q g = bool_decide (rule_of q (rules_in_use g) <> None).
Proof.
  unfold has_rule. induction (rules_in_use g) as [|r l IH]; simpl; [done|].
  destruct (Rule.enabled r && String.eqb (Rule.app_name r) q); simpl; [done|apply IH].
Qed.

Lemma config_add_app_rule_spec (name : string) (r : WindowRule) (g : Config) (q : string) :
  well_sized g -> (rule_count g < CONFIG_MAX_RULES)%nat ->
  fst (config_add_app_rule name r g) = true ∧
  well_sized (snd (config_add_app_rule name r g)) ∧
  rule_count (snd (config_add_app_rule name r g)) = S (rule_count g) ∧
  config_get_window_rule (Some q) (snd (config_add_app_rule name r g)) =
    if has_rule q g then config_get_window_rule (Some q) g
    else Some (if String.eqb (strncpy (CONFIG_MAX_APP_NAME - 1) name) q then r
               else RULE_TILE).
Proof.
  intros (Hk & Hkc & Hr & Hrc) Hroom. unfold config_add_app_rule.
  rewrite (proj2 (Nat.leb_gt _ _)) by done. cbn [fst snd].
  split_and!; [done| |done|].
  - unfold well_sized. cbn. rewrite length_insert. split_and!; done || lia.
  - rewrite !config_get_window_rule_spec by (cbn; rewrite ?length_insert; lia).
    rewrite has_rule_of. unfold rules_in_use at 1. cbn [app_rules rule_count set_app_rules].
    rewrite take_S_insert by lia. fold (rules_in_use g). rewrite rule_of_app. cbn.
    destruct (rule_of q (rules_in_use g)) as [r0|]; [done|]. simpl.
    by destruct (String.eqb _ q).
Qed.

(** [Config g_config = {0}] (config.c:16). *)
Definition zero_config : Config :=
  mkConfig (replicate CONFIG_MAX_KEYBINDS (Bind.mkKeybind "" 0 0 ACTION_FOCUS_LEFT false)) 0
           (replicate CONFIG_MAX_RULES (Rule.mkAppRule "" RULE_TILE false)) 0
           false false 0 0 "".

Lemma zero_config_well_sized : well_sized zero_config.
Proof. repeat split; simpl; lia. Defined.

(** X25. Add a rule, then ask.  With room in the table,
    [config_add_app_rule] returns [true], and [config_get_window_rule]
    then answers, for every application name: the rule it answered
    before, when an enabled rule already named that application (the
    first rule for a name wins); otherwise the new rule, when the name is
    the new rule's name as stored, that is, cut to 127 characters; and
    [RULE_TILE] for every other name.  With the table full it returns
    [false] and changes nothing. *)
Theorem app_rule_add_then_get (name : string) (r : WindowRule) (g : Config) (q : string) :
  well_sized g ->
  ((rule_count g < CONFIG_MAX_RULES)%nat ->
   fst (config_add_app_rule name r g) = true ∧
   well_sized (snd (config_add_app_rule name r g)) ∧
   rule_count (snd (config_add_app_rule name r g)) = S (rule_count g) ∧
   config_get_window_rule (Some q) (snd (config_add_app_rule name r g)) =
     if has_rule q g then config_get_window_rule (Some q) g
     else Some (if String.eqb (strncpy (CONFIG_MAX_APP_NAME - 1) name) q then r
                else RULE_TILE)) ∧
  (rule_count g = CONFIG_MAX_RULES -> config_add_app_rule name r g = (false, g)).
Proof.
  intros Hg. split.
  - intros Hroom. by apply config_add_app_rule_spec.
  - intros Hfull. unfold config_add_app_rule. by rewrite Hfull.
Qed.

Lemma app_rule_add_then_get_example :
  ((rule_count zero_config < CONFIG_MAX_RULES)%nat ->
   fst (config_add_app_rule "Terminal" RULE_FLOAT zero_config) = true ∧
   well_sized (snd (config_add_app_rule "Terminal" RULE_FLOAT zero_config)) ∧
   rule_count (snd (config_add_app_rule "Terminal" RULE_FLOAT zero_config)) = 1%nat ∧
   config_get_window_rule (Some "Terminal"%string)
     (snd (config_add_app_rule "Terminal" RULE_FLOAT zero_config)) =
     if has_rule "Terminal" zero_config
     then config_get_window_rule (Some "Terminal"%string) zero_config
     else Some (if String.eqb (strncpy (CONFIG_MAX_APP_NAME - 1) "Terminal") "Terminal"
                then RULE_FLOAT else RULE_TILE)) ∧
  (rule_count zero_config = CONFIG_MAX_RULES ->
   config_add_app_rule "Terminal" RULE_FLOAT zero_config = (false, zero_config)).
Proof.
  apply (app_rule_add_then_get "Terminal" RULE_FLOAT zero_config "Terminal").
  apply zero_config_well_sized.
Defined.

Lemma length_substring_le (n : nat) (s : string) :
  (String.length (substring 0 n s) <= n)%nat.
Proof.
  revert s. induction n as [|n IH]; intros [|c s]; simpl; try lia.
  specialize (IH s). lia.
Qed.

(** X26. A name of more than 127 characters is stored cut: a rule added
    under such a name is never found under that name, so the application
    keeps the default [RULE_TILE] (unless an older rule names it). *)
Theorem long_app_name_rule_is_lost (name : string) (r : WindowRule) (g : Config) :
  well_sized g -> (rule_count g < CONFIG_MAX_RULES)%nat -> has_rule name g = false ->
  (CONFIG_MAX_APP_NAME - 1 < String.length name)%nat ->
  config_get_window_rule (Some name) (snd (config_add_app_rule name r g)) = Some RULE_TILE.
Proof.
  intros Hg Hroom Hno Hlong.
  destruct (config_add_app_rule_spec name r g name Hg Hroom) as (_ & _ & _ & ->).
  rewrite Hno. destruct (String.eqb_spec (strncpy (CONFIG_MAX_APP_NAME - 1) name) name) as [E|];
    [|done].
  pose proof (length_substring_le (CONFIG_MAX_APP_NAME - 1) name) as Hle.
  unfold strncpy in E. rewrite E in Hle. lia.
Qed.

(** A name of 130 characters. *)
Definition long_name : string :=
  string_of_list_ascii (replicate 130 "a"%char).

Lemma long_app_name_rule_is_lost_example :
  config_get_window_rule (Some long_name)
    (snd (config_add_app_rule long_name RULE_FLOAT zero_config)) = Some RULE_TILE.
Proof.
  apply (long_app_name_rule_is_lost long_name RULE_FLOAT zero_config).
  - apply zero_config_well_sized.
  - simpl. unfold CONFIG_MAX_RULES. lia.
  - reflexivity.
  - vm_compute. lia.
Defined.

(** ** Keybinds *)

Definition MOD_NONE : Z := 0.
Definition MOD_SHIFT : Z := 1.
Definition MOD_CTRL : Z := 2.
Definition MOD_ALT : Z := 4.
Definition MOD_CMD : Z := 8.

(** [(int)c] for a [char], which is a signed type on the machines the
    program is built for. *)
Definition int_of_char (c : ascii) : Z :=
  let n := Z.of_nat (nat_of_ascii c) in
  if n <? 128 then n else n - 256.

(** [config_parse_keycode] (config.c:410). *)
Definition config_parse_keycode (key_str : option string) : Z :=
  match key_str with
  | None => 0
  | Some k =>
      match k with
      | String c EmptyString => int_of_char c
      | _ =>
          if String.eqb k "return" then 13
          else if String.eqb k "space" then 32
          else if String.eqb k "tab" then 9
          else if String.eqb k "escape" then 27
          else if String.eqb k "equal" then int_of_char "="
          else if String.eqb k "minus" then int_of_char "-"
          else 0
      end
  end.

(** The tokens that repeated [strtok] calls cut a string into at the
    delimiter [d]: the maximal non-empty runs of other characters.
    [current] is the run being read. *)
Fixpoint strtok (d : ascii) (s : string) (current : string) : list string :=
  match s with
  | EmptyString => match current with EmptyString => [] | _ => [current] end
  | String c s =>
      if Ascii.eqb c d then
        match current with
        | EmptyString => strtok d s EmptyString
        | _ => current :: strtok d s EmptyString
        end
      else strtok d s (current ++ String c EmptyString)
  end.

(** One turn of the token loop of [config_parse_key_combination]
    (config.c:384-394) on the pair of [*modifiers] and [key_part]. *)
Definition key_token (st : Z * option string) (token : string) : Z * option string :=
  if String.eqb token "cmd" then (Z.lor (fst st) MOD_CMD, snd st)
  else if String.eqb token "alt" then (Z.lor (fst st) MOD_ALT, snd st)
  else if String.eqb token "ctrl" then (Z.lor (fst st) MOD_CTRL, snd st)
  else if String.eqb token "shift" then (Z.lor (fst st) MOD_SHIFT, snd st)
  else (fst st, Some token).

(** [config_parse_key_combination] (config.c:370): the pair of
    [*keycode] and [*modifiers] it leaves. *)
Definition config_parse_key_combination (key_combo : string) : Z * Z :=
  let combo_copy := strncpy (CONFIG_MAX_KEYBIND - 1) key_combo in
  let st := fold_left key_token (strtok "+" combo_copy EmptyString) (MOD_NONE, None) in
  (match snd st with
   | Some key_part => config_parse_keycode (Some key_part)
   | None => 0
   end,
   fst st).

(** [config_add_keybind] (config.c:342). *)
Definition config_add_keybind (key_combo : string) (action : KeyAction) (g : Config) :
    bool * Config :=
  if (CONFIG_MAX_KEYBINDS <=? keybind_count g)%nat then (false, g)
  else
    let '(keycode, modifiers) := config_parse_key_combination key_combo in
    (true,
     set_keybinds
       (<[keybind_count g :=
            Bind.mkKeybind (strncpy (CONFIG_MAX_KEYBIND - 1) key_combo) modifiers keycode
                           action true]>
          (keybinds g))
       (S (keybind_count g)) g).

(** The loop of [config_find_keybind] from index [i] on. *)
Fixpoint keybind_loop (keycode modifiers : Z) (g : Config) (i todo : nat) :
    option (option nat) :=
  match todo with
  | O => Some None
  | S todo =>
      match keybinds g !! i with
      | Some k =>
          if Bind.enabled k && (Bind.keycode k =? keycode) && (Bind.modifiers k =? modifiers)
          then Some (Some i)
          else keybind_loop keycode modifiers g (S i) todo
      | None => None
      end
  end.

(** [config_find_keybind] (config.c:623); the pointer it returns is the
    index of the keybind, [Some None] is [NULL], [None] a read past the
    array. *)
Definition config_find_keybind (keycode modifiers : Z) (g : Config) : option (option nat) :=
  keybind_loop keycode modifiers g 0 (keybind_count g).

(** [s_default_keybinds] (config.c:27). *)
Definition s_default_keybinds : list (string * KeyAction) :=
  [ ("cmd+alt+h"%string, ACTION_FOCUS_LEFT);
    ("cmd+alt+l"%string, ACTION_FOCUS_RIGHT);
    ("cmd+alt+k"%string, ACTION_FOCUS_UP);
    ("cmd+alt+j"%string, ACTION_FOCUS_DOWN);
    ("cmd+alt+t"%string, ACTION_TILE);
    ("cmd+alt+f"%string, ACTION_FLOAT_TOGGLE);
    ("cmd+alt+return"%string, ACTION_FULLSCREEN_TOGGLE);
    ("cmd+alt+q"%string, ACTION_CLOSE_WINDOW);
    ("cmd+alt+shift+h"%string, ACTION_SWAP_LEFT);
    ("cmd+alt+shift+l"%string, ACTION_SWAP_RIGHT);
    ("cmd+alt+shift+k"%string, ACTION_SWAP_UP);
    ("cmd+alt+shift+j"%string, ACTION_SWAP_DOWN);
    ("cmd+alt+equal"%string, ACTION_INCREASE_SIZE);
    ("cmd+alt+minus"%string, ACTION_DECREASE_SIZE) ].

(** [config_load_defaults] (config.c:123). *)
Definition config_load_defaults (g : Config) : Config :=
  let g0 := set_keybinds (keybinds g) 0 g in
  let g1 := fold_left (fun g '(key_combo, action) => snd (config_add_keybind key_combo action g))
                      (take CONFIG_MAX_KEYBINDS s_default_keybinds) g0 in
  set_app_rules (app_rules g1) 0 g1.

(** The keybinds in use. *)
Definition keybinds_in_use (g : Config) : list Bind.Keybind :=
  take (keybind_count g) (keybinds g).

(** The keybind [config_find_keybind] returns, through its pointer. *)
Definition keybind_found (keycode modifiers : Z) (g : Config) :
    option (option Bind.Keybind) :=
  match config_find_keybind keycode modifiers g with
  | Some (Some i) => match keybinds g !! i with Some k => Some (Some k) | None => None end
  | Some None => Some None
  | None => None
  end.

Definition binds (keycode modifiers : Z) (k : Bind.Keybind) : bool :=
  Bind.enabled k && (Bind.keycode k =? keycode) && (Bind.modifiers k =? modifiers).

Fixpoint bound_to (keycode modifiers : Z) (l : list Bind.Keybind) : option Bind.Keybind :=
  match l with
  | [] => None
  | k :: l => if binds keycode modifiers k then Some k else bound_to keycode modifiers l
  end.

Lemma keybind_loop_spec (kc m : Z) (g : Config) (todo : nat) :
  (keybind_count g <= length (keybinds g))%nat ->
  forall i, (i + todo)%nat = keybind_count g ->
    match keybind_loop kc m g i todo with
    | Some (Some j) => keybinds g !! j = bound_to kc m (drop i (keybinds_in_use g)) ∧
                       bound_to kc m (drop i (keybinds_in_use g)) <> None
    | Some None => bound_to kc m (drop i (keybinds_in_use g)) = None
    | None => False
    end.
Proof.
  intros Hlen. unfold keybinds_in_use.
  induction todo as [|todo IH]; intros i Hi; simpl.
  - rewrite drop_ge; [done|]. rewrite length_take. lia.
  - destruct (keybinds g !! i) as [k|] eqn:E; [|apply lookup_ge_None in E; lia].
    assert (E' : take (keybind_count g) (keybinds g) !! i = Some k)
      by (rewrite lookup_take_lt by lia; done).
    rewrite (drop_S _ _ _ E'). simpl. unfold binds.
    destruct (Bind.enabled k && (Bind.keycode k =? kc) && (Bind.modifiers k =? m)); [done|].
    apply IH. lia.
Qed.

Lemma keybind_found_spec (kc m : Z) (g : Config) :
  (keybind_count g <= length (keybinds g))%nat ->
  keybind_found kc m g = Some (bound_to kc m (keybinds_in_use g)).
Proof.
  intros Hlen. unfold keybind_found, config_find_keybind.
  pose proof (keybind_loop_spec kc m g _ Hlen 0%nat eq_refl) as H. rewrite drop_0 in H.
  destruct (keybind_loop kc m g 0 (keybind_count g)) as [[j|]|]; [| |done].
  - destruct H as [H1 H2]. rewrite H1. by destruct (bound_to kc m (keybinds_in_use g)).
  - by rewrite H.
Qed.

Lemma bound_to_app (kc m : Z) (l : list Bind.Keybind) (k : Bind.Keybind) :
  bound_to kc m (l ++ [k]) =
  match bound_to kc m l with
  | Some k0 => Some k0
  | None => if binds kc m k then Some k else None
  end.
Proof.
  induction l as [|k0 l IH]; simpl; [by case_match|]. by destruct (binds kc m k0).
Qed.

Lemma config_add_keybind_spec (key_combo : string) (action : KeyAction) (g : Config) :
  well_sized g -> (keybind_count g < CONFIG_MAX_KEYBINDS)%nat ->
  fst (config_add_keybind key_combo action g) = true ∧
  well_sized (snd (config_add_keybind key_combo action g)) ∧
  rule_count (snd (config_add_keybind key_combo action g)) = rule_count g ∧
  app_rules (snd (config_add_keybind key_combo action g)) = app_rules g ∧
  keybind_count (snd (config_add_keybind key_combo action g)) = S (keybind_count g) ∧
  keybinds_in_use (snd (config_add_keybind key_combo action g)) =
    keybinds_in_use g ++
    [Bind.mkKeybind (strncpy (CONFIG_MAX_KEYBIND - 1) key_combo)
                    (snd (config_parse_key_combination key_combo))
                    (fst (config_parse_key_combination key_combo)) action true].
Proof.
  intros (Hk & Hkc & Hr & Hrc) Hroom. unfold config_add_keybind.
  rewrite (proj2 (Nat.leb_gt _ _)) by done.
  destruct (config_parse_key_combination key_combo) as [kc m]. cbn [fst snd].
  split_and!; try done.
  - unfold well_sized. cbn. rewrite length_insert. split_and!; done || lia.
  - unfold keybinds_in_use. cbn. by rewrite take_S_insert by lia.
Qed.

Lemma well_sized_keybinds (g : Config) :
  well_sized g -> (keybind_count g <= length (keybinds g))%nat.
Proof. intros (-> & ? & _). done. Qed.

(** X27. Add a keybind, then look it up.  With room in the table,
    [config_add_keybind] returns [true], and [config_find_keybind] then
    returns, for every key code and modifier set: the keybind it returned
    before, when there was one (the first binding of a key wins);
    otherwise the new keybind, when they are the key code and modifiers
    parsed from the new combination; and [NULL] in every other case.
    With the table full it returns [false] and changes nothing. *)
Theorem keybind_add_then_find (key_combo : string) (action : KeyAction) (g : Config)
    (kc m : Z) :
  well_sized g ->
  ((keybind_count g < CONFIG_MAX_KEYBINDS)%nat ->
   fst (config_add_keybind key_combo action g) = true ∧
   well_sized (snd (config_add_keybind key_combo action g)) ∧
   keybind_found kc m (snd (config_add_keybind key_combo action g)) =
     match keybind_found kc m g with
     | Some (Some k) => Some (Some k)
     | Some None =>
         Some (if (fst (config_parse_key_combination key_combo) =? kc) &&
                  (snd (config_parse_key_combination key_combo) =? m)
               then Some (Bind.mkKeybind (strncpy (CONFIG_MAX_KEYBIND - 1) key_combo)
                                         (snd (config_parse_key_combination key_combo))
                                         (fst (config_parse_key_combination key_combo))
                                         action true)
               else None)
     | None => None
     end) ∧
  (keybind_count g = CONFIG_MAX_KEYBINDS -> config_add_keybind key_combo action g = (false, g)).
Proof.
  intros Hg. split.
  - intros Hroom.
    destruct (config_add_keybind_spec key_combo action g Hg Hroom)
      as (Hok & Hg' & _ & _ & _ & Huse).
    split_and!; [done..|].
    rewrite !keybind_found_spec by (by apply well_sized_keybinds).
    rewrite Huse, bound_to_app. by destruct (bound_to kc m (keybinds_in_use g)).
  - intros Hfull. unfold config_add_keybind. by rewrite Hfull.
Qed.

Lemma keybind_add_then_find_example :
  ((keybind_count zero_config < CONFIG_MAX_KEYBINDS)%nat ->
   fst (config_add_keybind "cmd+alt+h" ACTION_FOCUS_LEFT zero_config) = true ∧
   well_sized (snd (config_add_keybind "cmd+alt+h" ACTION_FOCUS_LEFT zero_config)) ∧
   keybind_found 104 12 (snd (config_add_keybind "cmd+alt+h" ACTION_FOCUS_LEFT zero_config)) =
     match keybind_found 104 12 zero_config with
     | Some (Some k) => Some (Some k)
     | Some None =>
         Some (if (fst (config_parse_key_combination "cmd+alt+h") =? 104) &&
                  (snd (config_parse_key_combination "cmd+alt+h") =? 12)
               then Some (Bind.mkKeybind (strncpy (CONFIG_MAX_KEYBIND - 1) "cmd+alt+h")
                                         (snd (config_parse_key_combination "cmd+alt+h"))
                                         (fst (config_parse_key_combination "cmd+alt+h"))
                                         ACTION_FOCUS_LEFT true)
               else None)
     | None => None
     end) ∧
  (keybind_count zero_config = CONFIG_MAX_KEYBINDS ->
   config_add_keybind "cmd+alt+h" ACTION_FOCUS_LEFT zero_config = (false, zero_config)).
Proof.
  apply (keybind_add_then_find "cmd+alt+h" ACTION_FOCUS_LEFT zero_config 104 12).
  apply zero_config_well_sized.
Defined.

(** The keybind [config_add_keybind] stores for a combination. *)
Definition keybind_of (entry : string * KeyAction) : Bind.Keybind :=
  Bind.mkKeybind (strncpy (CONFIG_MAX_KEYBIND - 1) (fst entry))
                 (snd (config_parse_key_combination (fst entry)))
                 (fst (config_parse_key_combination (fst entry))) (snd entry) true.

Lemma add_keybinds_spec (l : list (string * KeyAction)) :
  forall g : Config,
    well_sized g -> (keybind_count g + length l <= CONFIG_MAX_KEYBINDS)%nat ->
    well_sized (fold_left (fun g '(key_combo, action) =>
                             snd (config_add_keybind key_combo action g)) l g) ∧
    rule_count (fold_left (fun g '(key_combo, action) =>
                             snd (config_add_keybind key_combo action g)) l g) = rule_count g ∧
    keybind_count (fold_left (fun g '(key_combo, action) =>
                             snd (config_add_keybind key_combo action g)) l g) =
      (keybind_count g + length l)%nat ∧
    keybinds_in_use (fold_left (fun g '(key_combo, action) =>
                             snd (config_add_keybind key_combo action g)) l g) =
      keybinds_in_use g ++ (keybind_of <$> l).
Proof.
  induction l as [|[combo action] l IH]; intros g Hg Hroom; simpl in *.
  - rewrite app_nil_r. split_and!; done || lia.
  - destruct (config_add_keybind_spec combo action g Hg ltac:(lia))
      as (_ & Hg' & Hrc & _ & Hkc & Huse).
    destruct (IH _ Hg' ltac:(lia)) as (Hg'' & Hrc' & Hkc' & Huse').
    split_and!; [done|congruence|lia|].
    rewrite Huse', Huse, <- app_assoc. done.
Qed.

(** X28. [config_load_defaults] always ends with the fourteen default
    keybinds and no application rule, whatever the configuration held
    before; and no default hides another: [config_find_keybind], asked
    for the key code and modifiers of any default combination, returns
    the keybind of that combination, with its action. *)
Theorem defaults_are_all_found (g : Config) :
  well_sized g ->
  keybind_count (config_load_defaults g) = 14%nat ∧
  rule_count (config_load_defaults g) = 0%nat ∧
  Forall (fun entry =>
            keybind_found (fst (config_parse_key_combination (fst entry)))
                          (snd (config_parse_key_combination (fst entry)))
                          (config_load_defaults g) =
            Some (Some (Bind.mkKeybind (fst entry)
                          (snd (config_parse_key_combination (fst entry)))
                          (fst (config_parse_key_combination (fst entry)))
                          (snd entry) true)))
         s_default_keybinds.
Proof.
  intros (Hk & Hkc & Hr & Hrc). unfold config_load_defaults.
  set (g0 := set_keybinds (keybinds g) 0 g).
  assert (Hg0 : well_sized g0) by (unfold well_sized; cbn; split_and!; done || lia).
  destruct (add_keybinds_spec (take CONFIG_MAX_KEYBINDS s_default_keybinds) g0 Hg0)
    as (Hg1 & _ & Hc1 & Huse); [vm_compute; lia|].
  set (g1 := fold_left _ _ g0) in *.
  assert (Huse' : keybinds_in_use (set_app_rules (app_rules g1) 0 g1) =
                  keybind_of <$> s_default_keybinds) by exact Huse.
  assert (Hc1' : keybind_count g1 = 14%nat) by exact Hc1.
  clearbody g1. clear Huse Hc1.
  assert (Hg2 : well_sized (set_app_rules (app_rules g1) 0 g1)).
  { destruct Hg1 as (? & ? & ? & ?). unfold well_sized, set_app_rules. simpl.
    split_and!; done || lia. }
  split_and!; [done..|].
  apply Forall_forall. intros entry Hin.
  rewrite keybind_found_spec by (by apply well_sized_keybinds).
  rewrite Huse'. clear -Hin. revert entry Hin. apply Forall_forall.
  repeat constructor; by vm_compute.
Qed.

Lemma defaults_are_all_found_example :
  keybind_count (config_load_defaults zero_config) = 14%nat ∧
  rule_count (config_load_defaults zero_config) = 0%nat ∧
  Forall (fun entry =>
            keybind_found (fst (config_parse_key_combination (fst entry)))
                          (snd (config_parse_key_combination (fst entry)))
                          (config_load_defaults zero_config) =
            Some (Some (Bind.mkKeybind (fst entry)
                          (snd (config_parse_key_combination (fst entry)))
                          (fst (config_parse_key_combination (fst entry)))
                          (snd entry) true)))
         s_default_keybinds.
Proof. apply (defaults_are_all_found zero_config zero_config_well_sized). Defined.

(** ** Key combinations *)

(** A combination written out: the words joined by [+]. *)
Fixpoint join (words : list string) : string :=
  match words with
  | [] => EmptyString
  | [w] => w
  | w :: words => (w ++ String "+" (join words))%string
  end.

Fixpoint no_plus (w : string) : bool :=
  match w with
  | EmptyString => true
  | String c w => negb (Ascii.eqb c "+") && no_plus w
  end.

(** A word of a combination: not empty, no [+] in it. *)
Definition word (w : string) : Prop := w <> EmptyString ∧ no_plus w = true.

(** The flag of a modifier word; [None] for any other word, which is
    then taken for the key. *)
Definition modifier_flag (w : string) : option Z :=
  if String.eqb w "cmd" then Some MOD_CMD
  else if String.eqb w "alt" then Some MOD_ALT
  else if String.eqb w "ctrl" then Some MOD_CTRL
  else if String.eqb w "shift" then Some MOD_SHIFT
  else None.

Definition is_key (w : string) : Prop := modifier_flag w = None.

Global Instance is_key_dec (w : string) : Decision (is_key w).
Proof. unfold is_key. apply _. Defined.

(** The modifier flags of the words of a combination, or-ed together. *)
Fixpoint flags_of (words : list string) : Z :=
  match words with
  | [] => MOD_NONE
  | w :: words => Z.lor (default MOD_NONE (modifier_flag w)) (flags_of words)
  end.

Lemma append_cons (c : ascii) (a b : string) :
  (String c a ++ b)%string = String c (a ++ b).
Proof. reflexivity. Qed.

Lemma append_empty_l (a : string) : (EmptyString ++ a)%string = a.
Proof. reflexivity. Qed.

Lemma append_empty_r (s : string) : (s ++ EmptyString)%string = s.
Proof. induction s as [|c s IH]; [done|]. by rewrite append_cons, IH. Qed.

Lemma append_assoc_string (a b c : string) : ((a ++ b) ++ c)%string = (a ++ (b ++ c))%string.
Proof. induction a as [|x a IH]; [done|]. by rewrite !append_cons, IH. Qed.

Lemma length_append_string (a b : string) :
  String.length (a ++ b) = (String.length a + String.length b)%nat.
Proof. induction a as [|x a IH]; [done|]. rewrite append_cons. simpl. by rewrite IH. Qed.

Lemma strtok_run (w rest current : string) :
  no_plus w = true ->
  strtok "+" (w ++ rest) current = strtok "+" rest (current ++ w).
Proof.
  revert current. induction w as [|c w IH]; intros current.
  - by rewrite append_empty_l, append_empty_r.
  - intros H. cbn [no_plus] in H. apply andb_prop in H as [Hc Hw].
    apply negb_true_iff in Hc. rewrite append_cons. cbn [strtok]. rewrite Hc.
    rewrite IH by done. by rewrite append_assoc_string.
Qed.

Lemma strtok_join (words : list string) :
  Forall word words -> strtok "+" (join words) EmptyString = words.
Proof.
  induction words as [|w words IH]; [done|]. intros [[Hne Hw] Hws]%Forall_cons.
  destruct words as [|w2 words].
  - cbn [join]. rewrite <- (append_empty_r w) at 1. rewrite strtok_run by done.
    rewrite append_empty_l. cbn [strtok]. by destruct w.
  - cbn [join] in *. rewrite strtok_run by done. cbn [strtok].
    rewrite Ascii.eqb_refl, append_empty_l.
    destruct w; [done|]. f_equal. by apply IH.
Qed.

Lemma key_token_flag (st : Z * option string) (w : string) :
  key_token st w =
  match modifier_flag w with
  | Some f => (Z.lor (fst st) f, snd st)
  | None => (fst st, Some w)
  end.
Proof. unfold key_token, modifier_flag. by repeat case_match. Qed.

Lemma fold_key_token (words : list string) :
  forall (m : Z) (k : option string),
    fold_left key_token words (m, k) =
    (Z.lor m (flags_of words),
     match last (filter is_key words) with Some w => Some w | None => k end).
Proof.
  induction words as [|w words IH]; intros m k; simpl.
  - by rewrite Z.lor_0_r.
  - rewrite key_token_flag, filter_cons. destruct (decide (is_key w)) as [Hk|Hk].
    + unfold is_key in Hk. rewrite Hk. simpl. rewrite IH. f_equal.
      rewrite last_cons. by destruct (last (filter is_key words)).
    + destruct (modifier_flag w) as [f|] eqn:E; [|by destruct Hk]. simpl.
      rewrite IH. by rewrite Z.lor_assoc.
Qed.

Lemma flags_of_perm (words words' : list string) :
  words ≡ₚ words' -> flags_of words = flags_of words'.
Proof.
  induction 1 as [|w l l' _ IH|w1 w2 l|l1 l2 l3 _ IH1 _ IH2]; simpl;
    [done|congruence| |congruence].
  rewrite !Z.lor_assoc. f_equal. apply Z.lor_comm.
Qed.

Fixpoint total_length (words : list string) : nat :=
  match words with
  | [] => 0
  | w :: words => (String.length w + total_length words)%nat
  end.

Lemma length_join (words : list string) :
  String.length (join words) = (total_length words + (length words - 1))%nat.
Proof.
  induction words as [|w [|w2 words] IH]; simpl in *; [done|lia|].
  rewrite length_append_string. simpl. rewrite IH. lia.
Qed.

Lemma total_length_perm (words words' : list string) :
  words ≡ₚ words' -> total_length words = total_length words'.
Proof. induction 1; simpl; lia. Qed.

Lemma strncpy_short (n : nat) (s : string) :
  (String.length s <= n)%nat -> strncpy n s = s.
Proof.
  unfold strncpy. revert n. induction s as [|c s IH]; intros [|n]; simpl; try done; try lia.
  intros H. f_equal. apply IH. lia.
Qed.

Lemma parse_joined (words : list string) (key : string) :
  Forall word words -> filter is_key words = [key] ->
  (String.length (join words) <= CONFIG_MAX_KEYBIND - 1)%nat ->
  config_parse_key_combination (join words) =
  (config_parse_keycode (Some key), flags_of words).
Proof.
  intros Hw Hkey Hlen. unfold config_parse_key_combination.
  rewrite strncpy_short, strtok_join, fold_key_token, Hkey by done. done.
Qed.

(** X29. The order of the words of a key combination does not matter.
    For words joined by [+], exactly one of them not a modifier name, and
    a combination that fits the 63 characters kept,
    [config_parse_key_combination] gives the key code of that one word
    and the flags of the others, or-ed together, wherever the key stands
    and in whatever order the modifiers come. *)
Theorem key_combination_order (words words' : list string) (key : string) :
  Forall word words -> filter is_key words = [key] -> words ≡ₚ words' ->
  (String.length (join words) <= CONFIG_MAX_KEYBIND - 1)%nat ->
  config_parse_key_combination (join words') =
    (config_parse_keycode (Some key), flags_of words) ∧
  config_parse_key_combination (join words') = config_parse_key_combination (join words).
Proof.
  intros Hw Hkey Hperm Hlen.
  assert (H' : config_parse_key_combination (join words') =
               (config_parse_keycode (Some key), flags_of words)).
  { rewrite (flags_of_perm _ _ Hperm). apply parse_joined.
    - by rewrite <- Hperm.
    - apply Permutation_singleton_r. by rewrite <- Hperm, Hkey.
    - rewrite length_join in *.
      by rewrite <- (total_length_perm _ _ Hperm), <- (Permutation_length Hperm). }
  split; [done|]. by rewrite H', (parse_joined words key).
Qed.

Lemma key_combination_order_example :
  config_parse_key_combination "h+shift+cmd" = (104, 9) ∧
  config_parse_key_combination "h+shift+cmd" = config_parse_key_combination "cmd+shift+h".
Proof.
  apply (key_combination_order ["cmd"; "shift"; "h"]%string ["h"; "shift"; "cmd"]%string "h").
  - repeat constructor; done.
  - reflexivity.
  - apply (bool_decide_unpack _). by vm_compute.
  - vm_compute. lia.
Defined.
